(** * PSARc: a shallow embedding of the archive writer and reader

    The development follows the C sources of the PSARc tool:
    [common.c] (block-table item width, compressed size of an entry),
    [inettypes.c] (24 and 40 bit big-endian fields), [pak.c] (archive
    creation, synchronous and through the ordered worker pool of
    [threads.c]) and [unpak.c] (header, table of contents, block table,
    manifest and extraction); then [hashset.c] (the table behind the
    pattern set) and [file_utils.c] (path clean-up and the list of input
    files).

    Conventions.
    - A byte is a [Z] in [0, 256); a buffer or a file content is a [list Z];
      a C string is the list of its characters without the final NUL.
    - Fixed-width unsigned variables are [Z] values, the wrap-around of the C
      type is written where the C code assigns ([u32], [u64]).
    - The memory image of a big-endian field is produced by [htons], [htonl],
      [hton24], [hton40] and read back by the matching [ntoh*]; host casts are
      modelled for a little-endian host.
    - Undefined behaviour of the C program (out-of-bounds access, division by
      zero, a buffer overrun, a loop that never ends) is the result [None].
    - zlib, liblzma, MD5 and the libc path functions are external: they are the
      fields of the class [External]. *)

From Stdlib Require Import String ZArith List Lia Bool.
Import ListNotations.
Local Open Scope Z_scope.

(** ** Bytes, buffers and machine integers *)

Definition bytes := list Z.
Definition cstring := list Z.

Definition len {A : Type} (l : list A) : Z := Z.of_nat (length l).

Definition u8 (v : Z) : Z := v mod 2 ^ 8.
Definition u32 (v : Z) : Z := v mod 2 ^ 32.
Definition u64 (v : Z) : Z := v mod 2 ^ 64.

Definition is_byte (b : Z) : Prop := 0 <= b < 256.

Notation "x <- a ;; b" :=
  (match a with Some x => b | None => None end)
  (at level 61, a at next level, right associativity).

(** [store l i v] is the assignment [l[i] = v]; writing outside the array is
    undefined. *)
Fixpoint store_nat {A : Type} (l : list A) (i : nat) (v : A) : option (list A) :=
  match l, i with
  | [], _ => None
  | _ :: t, O => Some (v :: t)
  | x :: t, S j => t' <- store_nat t j v ;; Some (x :: t')
  end.

Definition store {A : Type} (l : list A) (i : Z) (v : A) : option (list A) :=
  if i <? 0 then None else store_nat l (Z.to_nat i) v.

Definition load {A : Type} (l : list A) (i : Z) : option A :=
  if i <? 0 then None else nth_error l (Z.to_nat i).

Fixpoint bytes_eqb (a b : bytes) : bool :=
  match a, b with
  | [], [] => true
  | x :: a', y :: b' => (x =? y) && bytes_eqb a' b'
  | _, _ => false
  end.

(** ** inettypes.c and the libc byte-order functions *)

Definition htons (value : Z) : bytes :=
  [Z.land (Z.shiftr value 8) 0xFF; Z.land value 0xFF].

Definition hton24 (value : Z) : bytes :=
  [Z.land (Z.shiftr value 16) 0xFF; Z.land (Z.shiftr value 8) 0xFF;
   Z.land value 0xFF].

Definition htonl (value : Z) : bytes :=
  [Z.land (Z.shiftr value 24) 0xFF; Z.land (Z.shiftr value 16) 0xFF;
   Z.land (Z.shiftr value 8) 0xFF; Z.land value 0xFF].

Definition hton40 (value : Z) : bytes :=
  [Z.land (Z.shiftr value 32) 0xFF; Z.land (Z.shiftr value 24) 0xFF;
   Z.land (Z.shiftr value 16) 0xFF; Z.land (Z.shiftr value 8) 0xFF;
   Z.land value 0xFF].

Definition ntohs (ptr : bytes) : Z :=
  Z.lor (Z.shiftl (nth 0 ptr 0) 8) (nth 1 ptr 0).

Definition ntoh24 (ptr : bytes) : Z :=
  Z.lor (Z.lor (Z.shiftl (nth 0 ptr 0) 16) (Z.shiftl (nth 1 ptr 0) 8))
        (nth 2 ptr 0).

Definition ntohl (ptr : bytes) : Z :=
  Z.lor (Z.lor (Z.lor (Z.shiftl (nth 0 ptr 0) 24) (Z.shiftl (nth 1 ptr 0) 16))
               (Z.shiftl (nth 2 ptr 0) 8))
        (nth 3 ptr 0).

Definition ntoh40 (ptr : bytes) : Z :=
  Z.lor (Z.lor (Z.lor (Z.lor (Z.shiftl (nth 0 ptr 0) 32)
                             (Z.shiftl (nth 1 ptr 0) 24))
                      (Z.shiftl (nth 2 ptr 0) 16))
               (Z.shiftl (nth 3 ptr 0) 8))
        (nth 4 ptr 0).

(** ** stdio: a file is its content and a position *)

Record FILE := mkFILE { f_data : bytes; f_pos : Z }.

Definition fopen_rb (content : bytes) : FILE := mkFILE content 0.
Definition fopen_wb : FILE := mkFILE [] 0.

Definition fseek (f : FILE) (off : Z) : FILE := mkFILE (f_data f) off.

(** [fwrite buf f] is [fwrite(buf, length buf, 1, f)]: a hole left by a seek
    past the end reads as zeros. *)
Definition fwrite (buf : bytes) (f : FILE) : FILE :=
  match buf with
  | [] => f
  | _ =>
    let p := Z.to_nat (f_pos f) in
    let d := f_data f in
    mkFILE (firstn p d ++ repeat 0 (p - length d) ++ buf
              ++ skipn (p + length buf) d)
           (f_pos f + len buf)
  end.

(** [fread size f] is [fread(buf, size, 1, f)]: the number of items read (0 or
    1), the bytes that reached the buffer, and the file afterwards. *)
Definition fread (size : Z) (f : FILE) : Z * bytes * FILE :=
  let avail := skipn (Z.to_nat (f_pos f)) (f_data f) in
  if size <=? 0 then (0, [], f)
  else if size <=? len avail
       then (1, firstn (Z.to_nat size) avail, mkFILE (f_data f) (f_pos f + size))
       else (0, avail, mkFILE (f_data f) (f_pos f + len avail)).

(** ** psarc.h and common.h *)

Definition PSARC_STORE : Z := 0.
Definition PSARC_ZLIB : Z := 1.
Definition PSARC_LZMA : Z := 2.

Definition AF_ICASE : Z := 1.
Definition AF_ABSPATH : Z := 2.

Definition sizeof_PSARCHEADER : Z := 32.
Definition sizeof_PSARCTOC : Z := 30.

Definition LZMA_PRESET_EXTREME : Z := 0x80000000.

Record ARCHIVEINFO := mkARCHIVEINFO {
  version_high : Z;
  version_low : Z;
  compression_type : Z;
  toc_length : Z;
  toc_entries : Z;
  block_size : Z;
  archive_flags : Z
}.

Record FILEINFO := mkFILEINFO {
  name_digest : bytes;
  filename : option cstring;
  offset : Z;
  block_index : Z;
  num_blocks : Z;
  compressed_size : Z;
  uncompressed_size : Z
}.

(** The fields of [CONFIG] that the archive code reads. *)
Record CONFIG := mkCONFIG {
  compression_level : Z;
  extreme_compression_flag : bool;
  overwrite_flag : bool;
  trim_path_flag : bool;
  skip_existing_files_flag : bool;
  num_threads : Z
}.

(** What freshly allocated memory and uninitialised locals hold. *)
Record UNINIT := mkUNINIT {
  junk_fileinfo : FILEINFO;
  junk_u32 : Z;
  junk_u8 : Z
}.

(** The external libraries: zlib, liblzma, MD5 and the libc path functions.
    - [compress2 src cap level] is [dest[0 .. *destLen)] after
      [compress2(dest, &destLen, src, n, level)] called with [*destLen = cap].
    - [lzma_encode preset src cap] is [Some out] when [lzma_stream_encoder]
      returns [LZMA_OK] and [lzma_code(LZMA_FINISH)] returns [LZMA_STREAM_END]
      or [LZMA_OK], [out] being the [cap - avail_out] bytes produced.
    - [uncompress src cap] is [Some out] when the call returns [Z_OK], [out]
      being [dest[0 .. *destLen)].
    - [lzma_decode src cap] is [Some out] when [lzma_stream_decoder] returns
      [LZMA_OK] and [lzma_code(LZMA_FINISH)] returns [LZMA_STREAM_END], [out]
      being the bytes written to [next_out].
    - [fopen_wb_ok path] tells whether [fopen(path, "wb")] succeeds on a path
      that is not a directory. *)
Class External := {
  compressBound : Z -> Z;
  compress2 : bytes -> Z -> Z -> bytes;
  lzma_encode : Z -> bytes -> Z -> option bytes;
  uncompress : bytes -> Z -> option bytes;
  lzma_decode : bytes -> Z -> option bytes;
  md5 : cstring -> bytes;
  dirname : cstring -> cstring;
  basename : cstring -> cstring;
  fopen_wb_ok : cstring -> bool
}.

(** ** common.c *)

Definition get_blocktable_item_size (ai : ARCHIVEINFO) : Z :=
  if block_size ai <=? 0x100 then 1
  else if block_size ai <=? 0x10000 then 2
  else if block_size ai <=? 0x1000000 then 3
  else if block_size ai <=? 0x100000000 then 4
  else -1.

Fixpoint get_compressed_size_loop (blocks : nat) (blocktable : list Z)
    (chunk_size index length : Z) : option Z :=
  match blocks with
  | O => Some length
  | S blocks' =>
    slot <- load blocktable index ;;
    let blk := if slot =? 0 then u32 chunk_size else slot in
    get_compressed_size_loop blocks' blocktable chunk_size
                             (u32 (index + 1)) (u64 (length + blk))
  end.

Definition get_compressed_size (ai : ARCHIVEINFO) (fi : FILEINFO)
    (blocktable : list Z) : option Z :=
  let chunk_size := block_size ai in
  if uncompressed_size fi =? 0 then Some 0
  else if chunk_size =? 0 then None
  else
    let blocks := u32 (u64 (uncompressed_size fi + chunk_size - 1) / chunk_size) in
    get_compressed_size_loop (Z.to_nat blocks) blocktable chunk_size
                             (block_index fi) 0.

Fixpoint lcase (s : cstring) : cstring :=
  match s with
  | [] => []
  | c :: t => (if (65 <=? c) && (c <=? 90) then c + 32 else c) :: lcase t
  end.

(** ** pak.c: archive creation *)

(** The writer's variables: the output file, [total_size], the block table
    with its running index, and [files_info_table]. *)
Record PAK := mkPAK {
  archive_file : FILE;
  total_size : Z;
  blocktable : list Z;
  blocktable_idx : Z;
  files_info_table : list FILEINFO
}.

(** The per-task record handed to a worker; [pkd_fi] is the index of the
    entry in [files_info_table] and [buffer0] the raw block read by the
    dispatcher ([data_size] bytes). *)
Record PAKDATA := mkPAKDATA {
  is_first_block : bool;
  is_last_block : bool;
  data_size : Z;
  pkd_fi : Z;
  pkd_blocktable_idx : Z;
  buffer0 : bytes
}.

Definition set_offset (fi : FILEINFO) (v : Z) : FILEINFO :=
  mkFILEINFO (name_digest fi) (filename fi) v (block_index fi) (num_blocks fi)
             (compressed_size fi) (uncompressed_size fi).
Definition set_block_index (fi : FILEINFO) (v : Z) : FILEINFO :=
  mkFILEINFO (name_digest fi) (filename fi) (offset fi) v (num_blocks fi)
             (compressed_size fi) (uncompressed_size fi).
Definition set_num_blocks (fi : FILEINFO) (v : Z) : FILEINFO :=
  mkFILEINFO (name_digest fi) (filename fi) (offset fi) (block_index fi) v
             (compressed_size fi) (uncompressed_size fi).
Definition set_compressed_size (fi : FILEINFO) (v : Z) : FILEINFO :=
  mkFILEINFO (name_digest fi) (filename fi) (offset fi) (block_index fi)
             (num_blocks fi) v (uncompressed_size fi).
Definition set_uncompressed_size (fi : FILEINFO) (v : Z) : FILEINFO :=
  mkFILEINFO (name_digest fi) (filename fi) (offset fi) (block_index fi)
             (num_blocks fi) (compressed_size fi) v.
Definition set_filename (fi : FILEINFO) (v : option cstring) : FILEINFO :=
  mkFILEINFO (name_digest fi) v (offset fi) (block_index fi)
             (num_blocks fi) (compressed_size fi) (uncompressed_size fi).

Definition set_toc (ai : ARCHIVEINFO) (entries length : Z) : ARCHIVEINFO :=
  mkARCHIVEINFO (version_high ai) (version_low ai) (compression_type ai)
                length entries (block_size ai) (archive_flags ai).

(** [update l i g] is [l[i] = g(l[i])]. *)
Definition update {A : Type} (l : list A) (i : Z) (g : A -> A) : option (list A) :=
  x <- load l i ;; store l i (g x).

(** [strrchr c s]: the suffix of [s] that starts at the last [c]. *)
Fixpoint strrchr (c : Z) (s : cstring) : option cstring :=
  match s with
  | [] => None
  | x :: t =>
    match strrchr c t with
    | Some r => Some r
    | None => if x =? c then Some s else None
    end
  end.

Fixpoint skip_slashes (s : cstring) : cstring :=
  match s with
  | 47 :: t => skip_slashes t
  | _ => s
  end.

Definition abspath (ai : ARCHIVEINFO) : bool :=
  negb (Z.land (archive_flags ai) AF_ABSPATH =? 0).

Definition icase (ai : ARCHIVEINFO) : bool :=
  negb (Z.land (archive_flags ai) AF_ICASE =? 0).

(** [source_buffer] and [target_buffer] of [create_archive] are two
    [malloc(_ArchiveInfo.block_size * 2)], the product being taken in
    [uint32_t]. *)
Definition scratch_size (ai : ARCHIVEINFO) : Z := u32 (block_size ai * 2).

(** The slot of a worker is [malloc(user_data_size)], where
    [sizeof(PAKDATA) + _ArchiveInfo.block_size * 4], its product taken in
    [uint32_t], goes through the [int] of [create_archive] to the [uint32_t]
    parameter of [threads_init]. On x86-64 [PAKDATA] has 64 bytes and its
    member [buffers], where the first of the two buffers starts, is at
    offset 60; the second buffer starts [block_size * 2] bytes further. *)
Definition sizeof_PAKDATA : Z := 64.
Definition offsetof_buffers : Z := 60.

Definition user_data_size (ai : ARCHIVEINFO) : Z :=
  u32 (sizeof_PAKDATA + u32 (block_size ai * 4)).

Section Pak.
Context {E : External}.
Variable cfg : CONFIG.

Definition lzma_preset : Z :=
  Z.lor (compression_level cfg)
        (if extreme_compression_flag cfg then LZMA_PRESET_EXTREME else 0).

(** The [switch] of [compress_entry]: the bytes [write_buffer[0 ..
    bytes_write)] given to [fwrite] for the block [read_buffer]. *)
Definition compress_block (ai : ARCHIVEINFO) (read_buffer : bytes) : bytes :=
  let bytes_read := len read_buffer in
  if compression_type ai =? PSARC_ZLIB then
    let out := compress2 read_buffer (compressBound bytes_read)
                         (compression_level cfg) in
    if len out >=? bytes_read then read_buffer else out
  else if compression_type ai =? PSARC_LZMA then
    match lzma_encode lzma_preset read_buffer (block_size ai) with
    | Some out => if len out >=? bytes_read then read_buffer else out
    | None => read_buffer
    end
  else read_buffer.

(** The [switch] of [compress_entry_thread]: both scratch slots hold
    [block_size * 2] bytes. *)
Definition compress_block_thread (ai : ARCHIVEINFO) (buffer : bytes) : bytes :=
  let data_size := len buffer in
  if compression_type ai =? PSARC_ZLIB then
    let out := compress2 buffer (u32 (block_size ai * 2))
                         (compression_level cfg) in
    if len out >=? data_size then buffer else out
  else if compression_type ai =? PSARC_LZMA then
    match lzma_encode lzma_preset buffer (u32 (block_size ai * 2)) with
    | Some out => if len out >=? data_size then buffer else out
    | None => buffer
    end
  else buffer.

(** The number of bytes the encoder stores through [write_buffer] for the
    block [read_buffer], [dest_len] being the room it is given: the length
    of its output. When liblzma gives up the room is taken as used (the
    output did not fit); the store codec has no encoder. *)
Definition encoder_stores (ai : ARCHIVEINFO) (read_buffer : bytes)
    (zlib_dest_len lzma_dest_len : Z) : Z :=
  if compression_type ai =? PSARC_ZLIB then
    len (compress2 read_buffer zlib_dest_len (compression_level cfg))
  else if compression_type ai =? PSARC_LZMA then
    match lzma_encode lzma_preset read_buffer lzma_dest_len with
    | Some out => len out
    | None => lzma_dest_len
    end
  else 0.

(** Whether a round of the loop of [compress_entry] stays inside the two
    buffers: [fread] stores the block in [source_buffer] when [input_fp] is
    not NULL (a block of the manifest is read where it is), and the encoder
    stores its output in [target_buffer]. *)
Definition scratch_holds (ai : ARCHIVEINFO) (input_fp : bool) (read_buffer : bytes)
    : bool :=
  (negb input_fp || (len read_buffer <=? scratch_size ai))
  && (encoder_stores ai read_buffer (compressBound (len read_buffer)) (block_size ai)
      <=? scratch_size ai).

(** Whether the dispatcher stays inside the slot of the worker: it fills
    the members of [PAKDATA] that come before [buffers], and [fread]
    stores the block from [buffers] on. *)
Definition slot_holds_input (ai : ARCHIVEINFO) (buffer : bytes) : bool :=
  offsetof_buffers + len buffer <=? user_data_size ai.

(** Whether the encoder of the worker stays inside the slot: what it
    stores starts [block_size * 2] bytes behind its input, must end inside
    the slot and must not run over the input it reads. *)
Definition slot_holds_output (ai : ARCHIVEINFO) (buffer : bytes) : bool :=
  let second := u32 (block_size ai * 2) in
  let stored := encoder_stores ai buffer second second in
  (stored =? 0)
  || ((len buffer <=? second)
      && (offsetof_buffers + second + stored <=? user_data_size ai)).

(** [to_read] of both block loops; [last] is [blocks == 1]. *)
Definition next_to_read (ai : ARCHIVEINFO) (last : bool)
    (uncompressed bytes_uncompressed : Z) : Z :=
  if last then
    let r := u64 (uncompressed - bytes_uncompressed) in
    if r >? block_size ai then block_size ai else r
  else block_size ai.

Definition read_input (input : bytes) (bytes_uncompressed to_read : Z) : bytes :=
  firstn (Z.to_nat to_read) (skipn (Z.to_nat bytes_uncompressed) input).

Fixpoint compress_entry_loop (ai : ARCHIVEINFO) (blocks : nat) (input : bytes)
    (input_fp : bool) (uncompressed bytes_compressed bytes_uncompressed : Z)
    (out : FILE) (table : list Z) (idx : Z) : option (Z * FILE * list Z * Z) :=
  match blocks with
  | O => Some (bytes_compressed, out, table, idx)
  | S blocks' =>
    let last := match blocks' with O => true | S _ => false end in
    let to_read := next_to_read ai last uncompressed bytes_uncompressed in
    let read_buffer := read_input input bytes_uncompressed to_read in
    let bytes_read := len read_buffer in
    if scratch_holds ai input_fp read_buffer then
      let written := compress_block ai read_buffer in
      let bytes_write := len written in
      table' <- store table idx (u32 bytes_write) ;;
      compress_entry_loop ai blocks' input input_fp uncompressed
        (bytes_compressed + bytes_write) (bytes_uncompressed + bytes_read)
        (fwrite written out) table' (u32 (idx + 1))
    else None
  end.

(** [compress_entry]: [input] is the manifest buffer ([input_mem], with
    [input_fp] NULL) or the content of the input file ([input_fp] not
    NULL), [i] the index of the entry in [files_info_table]. *)
Definition compress_entry (ai : ARCHIVEINFO) (input : bytes) (input_fp : bool)
    (i : Z) (st : PAK) : option PAK :=
  fi <- load (files_info_table st) i ;;
  let fi := set_block_index (set_offset fi (total_size st)) (blocktable_idx st) in
  r <- compress_entry_loop ai (Z.to_nat (num_blocks fi)) input input_fp
         (uncompressed_size fi) 0 0
         (archive_file st) (blocktable st) (blocktable_idx st) ;;
  let '(bytes_compressed, out, table, idx) := r in
  tbl <- store (files_info_table st) i (set_compressed_size fi bytes_compressed) ;;
  Some (mkPAK out (u64 (total_size st + bytes_compressed)) table idx tbl).

(** [compress_entry_thread]: the encoder runs in the slot of the worker,
    and the commit phase is entered once
    [threads_wait_for_orderer_continue] returns. *)
Definition compress_entry_thread (ai : ARCHIVEINFO) (pkd : PAKDATA) (st : PAK)
    : option PAK :=
  if slot_holds_output ai (buffer0 pkd) then
    let written := compress_block_thread ai (buffer0 pkd) in
    let bytes_write := len written in
    let out := fwrite written (archive_file st) in
    tbl <- update (files_info_table st) (pkd_fi pkd)
             (fun fi =>
                if is_first_block pkd then
                  set_compressed_size
                    (set_offset (set_block_index fi (pkd_blocktable_idx pkd))
                                (total_size st))
                    bytes_write
                else set_compressed_size fi (u64 (compressed_size fi + bytes_write))) ;;
    table <- store (blocktable st) (pkd_blocktable_idx pkd) (u32 bytes_write) ;;
    Some (mkPAK out (u64 (total_size st + bytes_write)) table
                (blocktable_idx st) tbl)
  else None.

(** The dispatcher loop of [compress_entry_multi]: the tasks it submits, in
    submission order, and the block-table index afterwards. *)
Fixpoint compress_entry_multi_loop (ai : ARCHIVEINFO) (blocks : nat)
    (input : bytes) (i : Z) (uncompressed bytes_uncompressed : Z)
    (first_block : bool) (idx : Z) : option (list PAKDATA * Z) :=
  match blocks with
  | O => Some ([], idx)
  | S blocks' =>
    let last := match blocks' with O => true | S _ => false end in
    let to_read := next_to_read ai last uncompressed bytes_uncompressed in
    let buffer := read_input input bytes_uncompressed to_read in
    if slot_holds_input ai buffer then
      let pkd := mkPAKDATA first_block last (len buffer) i idx buffer in
      r <- compress_entry_multi_loop ai blocks' input i uncompressed
             (bytes_uncompressed + len buffer) false (u32 (idx + 1)) ;;
      let '(rest, idx') := r in
      Some (pkd :: rest, idx')
    else None
  end.

(** [compress_entry_multi]: the work of the dispatcher for one entry. The
    state returned holds what the dispatcher itself wrote; the tasks are
    committed by the pool. *)
Definition compress_entry_multi (ai : ARCHIVEINFO) (input : bytes) (i : Z)
    (st : PAK) : option (list PAKDATA * PAK) :=
  fi <- load (files_info_table st) i ;;
  if uncompressed_size fi =? 0 then
    tbl <- store (files_info_table st) i (set_compressed_size fi 0) ;;
    Some ([], mkPAK (archive_file st) (total_size st) (blocktable st)
                    (blocktable_idx st) tbl)
  else if block_size ai =? 0 then None
  else
    let blocks := u32 (u64 (uncompressed_size fi + block_size ai - 1)
                       / block_size ai) in
    r <- compress_entry_multi_loop ai (Z.to_nat blocks) input i
           (uncompressed_size fi) 0 true (blocktable_idx st) ;;
    let '(tasks, idx) := r in
    Some (tasks, mkPAK (archive_file st) (total_size st) (blocktable st)
                       idx (files_info_table st)).

(** The pool commits the submitted tasks in ticket order. *)
Fixpoint commit_tasks (ai : ARCHIVEINFO) (tasks : list PAKDATA) (st : PAK)
    : option PAK :=
  match tasks with
  | [] => Some st
  | pkd :: rest => st' <- compress_entry_thread ai pkd st ;; commit_tasks ai rest st'
  end.

(** [get_blocktable_size], on files that exist: sizes and block counts of
    the entries [first ..], and the sum of the block counts. *)
Fixpoint get_blocktable_size (ai : ARCHIVEINFO) (files : list (cstring * bytes))
    (first : Z) (tbl : list FILEINFO) (block_off : Z)
    : option (Z * list FILEINFO) :=
  match files with
  | [] => Some (block_off, tbl)
  | (_, content) :: rest =>
    if block_size ai =? 0 then None
    else
      let size := u64 (len content) in
      let blocks := u32 (u64 (size + block_size ai - 1) / block_size ai) in
      tbl' <- update tbl first
                (fun fi => set_num_blocks (set_uncompressed_size fi size) blocks) ;;
      get_blocktable_size ai rest (first + 1) tbl' (u32 (block_off + blocks))
  end.

Definition PSAR_magic : bytes := [80; 83; 65; 82].
Definition tag_lzma : bytes := [108; 122; 109; 97].
Definition tag_zlib : bytes := [122; 108; 105; 98].

(** The 32 bytes of [PSARCHEADER] as [write_header] fills them. Each
    [strcpy] also stores a NUL into the first byte of the next field, which
    the assignment that follows overwrites. *)
Definition header_bytes (ai : ARCHIVEINFO) : bytes :=
  PSAR_magic ++ htonl 0x00010004
    ++ (if compression_type ai =? PSARC_LZMA then tag_lzma else tag_zlib)
    ++ htonl (toc_length ai) ++ htonl 0x1E ++ htonl (toc_entries ai)
    ++ htonl (block_size ai) ++ htonl (archive_flags ai).

Definition write_header (ai : ARCHIVEINFO) (output_file : FILE) : FILE :=
  fwrite (header_bytes ai) (fseek output_file 0).

Definition toc_bytes (ai : ARCHIVEINFO) (i : Z) (fi : FILEINFO) : option bytes :=
  digest <- (if i =? 0 then Some (repeat 0 16)
             else name <- filename fi ;; Some (md5 name)) ;;
  Some (digest ++ htonl (block_index fi) ++ hton40 (uncompressed_size fi)
               ++ hton40 (u64 (offset fi + toc_length ai))).

Fixpoint write_toc_loop (ai : ARCHIVEINFO) (n : nat) (i : Z)
    (tbl : list FILEINFO) (output_file : FILE) : option FILE :=
  match n with
  | O => Some output_file
  | S n' =>
    fi <- load tbl i ;;
    toc <- toc_bytes ai i fi ;;
    write_toc_loop ai n' (i + 1) tbl (fwrite toc output_file)
  end.

Definition write_toc_table (ai : ARCHIVEINFO) (output_file : FILE)
    (tbl : list FILEINFO) : option FILE :=
  write_toc_loop ai (Z.to_nat (toc_entries ai)) 0 tbl
                 (fseek output_file sizeof_PSARCHEADER).

(** One item of [write_blocktable]: the [switch] on the item size. *)
Definition blocktable_item (item_size : Z) (v : Z) : bytes :=
  if item_size =? 1 then [Z.land v 0xff]
  else if item_size =? 2 then htons (Z.land v 0xffff)
  else if item_size =? 3 then hton24 (Z.land v 0x0fffff)
  else if item_size =? 4 then htonl v
  else [].

Fixpoint write_blocktable_loop (item_size : Z) (n : nat) (i : Z)
    (table : list Z) (output_file : FILE) : option FILE :=
  match n with
  | O => Some output_file
  | S n' =>
    v <- load table i ;;
    write_blocktable_loop item_size n' (i + 1) table
                          (fwrite (blocktable_item item_size v) output_file)
  end.

Definition write_blocktable (ai : ARCHIVEINFO) (output_file : FILE)
    (table : list Z) (blocktable_size : Z) : option FILE :=
  write_blocktable_loop (get_blocktable_item_size ai)
                        (Z.to_nat blocktable_size) 0 table output_file.

(** The first loop of [create_archive]: the length reserved for one name. *)
Definition manifest_name_len (ai : ARCHIVEINFO) (path : cstring) : Z :=
  let p := if trim_path_flag cfg
           then match strrchr 47 path with Some px => tl px | None => path end
           else path in
  if abspath ai then (if hd 0 p =? 47 then len p else len p + 1)
  else len (skip_slashes p).

(** The second loop of [create_archive]: the text appended for one name. *)
Definition manifest_name (ai : ARCHIVEINFO) (path : cstring) : cstring :=
  let fname := if trim_path_flag cfg
               then match strrchr 47 path with Some px => px | None => path end
               else path in
  if abspath ai then (if hd 0 fname =? 47 then fname else 47 :: fname)
  else skip_slashes fname.

Fixpoint filenames_length (ai : ARCHIVEINFO) (paths : list cstring) : Z :=
  match paths with
  | [] => 0
  | p :: rest =>
    manifest_name_len ai p + (match rest with [] => 0 | _ => 1 end)
      + filenames_length ai rest
  end.

Fixpoint build_filenames (ai : ARCHIVEINFO) (paths : list cstring) : bytes :=
  match paths with
  | [] => []
  | p :: rest =>
    manifest_name ai p ++ (match rest with [] => [] | _ => [10] end)
      ++ build_filenames ai rest
  end.

(** The entry loop of [create_archive] when [num_threads == 0]. *)
Fixpoint create_entries_sync (ai : ARCHIVEINFO) (files : list (cstring * bytes))
    (i : Z) (st : PAK) : option PAK :=
  match files with
  | [] => Some st
  | (path, content) :: rest =>
    tbl <- update (files_info_table st) i (fun fi => set_filename fi (Some path)) ;;
    st' <- compress_entry ai content true i
             (mkPAK (archive_file st) (total_size st) (blocktable st)
                    (blocktable_idx st) tbl) ;;
    create_entries_sync ai rest (i + 1) st'
  end.

(** The entry loop of [create_archive] when [num_threads > 0]: what the
    dispatcher does, and the tasks it hands to the pool. *)
Fixpoint dispatch_entries (ai : ARCHIVEINFO) (files : list (cstring * bytes))
    (i : Z) (st : PAK) : option (list PAKDATA * PAK) :=
  match files with
  | [] => Some ([], st)
  | (path, content) :: rest =>
    tbl <- update (files_info_table st) i (fun fi => set_filename fi (Some path)) ;;
    r <- compress_entry_multi ai content i
           (mkPAK (archive_file st) (total_size st) (blocktable st)
                  (blocktable_idx st) tbl) ;;
    let '(tasks, st1) := r in
    r' <- dispatch_entries ai rest (i + 1) st1 ;;
    let '(tasks', st2) := r' in
    Some (tasks ++ tasks', st2)
  end.

Definition create_entries_multi (ai : ARCHIVEINFO) (files : list (cstring * bytes))
    (i : Z) (st : PAK) : option PAK :=
  r <- dispatch_entries ai files i st ;;
  let '(tasks, st') := r in
  commit_tasks ai tasks st'.

(** [create_archive]. [files] are the regular files found by the
    enumerator, each with its content ([stat] and [fopen] succeed and the
    size does not change while the archive is written); allocation
    failures are left out, so that the two buffers and the slots of the
    workers exist with the sizes [scratch_size] and [user_data_size]. The
    result is the return code, [_ArchiveInfo] afterwards and the archive
    left on disk. *)
Definition create_archive (mem0 : UNINIT) (ai : ARCHIVEINFO)
    (output_exists : bool) (files : list (cstring * bytes))
    : option (Z * ARCHIVEINFO * option FILE) :=
  if negb (overwrite_flag cfg) && output_exists then Some (1, ai, None)
  else if block_size ai =? 0 then None
  else
    let ai := set_toc ai (u32 (len files)) (toc_length ai) in
    let tbl := repeat (junk_fileinfo mem0) (Z.to_nat (u32 (toc_entries ai + 1))) in
    let filenames_len := filenames_length ai (map fst files) in
    let filenames := build_filenames ai (map fst files) in
    let blocktable_size :=
      u32 (u64 (filenames_len + block_size ai - 1) / block_size ai) in
    tbl <- update tbl 0
             (fun fi => set_num_blocks (set_uncompressed_size fi filenames_len)
                                       blocktable_size) ;;
    r <- get_blocktable_size ai files 1 tbl 0 ;;
    let '(bsize, tbl) := r in
    if bsize =? 0 then Some (1, ai, None)
    else
      let blocktable_size := u32 (blocktable_size + bsize) in
      let table := repeat (junk_u32 mem0) (Z.to_nat blocktable_size) in
      let entries := u32 (toc_entries ai + 1) in
      let ai := set_toc ai entries
                  (u64 (sizeof_PSARCHEADER + entries * sizeof_PSARCTOC
                        + u32 (blocktable_size * get_blocktable_item_size ai))) in
      let out := fseek (write_header ai fopen_wb) (toc_length ai) in
      st <- compress_entry ai filenames false 0 (mkPAK out 0 table 0 tbl) ;;
      st <- (if num_threads cfg >? 0
             then create_entries_multi ai files 1 st
             else create_entries_sync ai files 1 st) ;;
      out <- write_toc_table ai (archive_file st) (files_info_table st) ;;
      out <- write_blocktable ai out (blocktable st) blocktable_size ;;
      Some (0, ai, Some out).
End Pak.

(** ** unpak.c: reading and extraction *)

Definition sub (l : bytes) (off n : nat) : bytes := firstn n (skipn off l).

(** [blit buf off data] is [memcpy(buf + off, data, length data)]; writing
    past the end of [buf] is undefined. *)
Definition blit (buf : bytes) (off : Z) (data : bytes) : option bytes :=
  if (off <? 0) || (len buf <? off + len data) then None
  else Some (firstn (Z.to_nat off) buf ++ data
               ++ skipn (Z.to_nat off + length data) buf).

Definition xz_magic : bytes := [0xFD; 0x37; 0x7A; 0x58; 0x5A; 0x00].

(** The two signature tests of [decompress_entry], on the [bytes_read] bytes
    of the block in [source_buffer]. *)
Definition is_zlib_block (source_buffer : bytes) (bytes_read : Z) : bool :=
  (bytes_read >? 2) && (nth 0 source_buffer 0 =? 0x78)
  && ((nth 1 source_buffer 0 =? 0x01) || (nth 1 source_buffer 0 =? 0x5E)
      || (nth 1 source_buffer 0 =? 0x9C) || (nth 1 source_buffer 0 =? 0xDA)).

Definition is_lzma_block (source_buffer : bytes) (bytes_read : Z) : bool :=
  (bytes_read >? 6) && bytes_eqb (firstn 6 source_buffer) xz_magic.

Inductive BLOCKCODEC := BlockZlib | BlockLzma | BlockVerbatim.

(** Which branch of the [if] chain of [decompress_entry] a block takes. *)
Definition block_codec (source_buffer : bytes) : BLOCKCODEC :=
  if is_zlib_block source_buffer (len source_buffer) then BlockZlib
  else if is_lzma_block source_buffer (len source_buffer) then BlockLzma
  else BlockVerbatim.

(** Where [decompress_entry] puts the data: [output_file], or
    [output_buffer] when [output_file] is NULL. *)
Inductive SINK :=
| ToFile (output_file : FILE)
| ToBuffer (output_buffer : bytes).

(** The reader's variables: the archive, the sink, and [target_buffer]
    ([source_buffer] only matters through its size). *)
Record UNPAK := mkUNPAK {
  u_archive : FILE;
  u_sink : SINK;
  u_target : bytes
}.

Inductive NODE :=
| RegularFile (content : bytes)
| Directory.

(** The file system seen by extraction: the first binding of a path is the
    current one. Directories made by [mkpath] are not recorded; whether a
    path can be opened for writing is [fopen_wb_ok]. *)
Definition FS := list (cstring * NODE).

Fixpoint fs_lookup (fs : FS) (path : cstring) : option NODE :=
  match fs with
  | [] => None
  | (p, n) :: rest => if bytes_eqb p path then Some n else fs_lookup rest path
  end.

Definition access (fs : FS) (path : cstring) : bool :=
  match fs_lookup fs path with Some _ => true | None => false end.

Definition fs_write (fs : FS) (path : cstring) (content : bytes) : FS :=
  (path, RegularFile content) :: fs.

(** hashset.c: a finite set of strings. *)
Definition HASHSET := list cstring.

Fixpoint hashset_contains (set : HASHSET) (value : cstring) : bool :=
  match set with
  | [] => false
  | v :: rest => bytes_eqb v value || hashset_contains rest value
  end.

Definition hashset_add (set : HASHSET) (value : cstring) : HASHSET :=
  if hashset_contains set value then set else value :: set.

Fixpoint hashset_del (set : HASHSET) (value : cstring) : HASHSET :=
  match set with
  | [] => []
  | v :: rest => if bytes_eqb v value then rest else v :: hashset_del rest value
  end.

(** The C string held by a buffer: its bytes up to the first NUL. *)
Fixpoint c_str (buf : bytes) : cstring :=
  match buf with
  | [] => []
  | c :: t => if c =? 0 then [] else c :: c_str t
  end.

(** All the tokens [strtok] returns for the one-character delimiter
    [delim]; [cur] is the token being read. *)
Fixpoint strtok_from (delim : Z) (s : cstring) (cur : cstring) : list cstring :=
  match s with
  | [] => match cur with [] => [] | _ => [cur] end
  | c :: t =>
    if c =? delim
    then match cur with
         | [] => strtok_from delim t []
         | _ => cur :: strtok_from delim t []
         end
    else strtok_from delim t (cur ++ [c])
  end.

Definition strtok (s : cstring) (delim : Z) : list cstring := strtok_from delim s [].

Fixpoint le_combine (l : bytes) : Z :=
  match l with
  | [] => 0
  | b :: t => b + 256 * le_combine t
  end.

(** The static counters of unpak.c, the file system and the report. *)
Record EXTRACTION := mkEXTRACTION {
  x_unpak_archive : FILE;
  x_target : bytes;
  x_fs : FS;
  x_hset : option HASHSET;
  x_files_count : Z;
  x_total_bytes : Z;
  x_errors : Z;
  x_successful : Z;
  x_report : list (cstring * string)
}.

Section Unpak.
Context {E : External}.
Variable cfg : CONFIG.

(** The [if] chain of [decompress_entry] for the block in
    [source_buffer]: [None] is undefined behaviour, [Some None] is
    [return 1], [Some (Some st')] the state once the block is written. *)
Definition decompress_block (source_buffer : bytes)
    (bytes_read chunk_size at_off : Z) (archive : FILE) (st : UNPAK)
    : option (option UNPAK) :=
  if is_zlib_block source_buffer bytes_read then
    match uncompress source_buffer chunk_size with
    | None => Some None
    | Some out =>
      match u_sink st with
      | ToBuffer output_buffer =>
        buf <- blit output_buffer at_off out ;;
        Some (Some (mkUNPAK archive (ToBuffer buf) (u_target st)))
      | ToFile output_file =>
        target <- blit (u_target st) 0 out ;;
        Some (Some (mkUNPAK archive (ToFile (fwrite out output_file)) target))
      end
    end
  else if is_lzma_block source_buffer bytes_read then
    match lzma_decode source_buffer chunk_size with
    | None => Some None
    | Some out =>
      match u_sink st with
      | ToBuffer output_buffer =>
        buf <- blit output_buffer at_off out ;;
        Some (Some (mkUNPAK archive (ToBuffer buf) (u_target st)))
      | ToFile output_file =>
        target <- blit (u_target st) 0 out ;;
        if chunk_size >? len target then None
        else Some (Some (mkUNPAK archive
                           (ToFile (fwrite (firstn (Z.to_nat chunk_size) target)
                                           output_file))
                           target))
      end
    end
  else
    match u_sink st with
    | ToBuffer output_buffer =>
      buf <- blit output_buffer at_off source_buffer ;;
      Some (Some (mkUNPAK archive (ToBuffer buf) (u_target st)))
    | ToFile output_file =>
      Some (Some (mkUNPAK archive (ToFile (fwrite source_buffer output_file))
                          (u_target st)))
    end.

(** The [while] loop of [decompress_entry], [fuel] rounds at most.
    [buffer_size] is the size of [source_buffer] and of [target_buffer]. *)
Fixpoint decompress_entry_loop (fuel : nat) (buffer_size : Z)
    (blocktable : list Z) (uncompressed remaining_size chunk_size open_block : Z)
    (st : UNPAK) : option (Z * UNPAK) :=
  if remaining_size <=? 0 then Some (0, st)
  else
    match fuel with
    | O => None
    | S fuel' =>
      slot <- load blocktable open_block ;;
      let blk := if slot =? 0 then u32 chunk_size else slot in
      let '(n, source_buffer, archive) := fread blk (u_archive st) in
      if len source_buffer >? buffer_size then None
      else
        let bytes_read := n * blk in
        if negb (bytes_read =? blk)
        then Some (1, mkUNPAK archive (u_sink st) (u_target st))
        else
          let chunk_size := if remaining_size <? chunk_size
                            then remaining_size else chunk_size in
          match decompress_block source_buffer bytes_read chunk_size
                                 (uncompressed - remaining_size) archive st with
          | None => None
          | Some None => Some (1, mkUNPAK archive (u_sink st) (u_target st))
          | Some (Some st') =>
            decompress_entry_loop fuel' buffer_size blocktable uncompressed
              (remaining_size - chunk_size) chunk_size (u32 (open_block + 1)) st'
          end
    end.

(** [decompress_entry]. With [block_size > 0] the loop makes at most
    [uncompressed_size / block_size + 1] rounds; with [block_size = 0] it
    never ends. *)
Definition decompress_entry (ai : ARCHIVEINFO) (buffer_size : Z)
    (fi : FILEINFO) (blocktable : list Z) (st : UNPAK) : option (Z * UNPAK) :=
  decompress_entry_loop
    (S (Z.to_nat (uncompressed_size fi / block_size ai))) buffer_size blocktable
    (uncompressed_size fi) (uncompressed_size fi) (block_size ai)
    (block_index fi)
    (mkUNPAK (fseek (u_archive st) (offset fi)) (u_sink st) (u_target st)).

(** [read_header]: the return code, [_ArchiveInfo] and the file. The
    [strncmp] against "lzma" is zero exactly when the four tag bytes are
    those of "lzma". *)
Definition read_header (ai : ARCHIVEINFO) (archive_file : FILE)
    : Z * ARCHIVEINFO * FILE :=
  let '(n, header, f) := fread sizeof_PSARCHEADER (fseek archive_file 0) in
  if negb (n =? 1) then (1, ai, f)
  else
    (0,
     mkARCHIVEINFO (ntohs (sub header 4 2)) (ntohs (sub header 6 2))
       (if bytes_eqb (sub header 8 4) tag_lzma then PSARC_LZMA else PSARC_ZLIB)
       (ntohl (sub header 12 4)) (ntohl (sub header 20 4))
       (ntohl (sub header 24 4)) (ntohl (sub header 28 4)),
     f).

(** One [PSARCTOC] record as [read_toc_table] decodes it; the table comes
    from [calloc]. *)
Definition toc_fileinfo (toc : bytes) : FILEINFO :=
  mkFILEINFO (sub toc 0 16) None (ntoh40 (sub toc 25 5)) (ntohl (sub toc 16 4))
             0 0 (ntoh40 (sub toc 20 5)).

(** The loop of [read_toc_table]; the result of [fread] is not checked, a
    short read leaves the rest of [toc] as it was ([prev]). *)
Fixpoint read_toc_loop (n : nat) (prev : bytes) (f : FILE)
    : list FILEINFO * FILE :=
  match n with
  | O => ([], f)
  | S n' =>
    let '(_, got, f') := fread sizeof_PSARCTOC f in
    let toc := got ++ skipn (length got) prev in
    let '(rest, f'') := read_toc_loop n' toc f' in
    (toc_fileinfo toc :: rest, f'')
  end.

Definition read_toc_table (mem0 : UNINIT) (ai : ARCHIVEINFO) (archive_file : FILE)
    : list FILEINFO * FILE :=
  read_toc_loop (Z.to_nat (toc_entries ai))
                (repeat (junk_u8 mem0) (Z.to_nat sizeof_PSARCTOC))
                (fseek archive_file sizeof_PSARCHEADER).

(** The loop of [read_blocktable]. [blk] is the 32-bit local the item is
    read into: [fread] replaces its [bsize] low bytes, and the one-byte
    case stores the whole of it. [None] is the NULL result. *)
Fixpoint read_blocktable_loop (bsize : Z) (n : nat) (blk : Z) (f : FILE)
    : option (list Z) * FILE :=
  match n with
  | O => (Some [], f)
  | S n' =>
    let '(k, got, f') := fread bsize f in
    if k =? 0 then (None, f')
    else
      let blk' := u32 (le_combine got + 2 ^ (8 * bsize) * (blk / 2 ^ (8 * bsize))) in
      let v := if bsize =? 1 then blk'
               else if bsize =? 2 then ntohs got
               else if bsize =? 3 then ntoh24 got
               else ntohl got in
      let '(rest, f'') := read_blocktable_loop bsize n' blk' f' in
      (match rest with Some l => Some (v :: l) | None => None end, f'')
  end.

(** [read_blocktable]. The loop stops with NULL at the first short read,
    that is when the file holds fewer than [blocktable_size] items. *)
Definition read_blocktable (mem0 : UNINIT) (ai : ARCHIVEINFO) (archive_file : FILE)
    : option (list Z) * FILE :=
  let bsize := get_blocktable_item_size ai in
  let blocktable_size :=
    u64 (toc_length ai - (sizeof_PSARCHEADER + toc_entries ai * sizeof_PSARCTOC))
    / bsize in
  let avail := len (skipn (Z.to_nat (f_pos archive_file)) (f_data archive_file)) in
  if blocktable_size * bsize >? avail
  then (None, fseek archive_file (f_pos archive_file + avail))
  else read_blocktable_loop bsize (Z.to_nat blocktable_size) (junk_u32 mem0)
                            archive_file.

Fixpoint assign_filenames (tbl : list FILEINFO) (tokens : list cstring)
    : list FILEINFO :=
  match tbl, tokens with
  | fi :: tbl', t :: tokens' =>
    set_filename fi (Some t) :: assign_filenames tbl' tokens'
  | _, _ => tbl
  end.

(** [read_filenames]: the return code, the table with the names filled in,
    and the reader's state. *)
Definition read_filenames (mem0 : UNINIT) (ai : ARCHIVEINFO) (buffer_size : Z)
    (tbl : list FILEINFO) (blocktable : list Z) (archive_file : FILE)
    (target : bytes) : option (Z * list FILEINFO * FILE * bytes) :=
  match tbl with
  | [] => None
  | fi0 :: rest =>
    let names := repeat (junk_u8 mem0) (Z.to_nat (uncompressed_size fi0 + 1)) in
    r <- decompress_entry ai buffer_size fi0 blocktable
           (mkUNPAK archive_file (ToBuffer names) target) ;;
    let '(ret, st) := r in
    if negb (ret =? 0) then Some (1, tbl, u_archive st, u_target st)
    else
      match u_sink st with
      | ToFile _ => None
      | ToBuffer names =>
        names' <- store names (uncompressed_size fi0) 0 ;;
        Some (0, fi0 :: assign_filenames rest (strtok (c_str names') 10),
              u_archive st, u_target st)
      end
  end.

(** The path [decompress_files] opens for an entry called [name]. *)
Definition extract_path (name : cstring) : cstring :=
  let outdir := dirname name in
  let outfile := basename name in
  let outdir := if (hd 0 outdir =? 47) || bytes_eqb outdir [46]
                then tl outdir else outdir in
  let filepath := outdir ++ (match outdir with [] => [] | _ => [47] end) ++ outfile in
  if trim_path_flag cfg
  then match strrchr 47 filepath with Some px => tl px | None => filepath end
  else filepath.

Definition report_item (x : EXTRACTION) (name : cstring) (msg : string)
    : list (cstring * string) :=
  x_report x ++ [(name, msg)].

(** Whether the pattern set lets the entry [name] through ([hset] is NULL
    when no pattern was given). *)
Definition entry_selected (ai : ARCHIVEINFO) (hset : option HASHSET)
    (name : cstring) : bool :=
  match hset with
  | None => true
  | Some hset =>
    if icase ai then hashset_contains hset (lcase name)
    else hashset_contains hset name
  end.

(** Whether [fopen(path, "wb")] succeeds. *)
Definition can_open (fs : FS) (path : cstring) : bool :=
  match fs_lookup fs path with
  | Some Directory => false
  | _ => fopen_wb_ok path
  end.

(** The body of the [for] loop of [decompress_files] for one entry. An
    entry without a name (a NULL [filename]) is passed over when patterns
    were given and the case is kept, [hashset_contains] being 0 on NULL;
    otherwise [lcase] or [strdup] reads through the NULL pointer. *)
Definition extract_entry (ai : ARCHIVEINFO) (buffer_size : Z)
    (blocktable : list Z) (fi : FILEINFO) (x : EXTRACTION) : option EXTRACTION :=
  match filename fi with
  | None =>
    match x_hset x with
    | Some _ => if icase ai then None else Some x
    | None => None
    end
  | Some name =>
    if negb (entry_selected ai (x_hset x) name) then Some x
    else
      let hset := match x_hset x with
                  | None => None
                  | Some hset => Some (hashset_del hset name)
                  end in
      let filepath_for_open := extract_path name in
      let fileexists := access (x_fs x) filepath_for_open in
      let files_count := u64 (x_files_count x - 1) in
      if fileexists && negb (overwrite_flag cfg) then
        if skip_existing_files_flag cfg then
          Some (mkEXTRACTION (x_unpak_archive x) (x_target x) (x_fs x) hset files_count
                  (u64 (x_total_bytes x + uncompressed_size fi)) (x_errors x)
                  (u64 (x_successful x + 1))
                  (report_item x name "skipped (file exists)"))
        else
          Some (mkEXTRACTION (x_unpak_archive x) (x_target x) (x_fs x) hset files_count
                  (x_total_bytes x) (u64 (x_errors x + 1)) (x_successful x)
                  (report_item x name "fail (file already exists)"))
      else
        if can_open (x_fs x) filepath_for_open then
          r <- decompress_entry ai buffer_size fi blocktable
                 (mkUNPAK (x_unpak_archive x) (ToFile fopen_wb) (x_target x)) ;;
          let '(ret, st) := r in
          match u_sink st with
          | ToBuffer _ => None
          | ToFile output_file =>
            let fs := fs_write (x_fs x) filepath_for_open (f_data output_file) in
            if negb (ret =? 0) then
              Some (mkEXTRACTION (u_archive st) (u_target st) fs hset files_count
                      (x_total_bytes x) (u64 (x_errors x + 1)) (x_successful x)
                      (report_item x name "fail"))
            else
              Some (mkEXTRACTION (u_archive st) (u_target st) fs hset files_count
                      (u64 (x_total_bytes x + uncompressed_size fi)) (x_errors x)
                      (u64 (x_successful x + 1))
                      (report_item x name "ok"))
          end
        else
          Some (mkEXTRACTION (x_unpak_archive x) (x_target x) (x_fs x) hset files_count
                  (x_total_bytes x) (u64 (x_errors x + 1)) (x_successful x)
                  (report_item x name "fail"))
  end.

Fixpoint extract_entries (ai : ARCHIVEINFO) (buffer_size : Z)
    (blocktable : list Z) (entries : list FILEINFO) (x : EXTRACTION)
    : option EXTRACTION :=
  match entries with
  | [] => Some x
  | fi :: rest =>
    x' <- extract_entry ai buffer_size blocktable fi x ;;
    extract_entries ai buffer_size blocktable rest x'
  end.

Fixpoint hashset_of_patterns (ai : ARCHIVEINFO) (files : list cstring)
    (hset : HASHSET) : HASHSET :=
  match files with
  | [] => hset
  | f :: rest =>
    hashset_of_patterns ai rest
      (hashset_add hset (if icase ai then lcase f else f))
  end.

(** [decompress_files]: the entries 1 .. [toc_entries - 1] of the table, in
    order; the result is 2 when the error counter is not zero. *)
Definition decompress_files (ai : ARCHIVEINFO) (buffer_size : Z)
    (tbl : list FILEINFO) (blocktable : list Z) (files : list cstring)
    (x : EXTRACTION) : option (Z * EXTRACTION) :=
  let hset := match files with
              | [] => None
              | _ => Some (hashset_of_patterns ai files [])
              end in
  let files_count := match files with
                     | [] => u64 (toc_entries ai - 1)
                     | _ => len files
                     end in
  let x0 := mkEXTRACTION (x_unpak_archive x) (x_target x) (x_fs x) hset files_count
              (x_total_bytes x) (x_errors x) (x_successful x) (x_report x) in
  x' <- extract_entries ai buffer_size blocktable
          (firstn (Z.to_nat (toc_entries ai) - 1) (tl tbl)) x0 ;;
  Some (if x_errors x' >? 0 then 2 else 0, x').

Fixpoint list_archive_files (ai : ARCHIVEINFO) (entries : list FILEINFO)
    (blocktable : list Z) : option (list FILEINFO) :=
  match entries with
  | [] => Some []
  | fi :: rest =>
    c <- get_compressed_size ai fi blocktable ;;
    rest' <- list_archive_files ai rest blocktable ;;
    Some (set_compressed_size fi c :: rest')
  end.

(** [process_archive]; [ai0] is [_ArchiveInfo] on entry, whose block size
    fixes the size of the two scratch buffers. The result is the return
    code, [_ArchiveInfo], the table and the extraction state. Mode 4
    ([show_info]) only reports: what is kept of it are its calls of
    [get_compressed_size]. *)
Definition process_archive (mem0 : UNINIT) (ai0 : ARCHIVEINFO)
    (input_file : option bytes) (mode : Z) (files : list cstring) (fs : FS)
    : option (Z * ARCHIVEINFO * list FILEINFO * EXTRACTION) :=
  let buffer_size := u32 (block_size ai0 * 2) in
  let target := repeat (junk_u8 mem0) (Z.to_nat buffer_size) in
  let x0 f := mkEXTRACTION f target fs None 0 0 0 0 [] in
  match input_file with
  | None => Some (1, ai0, [], x0 fopen_wb)
  | Some content =>
    let '(ret, ai, f) := read_header ai0 (fopen_rb content) in
    if negb (ret =? 0) then Some (1, ai, [], x0 f)
    else
      let '(tbl, f) := read_toc_table mem0 ai f in
      match read_blocktable mem0 ai f with
      | (None, f) => Some (1, ai, tbl, x0 f)
      | (Some blocktable, f) =>
        r <- read_filenames mem0 ai buffer_size tbl blocktable f target ;;
        let '(ret, tbl, f, target) := r in
        if negb (ret =? 0) then Some (1, ai, tbl, x0 f)
        else
          let x := mkEXTRACTION f target fs None 0 0 0 0 [] in
          if mode =? 2 then
            r <- decompress_files ai buffer_size tbl blocktable files x ;;
            let '(ret, x') := r in
            Some (ret, ai, tbl, x')
          else if mode =? 3 then
            rest <- list_archive_files ai
                      (firstn (Z.to_nat (toc_entries ai) - 1) (tl tbl)) blocktable ;;
            Some (0, ai, hd (junk_fileinfo mem0) tbl :: rest, x)
          else if mode =? 4 then
            _ <- list_archive_files ai (firstn (Z.to_nat (toc_entries ai)) tbl)
                   blocktable ;;
            Some (0, ai, tbl, x)
          else Some (1, ai, tbl, x)
      end
  end.
End Unpak.

(** ** A stand-in for the external libraries

    The worked examples need runnable codecs. [model_external] wraps a
    one-run run-length code in the zlib and xz signatures; its [dirname] and
    [basename] cut a path at its last slash. *)

Definition run_of (src : bytes) : option (Z * Z) :=
  match src with
  | [] => None
  | b :: t => if forallb (Z.eqb b) t then Some (b, len src) else None
  end.

Definition model_body (src : bytes) : bytes :=
  match run_of src with
  | Some (b, n) => 1 :: b :: htonl n
  | None => 0 :: src
  end.

Definition model_unbody (body : bytes) (cap : Z) : option bytes :=
  match body with
  | 1 :: b :: n =>
    if (length n =? 4)%nat && (ntohl n <=? cap)
    then Some (repeat b (Z.to_nat (ntohl n))) else None
  | 0 :: lit => if len lit <=? cap then Some lit else None
  | _ => None
  end.

Definition model_compress2 (src : bytes) (cap level : Z) : bytes :=
  firstn (Z.to_nat cap) ([0x78; 0x9C] ++ model_body src).

Definition model_uncompress (src : bytes) (cap : Z) : option bytes :=
  match src with
  | 0x78 :: 0x9C :: body => model_unbody body cap
  | _ => None
  end.

Definition model_lzma_encode (preset : Z) (src : bytes) (cap : Z) : option bytes :=
  let out := xz_magic ++ model_body src in
  if len out <=? cap then Some out else None.

Definition model_lzma_decode (src : bytes) (cap : Z) : option bytes :=
  if bytes_eqb (firstn 6 src) xz_magic then model_unbody (skipn 6 src) cap
  else None.

Definition model_md5 (name : cstring) : bytes :=
  firstn 16 (map u8 name ++ repeat 0 16).

Fixpoint before_last_slash (s : cstring) : option cstring :=
  match s with
  | [] => None
  | x :: t =>
    match before_last_slash t with
    | Some r => Some (x :: r)
    | None => if x =? 47 then Some [] else None
    end
  end.

Definition model_dirname (path : cstring) : cstring :=
  match before_last_slash path with
  | None => [46]
  | Some [] => [47]
  | Some d => d
  end.

Definition model_basename (path : cstring) : cstring :=
  match strrchr 47 path with
  | Some px => tl px
  | None => path
  end.

#[local] Instance model_external : External := {|
  compressBound := fun n => n + n / 4096 + n / 16384 + n / 33554432 + 13;
  compress2 := model_compress2;
  lzma_encode := model_lzma_encode;
  uncompress := model_uncompress;
  lzma_decode := model_lzma_decode;
  md5 := model_md5;
  dirname := model_dirname;
  basename := model_basename;
  fopen_wb_ok := fun _ => true
|}.

(** Worked data: a default configuration, the default [_ArchiveInfo]
    ([common.c]), and a few small files. *)
Definition config0 : CONFIG := mkCONFIG 5 false false false false 0.
Definition archiveinfo0 : ARCHIVEINFO := mkARCHIVEINFO 1 4 PSARC_STORE 0 0 65536 0.
Definition fileinfo0 : FILEINFO := mkFILEINFO [] None 0 0 0 0 0.
Definition memory0 : UNINIT := mkUNINIT (mkFILEINFO [] None 7 9 0 0 0) 0xAAAAAAAA 0xAA.

Definition with_codec (ai : ARCHIVEINFO) (c : Z) : ARCHIVEINFO :=
  mkARCHIVEINFO (version_high ai) (version_low ai) c (toc_length ai)
                (toc_entries ai) (block_size ai) (archive_flags ai).
Definition with_block_size (ai : ARCHIVEINFO) (b : Z) : ARCHIVEINFO :=
  mkARCHIVEINFO (version_high ai) (version_low ai) (compression_type ai)
                (toc_length ai) (toc_entries ai) b (archive_flags ai).
Definition with_threads (c : CONFIG) (n : Z) : CONFIG :=
  mkCONFIG (compression_level c) (extreme_compression_flag c) (overwrite_flag c)
           (trim_path_flag c) (skip_existing_files_flag c) n.

(** "hello.txt" holding "hello\n", "zeros.bin" holding 40 zero bytes, and
    the empty file "e". *)
Definition hello_txt : cstring * bytes :=
  ([104; 101; 108; 108; 111; 46; 116; 120; 116], [104; 101; 108; 108; 111; 10]).
Definition zeros_bin : cstring * bytes :=
  ([122; 101; 114; 111; 115; 46; 98; 105; 110], repeat 0 40%nat).
Definition empty_e : cstring * bytes := ([101], []).

(** ** The statements of the specification *)

(** The big-endian image of [v] in exactly [w] bytes. *)
Fixpoint be_encode (w : nat) (v : Z) : bytes :=
  match w with
  | O => []
  | S w' => (v / 256 ^ Z.of_nat w') mod 256 :: be_encode w' v
  end.

(** The block-table item as the specification words it: the sentinel 0 for
    a block of [block_size] bytes, the emitted length otherwise. *)
Definition blocktable_item_spec (ai : ARCHIVEINFO) (emitted : Z) : bytes :=
  be_encode (Z.to_nat (get_blocktable_item_size ai))
            (if emitted =? block_size ai then 0 else emitted).

Definition ai_1024 : ARCHIVEINFO := with_block_size archiveinfo0 1024.

(** The codec of a block as the specification words it: by the leading
    bytes alone. *)
Definition block_codec_spec (payload : bytes) : BLOCKCODEC :=
  if (nth 0 payload 0 =? 0x78)
     && ((nth 1 payload 0 =? 0x01) || (nth 1 payload 0 =? 0x5E)
         || (nth 1 payload 0 =? 0x9C) || (nth 1 payload 0 =? 0xDA))
  then BlockZlib
  else if bytes_eqb (firstn 6 payload) xz_magic then BlockLzma
  else BlockVerbatim.

(** What each of the three treatments does with a block [payload] taken
    from [archive]: inflate it, decode it as an xz stream, or copy it. *)
Definition zlib_path {E : External} (payload : bytes) (chunk_size at_off : Z)
    (archive : FILE) (st : UNPAK) : option (option UNPAK) :=
  match uncompress payload chunk_size with
  | None => Some None
  | Some out =>
    match u_sink st with
    | ToBuffer output_buffer =>
      buf <- blit output_buffer at_off out ;;
      Some (Some (mkUNPAK archive (ToBuffer buf) (u_target st)))
    | ToFile output_file =>
      target <- blit (u_target st) 0 out ;;
      Some (Some (mkUNPAK archive (ToFile (fwrite out output_file)) target))
    end
  end.

Definition lzma_path {E : External} (payload : bytes) (chunk_size at_off : Z)
    (archive : FILE) (st : UNPAK) : option (option UNPAK) :=
  match lzma_decode payload chunk_size with
  | None => Some None
  | Some out =>
    match u_sink st with
    | ToBuffer output_buffer =>
      buf <- blit output_buffer at_off out ;;
      Some (Some (mkUNPAK archive (ToBuffer buf) (u_target st)))
    | ToFile output_file =>
      target <- blit (u_target st) 0 out ;;
      if chunk_size >? len target then None
      else Some (Some (mkUNPAK archive
                         (ToFile (fwrite (firstn (Z.to_nat chunk_size) target)
                                         output_file))
                         target))
    end
  end.

Definition verbatim_path (payload : bytes) (at_off : Z)
    (archive : FILE) (st : UNPAK) : option (option UNPAK) :=
  match u_sink st with
  | ToBuffer output_buffer =>
    buf <- blit output_buffer at_off payload ;;
    Some (Some (mkUNPAK archive (ToBuffer buf) (u_target st)))
  | ToFile output_file =>
    Some (Some (mkUNPAK archive (ToFile (fwrite payload output_file)) (u_target st)))
  end.

(** The two-byte block 78 9C. *)
Definition short_zlib_like : bytes := [0x78; 0x9C].

(** Worked archives (stand-in codecs): "hello.txt" stored under the default
    settings, and the same bytes with the magic replaced by "XXXX". *)
Definition archive_of (cfg : CONFIG) (ai : ARCHIVEINFO)
    (files : list (cstring * bytes)) : bytes :=
  match create_archive (E := model_external) cfg memory0 ai false files with
  | Some (_, _, Some f) => f_data f
  | _ => []
  end.

Definition hello_archive : bytes := archive_of config0 archiveinfo0 [hello_txt].

Definition bad_magic_archive : bytes := [88; 88; 88; 88] ++ skipn 4 hello_archive.

(** What [create_archive] leaves for the worked examples: [_ArchiveInfo]
    and the archive file. *)
Definition created (cfg : CONFIG) (ai : ARCHIVEINFO)
    (files : list (cstring * bytes)) : ARCHIVEINFO * FILE :=
  match create_archive (E := model_external) cfg memory0 ai false files with
  | Some (_, ai', Some f) => (ai', f)
  | _ => (ai, fopen_wb)
  end.

Definition ai_lzma : ARCHIVEINFO := with_codec archiveinfo0 PSARC_LZMA.
Definition ai_zlib : ARCHIVEINFO := with_codec archiveinfo0 PSARC_ZLIB.

(** The compressed size of an entry as the specification words it: the sum
    of its block-table slots, a slot 0 standing for [block_size]. *)
Definition resolve (ai : ARCHIVEINFO) (slot : Z) : Z :=
  if slot =? 0 then block_size ai else slot.

Definition blocks_of (bs size : Z) : Z := (size + bs - 1) / bs.

Definition block_count (ai : ARCHIVEINFO) (fi : FILEINFO) : Z :=
  blocks_of (block_size ai) (uncompressed_size fi).

Definition entry_slots (ai : ARCHIVEINFO) (fi : FILEINFO) (table : list Z) : list Z :=
  firstn (Z.to_nat (block_count ai fi)) (skipn (Z.to_nat (block_index fi)) table).

Fixpoint sum (l : list Z) : Z :=
  match l with
  | [] => 0
  | x :: t => x + sum t
  end.

Definition sum_of_resolved (ai : ARCHIVEINFO) (fi : FILEINFO) (table : list Z) : Z :=
  sum (map (resolve ai) (entry_slots ai fi table)).

(** A well-formed entry of a parsed archive: its slots lie inside the block
    table, whose items are 32-bit values. *)
Definition entry_in_table (ai : ARCHIVEINFO) (fi : FILEINFO) (table : list Z) : Prop :=
  1 <= block_size ai < 2 ^ 32
  /\ 0 <= uncompressed_size fi < 2 ^ 40
  /\ 0 <= block_index fi
  /\ block_index fi + block_count ai fi <= len table
  /\ len table < 2 ^ 32
  /\ Forall (fun slot => 0 <= slot < 2 ^ 32) table.

(** Worked entry: 40 bytes in blocks of 16, stored verbatim at offset 0; the
    slots are 0 (a full block), 16 and 8. *)
Definition ai_16 : ARCHIVEINFO := with_block_size archiveinfo0 16.
Definition fi_40 : FILEINFO := mkFILEINFO [] None 0 0 0 0 40.
Definition table_40 : list Z := [0; 16; 8].
Definition unpak_40 : UNPAK :=
  mkUNPAK (fopen_rb (repeat 5 40%nat)) (ToFile fopen_wb) (repeat 0 32%nat).

(** Worked entry: the empty file "e", and a writer that has written 27
    bytes and 2 block-table slots so far. *)
Definition fi_empty : FILEINFO := mkFILEINFO [] (Some [101]) 0 0 0 0 0.
Definition pak_27 : PAK :=
  mkPAK (mkFILE (repeat 1 27%nat) 27) 27 [21; 6; 0] 2 [fileinfo0; fileinfo0; fi_empty].

(** The blocks of an entry: [n] slices of [bs] bytes, the last one holding
    what is left. *)
Fixpoint split_blocks (n : nat) (bs : Z) (data : bytes) : list bytes :=
  match n with
  | O => []
  | S n' => firstn (Z.to_nat bs) data :: split_blocks n' bs (skipn (Z.to_nat bs) data)
  end.

Definition entry_blocks (ai : ARCHIVEINFO) (data : bytes) : list bytes :=
  split_blocks (Z.to_nat (blocks_of (block_size ai) (len data))) (block_size ai) data.

(** Successive [fwrite]s. *)
Definition fwrite_all (bufs : list bytes) (f : FILE) : FILE :=
  fold_left (fun f b => fwrite b f) bufs f.

(** The array [table] with the slots from [idx] on replaced by [vals]. *)
Definition with_slots (table : list Z) (idx : Z) (vals : list Z) : list Z :=
  firstn (Z.to_nat idx) table ++ vals ++ skipn (Z.to_nat idx + length vals) table.

(** What the encoder of the archive's codec hands back for a block: its
    output, or [None] when liblzma reports an error. The store codec has
    no encoder: the block stands for its own encoding. *)
Definition encoder_output {E : External} (cfg : CONFIG) (ai : ARCHIVEINFO)
    (blk : bytes) : option bytes :=
  if compression_type ai =? PSARC_ZLIB
  then Some (compress2 blk (compressBound (len blk)) (compression_level cfg))
  else if compression_type ai =? PSARC_LZMA
       then lzma_encode (lzma_preset cfg) blk (block_size ai)
       else Some blk.

Definition encoder_output_thread {E : External} (cfg : CONFIG) (ai : ARCHIVEINFO)
    (blk : bytes) : option bytes :=
  if compression_type ai =? PSARC_ZLIB
  then Some (compress2 blk (u32 (block_size ai * 2)) (compression_level cfg))
  else if compression_type ai =? PSARC_LZMA
       then lzma_encode (lzma_preset cfg) blk (u32 (block_size ai * 2))
       else Some blk.

(** The fallback rule of the specification. *)
Definition fallback (encoded : option bytes) (blk : bytes) : bytes :=
  match encoded with
  | Some out => if len out >=? len blk then blk else out
  | None => blk
  end.

(** The tasks the dispatcher submits for the blocks [blks] of entry [i]. *)
Fixpoint tasks_of (i : Z) (first : bool) (idx : Z) (blks : list bytes) : list PAKDATA :=
  match blks with
  | [] => []
  | b :: rest =>
    mkPAKDATA first (match rest with [] => true | _ => false end) (len b) i idx b
      :: tasks_of i false (idx + 1) rest
  end.

(** The entry as a worker leaves it after committing blocks of [emitted]
    bytes in all. *)
Definition committed (first : bool) (idx total emitted : Z) (fi : FILEINFO) : FILEINFO :=
  if first
  then set_compressed_size (set_offset (set_block_index fi idx) total) emitted
  else set_compressed_size fi (compressed_size fi + emitted).

(** The number of bytes the specification has emitted for a block. *)
Definition emitted_length (encoded : option bytes) (blk : bytes) : Z :=
  match encoded with
  | Some out => Z.min (len out) (len blk)
  | None => len blk
  end.

(** Worked writer state: nothing written yet behind a 158-byte index, a
    block table of 3 slots, and the entry "zeros.bin" at index 1. *)
Definition fi_zeros : FILEINFO := mkFILEINFO [] (Some (fst zeros_bin)) 0 0 3 0 40.
Definition pak_zeros : PAK :=
  mkPAK (mkFILE (repeat 1 158%nat) 158) 0 [9; 9; 9] 0 [fileinfo0; fi_zeros].
Definition ai_zlib_16 : ARCHIVEINFO := with_block_size ai_zlib 16.

(** The report lines that count as failed entries. *)
Definition is_failure (msg : string) : bool :=
  String.eqb msg "fail" || String.eqb msg "fail (file already exists)".

Fixpoint failures (report : list (cstring * string)) : Z :=
  match report with
  | [] => 0
  | (_, msg) :: rest => (if is_failure msg then 1 else 0) + failures rest
  end.

Definition config_overwrite : CONFIG := mkCONFIG 5 false true false false 0.

Definition extraction_of (cfg : CONFIG) (fs : FS) : Z * EXTRACTION :=
  match process_archive (E := model_external) cfg memory0 archiveinfo0
          (Some hello_archive) 2 [] fs with
  | Some (ret, _, _, x) => (ret, x)
  | None => (1, mkEXTRACTION fopen_wb [] [] None 0 0 0 0 [])
  end.

(** The entry of "hello.txt" as read from [hello_archive] (index of 96
    bytes, manifest of 9 bytes), and the state in which it is extracted. *)
Definition ai_hello : ARCHIVEINFO := fst (created config0 archiveinfo0 [hello_txt]).
Definition fi_hello : FILEINFO :=
  mkFILEINFO (model_md5 (fst hello_txt)) (Some (fst hello_txt)) 105 1 0 0 6.
Definition x_hello (fs : FS) : EXTRACTION :=
  mkEXTRACTION (fopen_rb hello_archive) (repeat 0 64%nat) fs None 1 0 0 0 [].
Definition x_hello_after (cfg : CONFIG) (fs : FS) : EXTRACTION :=
  match extract_entry (E := model_external) cfg ai_hello 64 [9; 6] fi_hello (x_hello fs) with
  | Some x' => x'
  | None => x_hello fs
  end.

(** Worked input for the worker pool: "hello.txt" and the empty file "e",
    stored; a second content of uninitialised memory. *)
Definition config_threads : CONFIG := with_threads config0 2.
Definition hello_and_empty : list (cstring * bytes) := [hello_txt; empty_e].
Definition memory1 : UNINIT := mkUNINIT (mkFILEINFO [] None 300 5 0 0 0) 0 0.

Definition archive_with (mem0 : UNINIT) (cfg : CONFIG) (ai : ARCHIVEINFO)
    (files : list (cstring * bytes)) : option bytes :=
  match create_archive (E := model_external) cfg mem0 ai false files with
  | Some (0, _, Some f) => Some (f_data f)
  | _ => None
  end.

(** ** threads.c: the ordered commit

    The pool as a transition system. The dispatcher submits the blocks of
    [queue] in order: [threads_start_task] hands a free worker the ticket
    [threads_last]. A worker leaves [threads_wait_for_orderer_continue]
    when its ticket is [threads_current]; it then commits and
    [threads_completed] moves [threads_current] on. *)
Record WORKER := mkWORKER { tid : Z; task : PAKDATA }.

Record POOL := mkPOOL {
  threads_current : Z;
  threads_last : Z;
  queue : list PAKDATA;
  running : list WORKER;
  shared : PAK
}.

Definition next_ticket (t : Z) : Z := if t + 1 =? 0 then 1 else t + 1.

Inductive pool_step {E : External} (cfg : CONFIG) (ai : ARCHIVEINFO)
    (threads_max : Z) : POOL -> POOL -> Prop :=
| pool_start (cur lst : Z) (pkd : PAKDATA) (q : list PAKDATA)
    (run : list WORKER) (st : PAK) :
    len run < threads_max ->
    pool_step cfg ai threads_max
      (mkPOOL cur lst (pkd :: q) run st)
      (mkPOOL cur (next_ticket lst) q (run ++ [mkWORKER lst pkd]) st)
| pool_commit (cur lst : Z) (q : list PAKDATA) (run1 run2 : list WORKER)
    (w : WORKER) (st st' : PAK) :
    tid w = cur ->
    compress_entry_thread cfg ai (task w) st = Some st' ->
    pool_step cfg ai threads_max
      (mkPOOL cur lst q (run1 ++ w :: run2) st)
      (mkPOOL (next_ticket cur) lst q (run1 ++ run2) st').

Inductive pool_run {E : External} (cfg : CONFIG) (ai : ARCHIVEINFO)
    (threads_max : Z) : POOL -> POOL -> Prop :=
| pool_run_refl (p : POOL) : pool_run cfg ai threads_max p p
| pool_run_step (p q r : POOL) :
    pool_step cfg ai threads_max p q -> pool_run cfg ai threads_max q r ->
    pool_run cfg ai threads_max p r.

(** The tickets [t], [t + 1], ... of [n] workers. *)
Fixpoint tickets (t : Z) (n : nat) : list Z :=
  match n with
  | O => []
  | S n' => t :: tickets (t + 1) n'
  end.

(** The workers hold consecutive tickets from [threads_current] on, in the
    order they were started. *)
Definition pool_ordered (p : POOL) : Prop :=
  1 <= threads_current p
  /\ map tid (running p) = tickets (threads_current p) (length (running p))
  /\ threads_last p = threads_current p + len (running p).



(** ** The round trip: what the writer lays out *)

(** Whether [create_archive] goes through the worker pool. *)
Definition threaded (cfg : CONFIG) : bool := num_threads cfg >? 0.

(** The bytes written for a block: by [compress_entry] (the manifest and
    the synchronous path) or by [compress_entry_thread] (the pool). *)
Definition emit {E : External} (cfg : CONFIG) (ai : ARCHIVEINFO) (pool : bool)
    (blk : bytes) : bytes :=
  if pool then compress_block_thread cfg ai blk else compress_block cfg ai blk.

Definition emitted_blocks {E : External} (cfg : CONFIG) (ai : ARCHIVEINFO)
    (pool : bool) (input : bytes) : list bytes :=
  map (emit cfg ai pool) (entry_blocks ai input).

Definition all_emitted {E : External} (cfg : CONFIG) (ai : ARCHIVEINFO)
    (pool : bool) (files : list (cstring * bytes)) : list bytes :=
  concat (map (fun p => emitted_blocks cfg ai pool (snd p)) files).

(** The writer stays inside its buffers while it handles the block [blk]:
    in [compress_entry], or in the dispatcher and in the worker of the
    pool. *)
Definition holds {E : External} (cfg : CONFIG) (ai : ARCHIVEINFO)
    (pool input_fp : bool) (blk : bytes) : bool :=
  if pool then slot_holds_input ai blk && slot_holds_output cfg ai blk
  else scratch_holds cfg ai input_fp blk.

Definition buffers_hold {E : External} (cfg : CONFIG) (ai : ARCHIVEINFO)
    (pool input_fp : bool) (input : bytes) : bool :=
  forallb (holds cfg ai pool input_fp) (entry_blocks ai input).

(** No block of [input] is encoded into more than twice the block size,
    the room the writer has for the output of its encoder. *)
Definition encoded_fits {E : External} (cfg : CONFIG) (ai : ARCHIVEINFO)
    (pool : bool) (input : bytes) : bool :=
  forallb (fun blk =>
             match (if pool then encoder_output_thread cfg ai blk
                    else encoder_output cfg ai blk) with
             | Some out => len out <=? block_size ai * 2
             | None => true
             end)
          (entry_blocks ai input).

(** The reader gets the block [blk] back from the written bytes [e]: the
    signature test of [decompress_entry] picks a decoder that returns
    [blk], or it copies [e], which is [blk]. *)
Definition reads_back {E : External} (e blk : bytes) : Prop :=
  match block_codec e with
  | BlockZlib => uncompress e (len blk) = Some blk
  | BlockLzma => lzma_decode e (len blk) = Some blk
  | BlockVerbatim => e = blk
  end.

(** The manifest: the normalised names, one per line. *)
Definition manifest (cfg : CONFIG) (ai : ARCHIVEINFO)
    (files : list (cstring * bytes)) : bytes :=
  build_filenames cfg ai (map fst files).

Definition total_blocks (ai : ARCHIVEINFO) (inputs : list bytes) : Z :=
  sum (map (fun d => blocks_of (block_size ai) (len d)) inputs).

(** The length of header, table of contents and block table, the
    [toc_length] of the archive. *)
Definition index_length (cfg : CONFIG) (ai : ARCHIVEINFO)
    (files : list (cstring * bytes)) : Z :=
  sizeof_PSARCHEADER + (len files + 1) * sizeof_PSARCTOC
  + total_blocks ai (manifest cfg ai files :: map snd files)
    * get_blocktable_item_size ai.


(** An entry of [files_info_table] once [get_blocktable_size] has sized
    it; [junk] is what [malloc] left there. *)
Definition sized (ai : ARCHIVEINFO) (junk : FILEINFO) (input : bytes) : FILEINFO :=
  set_num_blocks (set_uncompressed_size junk (len input))
                 (blocks_of (block_size ai) (len input)).

(** The entry of a file once the dispatcher of the pool has seen it. *)
Definition dispatched (ai : ARCHIVEINFO) (junk : FILEINFO)
    (p : cstring * bytes) : FILEINFO :=
  let fi := set_filename (sized ai junk (snd p)) (Some (fst p)) in
  if len (snd p) =? 0 then set_compressed_size fi 0 else fi.

(** The entries of the files once written, the first of them starting at
    block [idx] and payload offset [off]. Under the pool an empty file
    keeps the offset and block index [malloc] left. *)
Fixpoint written_entries {E : External} (cfg : CONFIG) (ai : ARCHIVEINFO)
    (pool : bool) (junk : FILEINFO) (files : list (cstring * bytes))
    (idx off : Z) : list FILEINFO :=
  match files with
  | [] => []
  | p :: rest =>
    let e := emitted_blocks cfg ai pool (snd p) in
    let csize := sum (map len e) in
    let fi := set_filename (sized ai junk (snd p)) (Some (fst p)) in
    (if pool && (len (snd p) =? 0) then set_compressed_size fi 0
     else set_compressed_size (set_block_index (set_offset fi off) idx) csize)
      :: written_entries cfg ai pool junk rest (idx + len e) (off + csize)
  end.

(** The tasks the dispatcher submits for [files], entry [i] first. *)
Fixpoint tasks_for (ai : ARCHIVEINFO) (files : list (cstring * bytes))
    (i idx : Z) : list PAKDATA :=
  match files with
  | [] => []
  | p :: rest =>
    tasks_of i true idx (entry_blocks ai (snd p))
      ++ tasks_for ai rest (i + 1) (idx + len (entry_blocks ai (snd p)))
  end.

(** One record of the table of contents, for an entry that has a name. *)
Definition toc_record {E : External} (ai : ARCHIVEINFO) (i : Z) (fi : FILEINFO)
    : bytes :=
  match toc_bytes ai i fi with
  | Some toc => toc
  | None => []
  end.

Fixpoint toc_records {E : External} (ai : ARCHIVEINFO) (i : Z)
    (tbl : list FILEINFO) : list bytes :=
  match tbl with
  | [] => []
  | fi :: rest => toc_record ai i fi :: toc_records ai (i + 1) rest
  end.

(** [_ArchiveInfo] as [create_archive] leaves it. *)
Definition archive_info (cfg : CONFIG) (ai : ARCHIVEINFO)
    (files : list (cstring * bytes)) : ARCHIVEINFO :=
  set_toc ai (len files + 1) (index_length cfg ai files).

(** The blocks of the archive, in file order: the manifest, then the
    files. *)
Definition archive_blocks {E : External} (cfg : CONFIG) (ai : ARCHIVEINFO)
    (files : list (cstring * bytes)) : list bytes :=
  emitted_blocks cfg ai false (manifest cfg ai files)
    ++ all_emitted cfg ai (threaded cfg) files.

(** [files_info_table] when [write_toc_table] runs. *)
Definition archive_entries {E : External} (cfg : CONFIG) (ai : ARCHIVEINFO)
    (junk : FILEINFO) (files : list (cstring * bytes)) : list FILEINFO :=
  let m := emitted_blocks cfg ai false (manifest cfg ai files) in
  set_compressed_size
    (set_block_index (set_offset (sized ai junk (manifest cfg ai files)) 0) 0)
    (sum (map len m))
    :: written_entries cfg ai (threaded cfg) junk files (len m) (sum (map len m)).

(** The bytes of the archive. *)
Definition archive_bytes {E : External} (cfg : CONFIG) (ai : ARCHIVEINFO)
    (junk : FILEINFO) (files : list (cstring * bytes)) : bytes :=
  let ai' := archive_info cfg ai files in
  header_bytes ai'
    ++ concat (toc_records ai' 0 (archive_entries cfg ai junk files))
    ++ concat (map (fun b => blocktable_item (get_blocktable_item_size ai)
                                             (u32 (len b)))
                   (archive_blocks cfg ai files))
    ++ concat (archive_blocks cfg ai files).

(** ** The round trip: what the reader finds *)

(** The value [read_blocktable] stores for an item of [w] bytes, [w] not
    1. *)
Definition item_value (w : Z) (got : bytes) : Z :=
  if w =? 2 then ntohs got else if w =? 3 then ntoh24 got else ntohl got.









(** The header written first stays in place: every later write happens at
    an offset of 32 or more. *)
Definition header_kept (h : bytes) (f : FILE) : Prop :=
  firstn 32 (f_data f) = h /\ (32 <= length (f_data f))%nat /\ 32 <= f_pos f.

(** ** hashset.c, bucket by bucket

    The table behind the finite set of strings: [size] chains, a value
    being kept in the chain that its hash selects. [char] is signed and
    [size_t] has 64 bits, as on x86-64. Allocation failures and null
    arguments are left out; [hash] with [size = 0] divides by zero. *)
Module Hashset.

Record HASHSET := mkHASHSET { size : Z; table : list (list cstring) }.

Definition hashset_init (size : Z) : HASHSET :=
  mkHASHSET size (repeat [] (Z.to_nat size)).

(** The value of the [char] that holds the byte [b]. *)
Definition char (b : Z) : Z := if b <? 128 then b else b - 256.

Fixpoint hash_loop (str : cstring) (hash : Z) : Z :=
  match str with
  | [] => hash
  | c :: t => hash_loop t (u64 (hash * 31 + char c))
  end.

Definition hash (str : cstring) (size : Z) : option Z :=
  if size =? 0 then None else Some (hash_loop str 0 mod size).

(** The walk along a chain; [strcmp] is zero on equal strings. *)
Fixpoint chain_contains (current : list cstring) (value : cstring) : bool :=
  match current with
  | [] => false
  | v :: next => if bytes_eqb v value then true else chain_contains next value
  end.

Definition hashset_containsAtIndex (set : HASHSET) (value : cstring) (index : Z)
    : option bool :=
  current <- load (table set) index ;;
  Some (chain_contains current value).

Definition hashset_contains (set : HASHSET) (value : cstring) : option bool :=
  index <- hash value (size set) ;;
  hashset_containsAtIndex set value index.

(** [hashset_add]: the return code and the set; a new node goes to the
    head of its chain. *)
Definition hashset_add (set : HASHSET) (value : cstring) : option (Z * HASHSET) :=
  index <- hash value (size set) ;;
  found <- hashset_containsAtIndex set value index ;;
  if found then Some (0, set)
  else
    tbl <- update (table set) index (fun chain => value :: chain) ;;
    Some (1, mkHASHSET (size set) tbl).

(** The chain without its first node equal to [value], if there is one. *)
Fixpoint chain_unlink (current : list cstring) (value : cstring)
    : option (list cstring) :=
  match current with
  | [] => None
  | v :: next =>
    if bytes_eqb v value then Some next
    else match chain_unlink next value with
         | Some next' => Some (v :: next')
         | None => None
         end
  end.

Definition hashset_del (set : HASHSET) (value : cstring) : option (Z * HASHSET) :=
  index <- hash value (size set) ;;
  current <- load (table set) index ;;
  match chain_unlink current value with
  | Some chain => tbl <- store (table set) index chain ;;
                  Some (1, mkHASHSET (size set) tbl)
  | None => Some (0, set)
  end.

(** A call of [hashset_add] or [hashset_del], and a run of such calls. *)
Inductive CALL := Add (value : cstring) | Del (value : cstring).

Fixpoint calls (l : list CALL) (set : HASHSET) : option HASHSET :=
  match l with
  | [] => Some set
  | Add value :: rest => r <- hashset_add set value ;; calls rest (snd r)
  | Del value :: rest => r <- hashset_del set value ;; calls rest (snd r)
  end.

(** The table has its [size] chains, no chain holds a value twice, and
    every value is in the chain of its hash. *)
Definition well_formed (set : HASHSET) : Prop :=
  0 < size set
  /\ len (table set) = size set
  /\ Forall (fun chain => NoDup chain) (table set)
  /\ forall (index : Z) (chain : list cstring) (v : cstring),
       load (table set) index = Some chain -> In v chain ->
       hash v (size set) = Some index.

End Hashset.

(** The same calls on the set of strings used by [decompress_files], and
    whether the last call on [value] was an add. *)
Fixpoint set_calls (l : list Hashset.CALL) (set : HASHSET) : HASHSET :=
  match l with
  | [] => set
  | Hashset.Add value :: rest => set_calls rest (hashset_add set value)
  | Hashset.Del value :: rest => set_calls rest (hashset_del set value)
  end.

Fixpoint last_added (l : list Hashset.CALL) (value : cstring) (now : bool) : bool :=
  match l with
  | [] => now
  | Hashset.Add v :: rest => last_added rest value (bytes_eqb v value || now)
  | Hashset.Del v :: rest => last_added rest value (negb (bytes_eqb v value) && now)
  end.

(** ** file_utils.c: path clean-up *)

(** The [for] loop of [rm_dot_dir_from_path], [fuel] rounds at most;
    [path] is the string of [len] characters held by the buffer. A
    removal is the [memmove] followed by [i--] and the [i++] of the
    loop. *)
Fixpoint rm_dot_dir_loop (fuel : nat) (path : cstring) (i : Z) : option cstring :=
  if i <? len path - 1 then
    match fuel with
    | O => None
    | S fuel' =>
      if (nth (Z.to_nat i) path 0 =? 46) && (nth (Z.to_nat (i + 1)) path 0 =? 47)
         && ((i =? 0) || ((i >? 0) && (nth (Z.to_nat (i - 1)) path 0 =? 47)))
      then rm_dot_dir_loop fuel'
             (firstn (Z.to_nat i) path ++ skipn (Z.to_nat (i + 2)) path)
             (i - 1 + 1)
      else rm_dot_dir_loop fuel' path (i + 1)
    end
  else Some path.

(** [rm_dot_dir_from_path]: each round moves [i] on or shortens the
    string, so [len] rounds are enough. *)
Definition rm_dot_dir_from_path (path : cstring) : option cstring :=
  if len path >=? 2 then rm_dot_dir_loop (length path) path 0 else Some path.

(** The place [i] of [path] starts a component [./]. *)
Definition dot_dir_at (path : cstring) (i : nat) : Prop :=
  nth i path 0 = 46 /\ nth (S i) path 0 = 47
  /\ (i = O \/ nth (i - 1) path 0 = 47).

(** ** unpak.c: the pattern set *)

(** The string under which [decompress_files] looks a pattern or the name
    of an entry up in its set. *)
Definition pattern_key (ai : ARCHIVEINFO) (s : cstring) : cstring :=
  if icase ai then lcase s else s.

(** Worked extraction by name: the table read from [hello_archive], and
    the state after [decompress_files] was given the patterns [files]. *)
Definition tbl_hello : list FILEINFO := [fileinfo0; fi_hello].

Definition x_hello_named (files : list cstring) : EXTRACTION :=
  match decompress_files (E := model_external) config0 ai_hello 64 tbl_hello [9; 6]
          files (x_hello []) with
  | Some (_, x') => x'
  | None => x_hello []
  end.


(** ** file_utils.c: the list of input files

    [realpath] is external: the canonical path of a name, or [None] for
    NULL. [files] holds the [count] entries of the array, [capacity] its
    allocated size; a store at or beyond [capacity] is undefined. *)
Module Filelist.

Record FILELIST := mkFILELIST {
  files : list cstring;
  capacity : Z;
  set : Hashset.HASHSET
}.

Definition filelist_init (initialCapacity hashSize : Z) : FILELIST :=
  mkFILELIST [] initialCapacity (Hashset.hashset_init hashSize).

Fixpoint starts_with (s pat : cstring) : bool :=
  match pat, s with
  | [], _ => true
  | p :: pat', c :: s' => (c =? p) && starts_with s' pat'
  | _ :: _, [] => false
  end.

(** [strstr s pat]: the place of the first occurrence of [pat] in [s]. *)
Fixpoint strstr (s pat : cstring) : option nat :=
  if starts_with s pat then Some O
  else match s with
       | [] => None
       | _ :: s' => match strstr s' pat with
                    | Some i => Some (S i)
                    | None => None
                    end
       end.

Section Add.
Variable realpath : cstring -> option cstring.

(** [filelist_add]: the return code and the list. The caller's [filename]
    is also cleaned in place by [rm_dot_dir_from_path]. *)
Definition filelist_add (flist : FILELIST) (filename : cstring)
    : option (Z * FILELIST) :=
  match realpath filename with
  | None => Some (0, flist)
  | Some canonicalPath =>
    r <- Hashset.hashset_add (set flist) canonicalPath ;;
    if fst r =? 0 then Some (0, mkFILELIST (files flist) (capacity flist) (snd r))
    else
      let capacity' := if len (files flist) >=? capacity flist
                       then u64 (capacity flist * 2) else capacity flist in
      if len (files flist) >=? capacity' then None
      else
        cleaned <- rm_dot_dir_from_path filename ;;
        let stored :=
          match strstr cleaned [46; 46; 47] with
          | Some i =>
            if (i =? 0)%nat || (nth (i - 1) cleaned 0 =? 47)
            then canonicalPath else cleaned
          | None => cleaned
          end in
        Some (1, mkFILELIST (files flist ++ [stored]) capacity' (snd r))
  end.

(** Successive calls, as the enumeration of the input files makes them. *)
Fixpoint filelist_add_all (flist : FILELIST) (names : list cstring)
    : option FILELIST :=
  match names with
  | [] => Some flist
  | name :: rest => r <- filelist_add flist name ;; filelist_add_all (snd r) rest
  end.

(** The canonical paths of the names that have one. *)
Fixpoint canonical (names : list cstring) : list cstring :=
  match names with
  | [] => []
  | name :: rest =>
    match realpath name with
    | Some c => c :: canonical rest
    | None => canonical rest
    end
  end.

(** The canonical paths in the order in which they are first met, those of
    [seen] left out. *)
Fixpoint distinct (seen : list cstring) (paths : list cstring) : list cstring :=
  match paths with
  | [] => []
  | c :: rest =>
    if hashset_contains seen c then distinct seen rest
    else c :: distinct (c :: seen) rest
  end.

(** An entry of the list stands for the canonical path [c] of one of
    [names]: it is [c], or one of [names] that resolves to [c], cleaned. *)
Definition stands_for (names : list cstring) (stored c : cstring) : Prop :=
  stored = c
  \/ exists name, In name names /\ realpath name = Some c
                  /\ rm_dot_dir_from_path name = Some stored.

(** What the calls keep, [cap] being the initial capacity and [names] all
    the names given: the table is well formed and holds the canonical
    paths [seen], the list has one entry for each of them, in the order
    they came, and room for it. *)
Definition filelist_ok (cap : Z) (names seen : list cstring) (flist : FILELIST)
    : Prop :=
  Hashset.well_formed (set flist)
  /\ NoDup seen
  /\ (forall v, Hashset.hashset_contains (set flist) v
                = Some (hashset_contains seen v))
  /\ Forall2 (stands_for names) (files flist) (rev seen)
  /\ 1 <= capacity flist
  /\ len (files flist) <= capacity flist
  /\ capacity flist <= Z.max cap (2 * len (files flist)).

End Add.
End Filelist.

(** Worked run of the pool: one block of three bytes for the entry 0. *)
Definition task_abc : PAKDATA := mkPAKDATA true true 3 0 0 [97; 98; 99].
Definition pak_before_abc : PAK := mkPAK fopen_wb 0 [0] 0 [fileinfo0].
Definition pak_after_abc : PAK :=
  match compress_entry_thread (E := model_external) config0 archiveinfo0 task_abc
          pak_before_abc with
  | Some st => st
  | None => pak_before_abc
  end.

(** The archive of "hello.txt" cut two bytes into the payload of the
    file. *)
Definition x_hello_cut : EXTRACTION :=
  mkEXTRACTION (fopen_rb (firstn 107 hello_archive)) (repeat 0 64%nat) [] None 1 0 0
               0 [].

(** * Properties *)

(** ** Bits and bytes *)

Lemma testbit_255 (m : Z) : Z.testbit 255 m = (0 <=? m) && (m <? 8).
Proof.
  change 255 with (Z.ones 8).
  destruct (Z.leb_spec 0 m).
  - rewrite Z.testbit_ones by lia. destruct (Z.ltb_spec m 8); simpl; lia.
  - rewrite Z.testbit_neg_r by lia. reflexivity.
Qed.

Lemma testbit_above (v k n : Z) :
  0 <= v < 2 ^ k -> 0 <= k <= n -> Z.testbit v n = false.
Proof.
  intros Hv Hk. destruct (Z.eq_dec v 0) as [->|Hne].
  - apply Z.bits_0.
  - apply Z.bits_above_log2; try lia.
    apply Z.log2_lt_pow2; try lia.
    apply Z.lt_le_trans with (2 ^ k); try lia. apply Z.pow_le_mono_r; lia.
Qed.

Ltac bool_cases :=
  repeat match goal with
         | |- context [(?a <=? ?b)] => destruct (Z.leb_spec a b)
         | |- context [(?a <? ?b)] => destruct (Z.ltb_spec a b)
         end.

Ltac bits k :=
  apply Z.bits_inj'; intros n Hn;
  repeat rewrite ?Z.lor_spec, ?Z.land_spec, ?Z.shiftl_spec, ?testbit_255 by lia;
  bool_cases; try lia;
  cbn [andb orb];
  rewrite ?andb_true_r, ?andb_false_r, ?orb_false_r, ?orb_false_l;
  rewrite ?Z.shiftr_spec by lia;
  try (f_equal; lia);
  try (symmetry; apply testbit_above with k; lia).

Lemma ntohl_htonl (v : Z) : 0 <= v < 2 ^ 32 -> ntohl (htonl v) = v.
Proof. intros Hv. unfold ntohl, htonl. cbn [nth]. bits 32. Qed.

Lemma ntohs_htons (v : Z) : 0 <= v < 2 ^ 16 -> ntohs (htons v) = v.
Proof. intros Hv. unfold ntohs, htons. cbn [nth]. bits 16. Qed.

Lemma ntoh24_hton24 (v : Z) : 0 <= v < 2 ^ 24 -> ntoh24 (hton24 v) = v.
Proof. intros Hv. unfold ntoh24, hton24. cbn [nth]. bits 24. Qed.

Lemma ntoh40_hton40 (v : Z) : 0 <= v < 2 ^ 40 -> ntoh40 (hton40 v) = v.
Proof. intros Hv. unfold ntoh40, hton40. cbn [nth]. bits 40. Qed.

Lemma land_255 (x : Z) : Z.land x 255 = x mod 256.
Proof. change 255 with (Z.ones 8). rewrite Z.land_ones by lia. reflexivity. Qed.

Lemma byte_of_shift (x k : Z) :
  0 <= k -> Z.land (Z.shiftr x k) 255 = (x / 2 ^ k) mod 256.
Proof. intros Hk. rewrite land_255, Z.shiftr_div_pow2 by lia. reflexivity. Qed.

(** ** The block-table item (C3) *)

Lemma htons_be (x : Z) : htons x = be_encode 2 x.
Proof.
  unfold htons. cbn [be_encode].
  rewrite byte_of_shift, land_255 by lia.
  change (256 ^ Z.of_nat 1) with (2 ^ 8). change (256 ^ Z.of_nat 0) with 1.
  rewrite Z.div_1_r. reflexivity.
Qed.

Lemma hton24_be (x : Z) : hton24 x = be_encode 3 x.
Proof.
  unfold hton24. cbn [be_encode].
  rewrite !byte_of_shift, land_255 by lia.
  change (256 ^ Z.of_nat 2) with (2 ^ 16). change (256 ^ Z.of_nat 1) with (2 ^ 8).
  change (256 ^ Z.of_nat 0) with 1.
  rewrite Z.div_1_r. reflexivity.
Qed.

Lemma htonl_be (x : Z) : htonl x = be_encode 4 x.
Proof.
  unfold htonl. cbn [be_encode].
  rewrite !byte_of_shift, land_255 by lia.
  change (256 ^ Z.of_nat 3) with (2 ^ 24). change (256 ^ Z.of_nat 2) with (2 ^ 16).
  change (256 ^ Z.of_nat 1) with (2 ^ 8). change (256 ^ Z.of_nat 0) with 1.
  rewrite Z.div_1_r. reflexivity.
Qed.

Lemma item_size_cases (ai : ARCHIVEINFO) :
  1 <= block_size ai < 2 ^ 32 ->
  (get_blocktable_item_size ai = 1 /\ block_size ai <= 2 ^ 8)
  \/ (get_blocktable_item_size ai = 2 /\ 2 ^ 8 < block_size ai <= 2 ^ 16)
  \/ (get_blocktable_item_size ai = 3 /\ 2 ^ 16 < block_size ai <= 2 ^ 24)
  \/ (get_blocktable_item_size ai = 4 /\ 2 ^ 24 < block_size ai).
Proof.
  intros Hb. unfold get_blocktable_item_size.
  change 0x100 with (2 ^ 8). change 0x10000 with (2 ^ 16).
  change 0x1000000 with (2 ^ 24). change 0x100000000 with (2 ^ 32).
  bool_cases; lia.
Qed.

Lemma blocktable_item_mod (ai : ARCHIVEINFO) (emitted : Z) :
  1 <= block_size ai < 2 ^ 32 ->
  0 <= emitted <= block_size ai ->
  (get_blocktable_item_size ai = 3 -> emitted < 2 ^ 20 \/ emitted = 2 ^ 24) ->
  blocktable_item (get_blocktable_item_size ai) emitted
  = be_encode (Z.to_nat (get_blocktable_item_size ai))
              (emitted mod 2 ^ (8 * get_blocktable_item_size ai)).
Proof.
  intros Hb He H3.
  destruct (item_size_cases ai Hb) as [[Hw Hr]|[[Hw Hr]|[[Hw Hr]|[Hw Hr]]]];
    rewrite Hw; unfold blocktable_item; cbn [Z.eqb Pos.eqb Z.to_nat Z.mul Pos.mul].
  - change (Pos.to_nat 1) with 1%nat. cbn [be_encode].
    change 0xff with 255. rewrite land_255.
    change (256 ^ Z.of_nat 0) with 1. rewrite Z.div_1_r.
    change (2 ^ 8) with 256. rewrite Z.mod_mod by lia. reflexivity.
  - change (Pos.to_nat 2) with 2%nat. rewrite htons_be.
    change 0xffff with (Z.ones 16). rewrite Z.land_ones by lia. reflexivity.
  - change (Pos.to_nat 3) with 3%nat. rewrite hton24_be.
    change 0x0fffff with (Z.ones 20). rewrite Z.land_ones by lia.
    destruct (H3 Hw) as [Hlt | ->].
    + rewrite !Z.mod_small by lia. reflexivity.
    + reflexivity.
  - change (Pos.to_nat 4) with 4%nat. rewrite htonl_be.
    rewrite Z.mod_small by lia. reflexivity.
Qed.

(** C3, as amended. The item [write_blocktable] serialises for a block of
    [emitted] bytes is the big-endian image, in exactly W bytes, of
    [emitted] modulo 2^(8W): the emitted length itself when it is below
    2^(8W), and the sentinel 0 when the block has [block_size = 2^(8W)]
    bytes. (For W = 3 the statement covers the lengths below 2^20 and the
    full block of 2^24 bytes.) *)
Theorem C3_blocktable_item_big_endian (ai : ARCHIVEINFO) (emitted : Z) :
  1 <= block_size ai < 2 ^ 32 ->
  0 <= emitted <= block_size ai ->
  (get_blocktable_item_size ai = 3 -> emitted < 2 ^ 20 \/ emitted = 2 ^ 24) ->
  blocktable_item (get_blocktable_item_size ai) emitted
  = be_encode (Z.to_nat (get_blocktable_item_size ai))
              (emitted mod 2 ^ (8 * get_blocktable_item_size ai))
  /\ (emitted < 2 ^ (8 * get_blocktable_item_size ai) ->
      blocktable_item (get_blocktable_item_size ai) emitted
      = be_encode (Z.to_nat (get_blocktable_item_size ai)) emitted)
  /\ (emitted = 2 ^ (8 * get_blocktable_item_size ai) ->
      emitted = block_size ai
      /\ blocktable_item (get_blocktable_item_size ai) emitted
         = be_encode (Z.to_nat (get_blocktable_item_size ai)) 0).
Proof.
  intros Hb He H3.
  pose proof (blocktable_item_mod ai emitted Hb He H3) as Hmod.
  split; [exact Hmod|]. split.
  - intros Hlt. rewrite Hmod, Z.mod_small by lia. reflexivity.
  - intros Heq. split.
    + destruct (item_size_cases ai Hb) as [[Hw Hr]|[[Hw Hr]|[[Hw Hr]|[Hw Hr]]]];
        rewrite Hw in Heq; cbn in Heq; lia.
    + rewrite Hmod, Heq, Z.mod_same; [reflexivity|].
      destruct (item_size_cases ai Hb) as [[Hw Hr]|[[Hw Hr]|[[Hw Hr]|[Hw Hr]]]];
        rewrite Hw; cbn; lia.
Qed.

(** A block of 40 bytes under the default block size: the item is 00 28. *)
Lemma C3_blocktable_item_witness :
  blocktable_item (get_blocktable_item_size archiveinfo0) 40
  = be_encode (Z.to_nat (get_blocktable_item_size archiveinfo0))
              (40 mod 2 ^ (8 * get_blocktable_item_size archiveinfo0))
  /\ (40 < 2 ^ (8 * get_blocktable_item_size archiveinfo0) ->
      blocktable_item (get_blocktable_item_size archiveinfo0) 40
      = be_encode (Z.to_nat (get_blocktable_item_size archiveinfo0)) 40)
  /\ (40 = 2 ^ (8 * get_blocktable_item_size archiveinfo0) ->
      40 = block_size archiveinfo0
      /\ blocktable_item (get_blocktable_item_size archiveinfo0) 40
         = be_encode (Z.to_nat (get_blocktable_item_size archiveinfo0)) 0).
Proof.
  apply (C3_blocktable_item_big_endian archiveinfo0 40).
  - cbn. lia.
  - cbn. lia.
  - intros H. vm_compute in H. discriminate H.
Defined.

(** With [block_size = 1024] a full block is recorded as 04 00, not as the
    sentinel 00 00 the specification asks for. *)
Lemma C3_full_block_not_sentinel :
  blocktable_item (get_blocktable_item_size ai_1024) 1024
  <> blocktable_item_spec ai_1024 1024.
Proof. vm_compute. discriminate. Qed.

(** ** Codec detection on read (C5) *)

Lemma bytes_eqb_eq (a b : bytes) : bytes_eqb a b = true <-> a = b.
Proof.
  revert b. induction a as [|x a IH]; intros [|y b]; cbn; split; intros H;
    try reflexivity; try discriminate.
  - apply andb_true_iff in H. destruct H as [Hx Hr].
    apply Z.eqb_eq in Hx. apply IH in Hr. subst. reflexivity.
  - injection H as -> ->. rewrite Z.eqb_refl. apply IH. reflexivity.
Qed.

Lemma bytes_eqb_refl (a : bytes) : bytes_eqb a a = true.
Proof. apply bytes_eqb_eq. reflexivity. Qed.

Lemma is_zlib_block_iff (payload : bytes) (bytes_read : Z) :
  is_zlib_block payload bytes_read = true <->
  2 < bytes_read /\ nth 0 payload 0 = 0x78
  /\ (nth 1 payload 0 = 0x01 \/ nth 1 payload 0 = 0x5E
      \/ nth 1 payload 0 = 0x9C \/ nth 1 payload 0 = 0xDA).
Proof.
  unfold is_zlib_block.
  rewrite !andb_true_iff, !orb_true_iff, !Z.eqb_eq, Z.gtb_lt. tauto.
Qed.

Lemma is_lzma_block_iff (payload : bytes) (bytes_read : Z) :
  is_lzma_block payload bytes_read = true <->
  6 < bytes_read /\ firstn 6 payload = xz_magic.
Proof.
  unfold is_lzma_block. rewrite andb_true_iff, Z.gtb_lt, bytes_eqb_eq. tauto.
Qed.

(** C5, as amended. The treatment of a block depends on its bytes only:
    zlib when it has more than 2 bytes, byte 0 is 78 and byte 1 is one of
    01, 5E, 9C, DA; xz (LZMA2) when it is not zlib, has more than 6 bytes
    and starts with FD 37 7A 58 5A 00; a verbatim copy otherwise. The codec
    named in the header plays no part. *)
Theorem C5_codec_from_leading_bytes {E : External} (payload : bytes)
    (chunk_size at_off : Z) (archive : FILE) (st : UNPAK) :
  (block_codec payload = BlockZlib <->
   2 < len payload /\ nth 0 payload 0 = 0x78
   /\ (nth 1 payload 0 = 0x01 \/ nth 1 payload 0 = 0x5E
       \/ nth 1 payload 0 = 0x9C \/ nth 1 payload 0 = 0xDA))
  /\ (block_codec payload = BlockLzma <->
      block_codec payload <> BlockZlib
      /\ 6 < len payload /\ firstn 6 payload = xz_magic)
  /\ decompress_block payload (len payload) chunk_size at_off archive st
     = match block_codec payload with
       | BlockZlib => zlib_path payload chunk_size at_off archive st
       | BlockLzma => lzma_path payload chunk_size at_off archive st
       | BlockVerbatim => verbatim_path payload at_off archive st
       end
  /\ (forall (ai : ARCHIVEINFO) (codec buffer_size : Z) (fi : FILEINFO)
             (blocktable : list Z),
         decompress_entry (with_codec ai codec) buffer_size fi blocktable st
         = decompress_entry ai buffer_size fi blocktable st).
Proof.
  unfold block_codec, decompress_block.
  pose proof (is_zlib_block_iff payload (len payload)) as Hz.
  pose proof (is_lzma_block_iff payload (len payload)) as Hl.
  destruct (is_zlib_block payload (len payload)) eqn:Ez;
    [|destruct (is_lzma_block payload (len payload)) eqn:El].
  - split; [tauto|]. split; [|split; intros; reflexivity].
    split; [discriminate|]. intros [H _]. contradiction H. reflexivity.
  - split; [|split; [|split; intros; reflexivity]].
    + split; [discriminate|]. intros H. apply Hz in H. discriminate H.
    + split; [|reflexivity]. intros _. split; [discriminate|].
      apply Hl. reflexivity.
  - split; [|split; [|split; intros; reflexivity]].
    + split; [discriminate|]. intros H. apply Hz in H. discriminate H.
    + split; [discriminate|]. intros (_ & H6 & Hm).
      destruct Hl as [_ Hl]. discriminate (Hl (conj H6 Hm)).
Qed.

(** The block 78 9C has the leading bytes of a zlib stream and is copied
    verbatim, where the specification has it inflated. *)
Lemma C5_two_byte_block_is_copied :
  block_codec_spec short_zlib_like = BlockZlib
  /\ block_codec short_zlib_like = BlockVerbatim
  /\ decompress_block (E := model_external) short_zlib_like 2 2 0 (fopen_rb [])
       (mkUNPAK (fopen_rb []) (ToFile fopen_wb) [])
     = Some (Some (mkUNPAK (fopen_rb []) (ToFile (mkFILE short_zlib_like 2)) [])).
Proof. vm_compute. repeat split. Qed.

(** ** The header on read (C6) *)

Lemma len_app {A : Type} (a b : list A) : len (a ++ b) = len a + len b.
Proof. unfold len. rewrite length_app. lia. Qed.

Lemma len_nonneg {A : Type} (a : list A) : 0 <= len a.
Proof. unfold len. lia. Qed.

Lemma read_header_short (ai : ARCHIVEINFO) (content : bytes) :
  len content < 32 ->
  read_header ai (fopen_rb content) = (1, ai, mkFILE content (len content)).
Proof.
  intros Hs. unfold read_header, fread, fseek, fopen_rb. cbn [f_pos f_data].
  change (Z.to_nat 0) with 0%nat. cbn [skipn].
  change (sizeof_PSARCHEADER <=? 0) with false. cbv iota.
  destruct (Z.leb_spec sizeof_PSARCHEADER (len content)) as [H|H];
    [unfold sizeof_PSARCHEADER in H; lia|].
  reflexivity.
Qed.

Lemma read_header_long (ai : ARCHIVEINFO) (content : bytes) :
  32 <= len content ->
  read_header ai (fopen_rb content)
  = (0,
     mkARCHIVEINFO (ntohs (sub (firstn 32 content) 4 2))
       (ntohs (sub (firstn 32 content) 6 2))
       (if bytes_eqb (sub (firstn 32 content) 8 4) tag_lzma
        then PSARC_LZMA else PSARC_ZLIB)
       (ntohl (sub (firstn 32 content) 12 4)) (ntohl (sub (firstn 32 content) 20 4))
       (ntohl (sub (firstn 32 content) 24 4)) (ntohl (sub (firstn 32 content) 28 4)),
     mkFILE content 32).
Proof.
  intros Hs. unfold read_header, fread, fseek, fopen_rb. cbn [f_pos f_data].
  change (Z.to_nat 0) with 0%nat. cbn [skipn].
  change (sizeof_PSARCHEADER <=? 0) with false. cbv iota.
  destruct (Z.leb_spec sizeof_PSARCHEADER (len content)) as [H|H];
    [|unfold sizeof_PSARCHEADER in H; lia].
  reflexivity.
Qed.

(** C6, as amended. [read_header] does not look at the magic: it fails only
    when the file is shorter than the 32 bytes of the header, and with any
    four bytes in place of "PSAR" it succeeds and yields the archive
    description it yields for "PSAR". *)
Theorem C6_read_header_ignores_magic (ai : ARCHIVEINFO) (magic rest : bytes) :
  length magic = 4%nat -> 28 <= len rest ->
  fst (fst (read_header ai (fopen_rb (magic ++ rest)))) = 0
  /\ snd (fst (read_header ai (fopen_rb (magic ++ rest))))
     = snd (fst (read_header ai (fopen_rb (PSAR_magic ++ rest))))
  /\ (forall content : bytes,
         fst (fst (read_header ai (fopen_rb content))) = 1 <-> len content < 32).
Proof.
  intros Hm Hr.
  destruct magic as [|a [|b [|c [|d [|? ?]]]]]; try discriminate Hm.
  split; [|split].
  - rewrite read_header_long; [reflexivity|].
    unfold len in *. rewrite length_app. cbn [length]. lia.
  - unfold PSAR_magic.
    rewrite !read_header_long
      by (unfold len in *; rewrite length_app; cbn [length]; lia).
    reflexivity.
  - intros content. destruct (Z.lt_ge_cases (len content) 32) as [H|H].
    + rewrite read_header_short by exact H. cbn. tauto.
    + rewrite read_header_long by exact H. cbn. split; [discriminate|lia].
Qed.

Lemma C6_read_header_ignores_magic_witness :
  fst (fst (read_header archiveinfo0
              (fopen_rb ([88; 88; 88; 88] ++ skipn 4 hello_archive)))) = 0
  /\ snd (fst (read_header archiveinfo0
                 (fopen_rb ([88; 88; 88; 88] ++ skipn 4 hello_archive))))
     = snd (fst (read_header archiveinfo0
                   (fopen_rb (PSAR_magic ++ skipn 4 hello_archive))))
  /\ (forall content : bytes,
         fst (fst (read_header archiveinfo0 (fopen_rb content))) = 1
         <-> len content < 32).
Proof.
  apply (C6_read_header_ignores_magic archiveinfo0 [88; 88; 88; 88]
           (skipn 4 hello_archive)).
  - reflexivity.
  - vm_compute. discriminate.
Defined.

(** The archive of "hello.txt" with "XXXX" for magic: the header is read
    without error and the whole extraction succeeds. *)
Lemma C6_bad_magic_is_accepted :
  sub bad_magic_archive 0 4 <> PSAR_magic
  /\ fst (fst (read_header archiveinfo0 (fopen_rb bad_magic_archive))) = 0
  /\ match process_archive (E := model_external) config0 memory0 archiveinfo0
             (Some bad_magic_archive) 2 [] [] with
     | Some (ret, _, _, x) =>
       ret = 0 /\ fs_lookup (x_fs x) (fst hello_txt) = Some (RegularFile (snd hello_txt))
     | None => False
     end.
Proof. vm_compute. repeat split. discriminate. Qed.

(** ** The header tag (C7) *)

Lemma fwrite_header_kept (h buf : bytes) (f : FILE) :
  header_kept h f -> header_kept h (fwrite buf f).
Proof.
  intros (Hh & Hl & Hp). unfold fwrite. destruct buf as [|b buf].
  - repeat split; assumption.
  - unfold header_kept. cbn [f_data f_pos]. set (p := Z.to_nat (f_pos f)).
    assert (Hp' : (32 <= p)%nat) by (unfold p; lia).
    assert (Hf : (32 <= length (firstn p (f_data f)))%nat)
      by (rewrite length_firstn; lia).
    repeat split.
    + rewrite firstn_app.
      replace (32 - length (firstn p (f_data f)))%nat with 0%nat by lia.
      rewrite firstn_O, app_nil_r, firstn_firstn.
      replace (Nat.min 32 p) with 32%nat by lia. exact Hh.
    + rewrite length_app. lia.
    + pose proof (len_nonneg (b :: buf)). lia.
Qed.

Lemma fseek_header_kept (h : bytes) (f : FILE) (off : Z) :
  header_kept h f -> 32 <= off -> header_kept h (fseek f off).
Proof. intros (Hh & Hl & _) Ho. repeat split; assumption. Qed.

Ltac inv_bind H :=
  match type of H with
  | match ?a with Some _ => _ | None => None end = Some _ =>
    let E := fresh "E" in destruct a eqn:E; [|discriminate H]
  end.

Section HeaderKept.
Context {E : External}.
Variable cfg : CONFIG.
Variable ai : ARCHIVEINFO.
Variable h : bytes.

Lemma compress_entry_loop_header (blocks : nat) (input : bytes) :
  forall (input_fp : bool) (uncompressed bc bu : Z) (out : FILE) (table : list Z)
         (idx : Z) (bc' : Z) (out' : FILE) (table' : list Z) (idx' : Z),
    header_kept h out ->
    compress_entry_loop cfg ai blocks input input_fp uncompressed bc bu out table idx
    = Some (bc', out', table', idx') ->
    header_kept h out'.
Proof.
  induction blocks as [|blocks IH]; intros * Hk Hr; cbn [compress_entry_loop] in Hr.
  - injection Hr as <- <- <- <-. exact Hk.
  - destruct (scratch_holds _ _ _ _); [|discriminate Hr].
    inv_bind Hr. eapply IH; [|exact Hr]. apply fwrite_header_kept. exact Hk.
Qed.

Lemma compress_entry_header (input : bytes) (input_fp : bool) (i : Z)
    (st st' : PAK) :
  header_kept h (archive_file st) ->
  compress_entry cfg ai input input_fp i st = Some st' ->
  header_kept h (archive_file st').
Proof.
  intros Hk Hr. unfold compress_entry in Hr.
  inv_bind Hr. inv_bind Hr. destruct p as [[[bc out] table] idx].
  inv_bind Hr. injection Hr as <-. cbn [archive_file].
  eapply compress_entry_loop_header; eassumption.
Qed.

Lemma create_entries_sync_header (files : list (cstring * bytes)) :
  forall (i : Z) (st st' : PAK),
    header_kept h (archive_file st) ->
    create_entries_sync cfg ai files i st = Some st' ->
    header_kept h (archive_file st').
Proof.
  induction files as [|[path content] files IH]; intros * Hk Hr;
    cbn [create_entries_sync] in Hr.
  - injection Hr as <-. exact Hk.
  - inv_bind Hr. inv_bind Hr. eapply IH; [|exact Hr].
    eapply compress_entry_header; [|exact E1]. exact Hk.
Qed.

Lemma compress_entry_multi_file (input : bytes) (i : Z) (st st' : PAK)
    (tasks : list PAKDATA) :
  compress_entry_multi ai input i st = Some (tasks, st') ->
  archive_file st' = archive_file st.
Proof.
  intros Hr. unfold compress_entry_multi in Hr. inv_bind Hr.
  destruct (uncompressed_size f =? 0).
  - inv_bind Hr. injection Hr as <- <-. reflexivity.
  - destruct (block_size ai =? 0); [discriminate Hr|].
    destruct (compress_entry_multi_loop _ _ _ _ _ _ _ _) as [[t idx]|];
      [|discriminate Hr].
    injection Hr as <- <-. reflexivity.
Qed.

Lemma dispatch_entries_file (files : list (cstring * bytes)) :
  forall (i : Z) (st st' : PAK) (tasks : list PAKDATA),
    dispatch_entries ai files i st = Some (tasks, st') ->
    archive_file st' = archive_file st.
Proof.
  induction files as [|[path content] files IH]; intros * Hr;
    cbn [dispatch_entries] in Hr.
  - injection Hr as <- <-. reflexivity.
  - inv_bind Hr. inv_bind Hr. destruct p as [t st1].
    inv_bind Hr. destruct p as [t' st2]. injection Hr as <- <-.
    apply IH in E2. apply compress_entry_multi_file in E1.
    rewrite E2, E1. reflexivity.
Qed.

Lemma commit_tasks_header (tasks : list PAKDATA) :
  forall st st' : PAK,
    header_kept h (archive_file st) ->
    commit_tasks cfg ai tasks st = Some st' ->
    header_kept h (archive_file st').
Proof.
  induction tasks as [|pkd tasks IH]; intros * Hk Hr; cbn [commit_tasks] in Hr.
  - injection Hr as <-. exact Hk.
  - inv_bind Hr. eapply IH; [|exact Hr].
    unfold compress_entry_thread in E0.
    destruct (slot_holds_output _ _ _); [|discriminate E0].
    inv_bind E0. inv_bind E0.
    injection E0 as <-. cbn [archive_file]. apply fwrite_header_kept. exact Hk.
Qed.

Lemma write_toc_loop_header (n : nat) :
  forall (i : Z) (tbl : list FILEINFO) (f f' : FILE),
    header_kept h f ->
    write_toc_loop ai n i tbl f = Some f' ->
    header_kept h f'.
Proof.
  induction n as [|n IH]; intros * Hk Hr; cbn [write_toc_loop] in Hr.
  - injection Hr as <-. exact Hk.
  - inv_bind Hr. inv_bind Hr. eapply IH; [|exact Hr].
    apply fwrite_header_kept. exact Hk.
Qed.

Lemma write_blocktable_loop_header (w : Z) (n : nat) :
  forall (i : Z) (table : list Z) (f f' : FILE),
    header_kept h f ->
    write_blocktable_loop w n i table f = Some f' ->
    header_kept h f'.
Proof.
  induction n as [|n IH]; intros * Hk Hr; cbn [write_blocktable_loop] in Hr.
  - injection Hr as <-. exact Hk.
  - inv_bind Hr. eapply IH; [|exact Hr].
    apply fwrite_header_kept. exact Hk.
Qed.
End HeaderKept.

Lemma length_header_bytes {E : External} (ai : ARCHIVEINFO) :
  length (header_bytes ai) = 32%nat.
Proof. unfold header_bytes. destruct (compression_type ai =? PSARC_LZMA); reflexivity. Qed.

Lemma write_header_data {E : External} (ai : ARCHIVEINFO) :
  write_header ai fopen_wb = mkFILE (header_bytes ai) 32.
Proof.
  unfold write_header, fseek, fopen_wb, fwrite. cbn [f_data f_pos].
  pose proof (length_header_bytes ai) as Hl.
  destruct (header_bytes ai) as [|b hb] eqn:Eh; [discriminate Hl|].
  cbn [Z.to_nat firstn Nat.sub repeat app]. rewrite skipn_nil, app_nil_r.
  unfold len. rewrite Hl. reflexivity.
Qed.

Lemma write_header_kept {E : External} (ai : ARCHIVEINFO) :
  header_kept (header_bytes ai) (write_header ai fopen_wb).
Proof.
  rewrite write_header_data. unfold header_kept. cbn [f_data f_pos].
  pose proof (length_header_bytes ai) as Hl.
  repeat split; try lia.
  rewrite <- Hl. apply firstn_all.
Qed.

Lemma create_archive_header {E : External} (cfg : CONFIG) (mem0 : UNINIT)
    (ai ai' : ARCHIVEINFO) (output_exists : bool) (files : list (cstring * bytes))
    (f : FILE) :
  create_archive cfg mem0 ai output_exists files = Some (0, ai', Some f) ->
  firstn 32 (f_data f) = header_bytes ai'
  /\ compression_type ai' = compression_type ai
  /\ block_size ai' = block_size ai
  /\ archive_flags ai' = archive_flags ai.
Proof.
  unfold create_archive. intros H.
  destruct (negb (overwrite_flag cfg) && output_exists); [discriminate H|].
  destruct (block_size ai =? 0); [discriminate H|].
  inv_bind H. inv_bind H. destruct p as [bsize tbl].
  destruct (bsize =? 0); [discriminate H|].
  match type of H with
  | context [compress_entry cfg ?a _ _ _ _] => set (ai2 := a) in *
  end.
  inv_bind H. rename E2 into Hmanifest, p into st1.
  inv_bind H. rename E2 into Hentries, p into st2.
  inv_bind H. rename E2 into Htoc, f0 into f1.
  inv_bind H. rename E2 into Htable.
  injection H as <- <-.
  split; [|repeat split; reflexivity].
  assert (Hk0 : header_kept (header_bytes ai2)
                  (fseek (write_header ai2 fopen_wb) (toc_length ai2))).
  { apply fseek_header_kept; [apply write_header_kept|].
    subst ai2. cbn [toc_length set_toc]. unfold u64, u32, sizeof_PSARCHEADER, sizeof_PSARCTOC.
    set (entries := (_ + 1) mod 2 ^ 32).
    set (bt := (_ * _) mod 2 ^ 32).
    assert (0 <= entries < 2 ^ 32) by (apply Z.mod_pos_bound; lia).
    assert (0 <= bt < 2 ^ 32) by (apply Z.mod_pos_bound; lia).
    rewrite Z.mod_small; lia. }
  assert (Hk1 : header_kept (header_bytes ai2) (archive_file st1)).
  { eapply compress_entry_header; [|exact Hmanifest]. exact Hk0. }
  assert (Hk2 : header_kept (header_bytes ai2) (archive_file st2)).
  { destruct (num_threads cfg >? 0).
    - unfold create_entries_multi in Hentries. inv_bind Hentries.
      destruct p as [tasks st'].
      eapply commit_tasks_header; [|exact Hentries].
      apply dispatch_entries_file in E2. rewrite E2. exact Hk1.
    - eapply create_entries_sync_header; [|exact Hentries]. exact Hk1. }
  assert (Hk3 : header_kept (header_bytes ai2) f1).
  { unfold write_toc_table in Htoc. eapply write_toc_loop_header; [|exact Htoc].
    apply fseek_header_kept; [exact Hk2|]. unfold sizeof_PSARCHEADER. lia. }
  assert (Hk4 : header_kept (header_bytes ai2) f0).
  { unfold write_blocktable in Htable.
    eapply write_blocktable_loop_header; [|exact Htable]. exact Hk3. }
  apply Hk4.
Qed.

Lemma sub_firstn (l : bytes) (m off n : nat) :
  (off + n <= m)%nat -> sub (firstn m l) off n = sub l off n.
Proof.
  intros H. unfold sub. rewrite skipn_firstn_comm, firstn_firstn.
  replace (Nat.min n (m - off)) with n by lia. reflexivity.
Qed.

Lemma header_bytes_tag {E : External} (ai : ARCHIVEINFO) :
  sub (header_bytes ai) 8 4
  = if compression_type ai =? PSARC_LZMA then tag_lzma else tag_zlib.
Proof.
  unfold header_bytes. destruct (compression_type ai =? PSARC_LZMA); reflexivity.
Qed.

(** C7. The archive [create_archive] leaves carries the tag "lzma" at
    offset 8 exactly when the codec was LZMA, and "zlib" otherwise (store
    included); [read_header] maps the tag "lzma" to LZMA and every other
    tag to zlib, so a created archive reads back as LZMA exactly when it
    was created with LZMA. *)
Theorem C7_header_codec_tag {E : External} (cfg : CONFIG) (mem0 : UNINIT)
    (ai ai' : ARCHIVEINFO) (output_exists : bool)
    (files : list (cstring * bytes)) (f : FILE) :
  create_archive cfg mem0 ai output_exists files = Some (0, ai', Some f) ->
  sub (f_data f) 8 4
  = (if compression_type ai =? PSARC_LZMA then tag_lzma else tag_zlib)
  /\ (sub (f_data f) 8 4 = tag_lzma <-> compression_type ai = PSARC_LZMA)
  /\ (forall (ai0 : ARCHIVEINFO) (content : bytes),
         32 <= len content ->
         compression_type (snd (fst (read_header ai0 (fopen_rb content))))
         = if bytes_eqb (sub content 8 4) tag_lzma then PSARC_LZMA else PSARC_ZLIB)
  /\ (forall (ai0 : ARCHIVEINFO) (content : bytes),
         32 <= len content ->
         (sub content 8 4 = tag_lzma ->
          compression_type (snd (fst (read_header ai0 (fopen_rb content))))
          = PSARC_LZMA)
         /\ (sub content 8 4 <> tag_lzma ->
             compression_type (snd (fst (read_header ai0 (fopen_rb content))))
             = PSARC_ZLIB))
  /\ (forall ai0 : ARCHIVEINFO,
         compression_type (snd (fst (read_header ai0 (fopen_rb (f_data f)))))
         = if compression_type ai =? PSARC_LZMA then PSARC_LZMA else PSARC_ZLIB).
Proof.
  intros Hc. destruct (create_archive_header _ _ _ _ _ _ _ Hc) as (Hh & Hct & _ & _).
  assert (Htag : sub (f_data f) 8 4
                 = if compression_type ai =? PSARC_LZMA then tag_lzma else tag_zlib).
  { rewrite <- (sub_firstn (f_data f) 32) by lia.
    rewrite Hh, header_bytes_tag, Hct. reflexivity. }
  assert (Hread : forall (ai0 : ARCHIVEINFO) (content : bytes),
             32 <= len content ->
             compression_type (snd (fst (read_header ai0 (fopen_rb content))))
             = if bytes_eqb (sub content 8 4) tag_lzma
               then PSARC_LZMA else PSARC_ZLIB).
  { intros ai0 content Hl. rewrite read_header_long by exact Hl.
    cbn [fst snd compression_type]. rewrite sub_firstn by lia. reflexivity. }
  assert (Hlen : 32 <= len (f_data f)).
  { assert (length (firstn 32 (f_data f)) = 32%nat) as Hl32
        by (rewrite Hh; apply length_header_bytes).
    rewrite length_firstn in Hl32. unfold len. lia. }
  split; [exact Htag|]. split; [|split; [exact Hread|split]].
  - rewrite Htag. destruct (Z.eqb_spec (compression_type ai) PSARC_LZMA) as [He|He].
    + tauto.
    + split; [discriminate|]. intros H. contradiction.
  - intros ai0 content Hl. rewrite (Hread ai0 content Hl). split; intros Hs.
    + rewrite Hs. reflexivity.
    + destruct (bytes_eqb (sub content 8 4) tag_lzma) eqn:Eb; [|reflexivity].
      apply bytes_eqb_eq in Eb. contradiction.
  - intros ai0. rewrite (Hread ai0 _ Hlen), Htag.
    destruct (compression_type ai =? PSARC_LZMA); reflexivity.
Qed.

(** "hello.txt" archived with the LZMA codec: the tag is "lzma". *)
Lemma C7_header_codec_tag_witness :
  sub (f_data (snd (created config0 ai_lzma [hello_txt]))) 8 4 = tag_lzma.
Proof.
  exact (proj1 (C7_header_codec_tag (E := model_external) config0 memory0 ai_lzma
                  (fst (created config0 ai_lzma [hello_txt])) false [hello_txt]
                  (snd (created config0 ai_lzma [hello_txt])) eq_refl)).
Defined.

(** ** Block-table consistency (C4) *)

Lemma blocks_of_0 (bs : Z) : 1 <= bs -> blocks_of bs 0 = 0.
Proof. intros H. unfold blocks_of. apply Z.div_small. lia. Qed.

Lemma blocks_of_nonneg (bs r : Z) : 1 <= bs -> 0 <= r -> 0 <= blocks_of bs r.
Proof. intros Hb Hr. unfold blocks_of. apply Z.div_pos; lia. Qed.

Lemma blocks_of_step (bs r : Z) :
  1 <= bs -> 0 < r ->
  blocks_of bs r = 1 + blocks_of bs (r - (if r <? bs then r else bs)).
Proof.
  intros Hb Hr. unfold blocks_of. destruct (Z.ltb_spec r bs) as [H|H].
  - replace (r - r + bs - 1) with (bs - 1) by lia.
    rewrite (Z.div_small (bs - 1)) by lia.
    replace (r + bs - 1) with (1 * bs + (r - 1)) by lia.
    rewrite Z.div_add_l by lia. rewrite Z.div_small by lia. reflexivity.
  - replace (r + bs - 1) with (1 * bs + (r - bs + bs - 1)) by lia.
    rewrite Z.div_add_l by lia. reflexivity.
Qed.

Lemma blocks_of_le (bs r : Z) : 1 <= bs -> 0 <= r -> blocks_of bs r <= r.
Proof.
  intros Hb Hr. unfold blocks_of.
  destruct (Z.eq_dec r 0) as [->|Hn]; [rewrite Z.div_small; lia|].
  apply Z.div_le_upper_bound; nia.
Qed.

Lemma load_skipn {A : Type} (l : list A) (i : Z) (x : A) :
  load l i = Some x ->
  0 <= i /\ i < len l /\ skipn (Z.to_nat i) l = x :: skipn (Z.to_nat (i + 1)) l.
Proof.
  unfold load. destruct (Z.ltb_spec i 0) as [H|H]; [discriminate|]. intros Hn.
  assert (Hlt : (Z.to_nat i < length l)%nat) by (apply nth_error_Some; congruence).
  split; [exact H|]. split; [unfold len; lia|].
  replace (Z.to_nat (i + 1)) with (S (Z.to_nat i)) by lia.
  revert Hn. generalize (Z.to_nat i) as n. clear. intros n. revert l.
  induction n as [|n IH]; intros [|y l] Hn; try discriminate.
  - injection Hn as ->. reflexivity.
  - cbn [nth_error] in Hn. cbn [skipn]. apply IH. exact Hn.
Qed.

Lemma load_in_range {A : Type} (l : list A) (i : Z) :
  0 <= i < len l -> exists x, load l i = Some x.
Proof.
  intros [H0 H1]. unfold load. destruct (Z.ltb_spec i 0) as [H|H]; [lia|].
  destruct (nth_error l (Z.to_nat i)) as [x|] eqn:En; [exists x; reflexivity|].
  apply nth_error_None in En. unfold len in H1. lia.
Qed.

Lemma load_Forall {A : Type} (P : A -> Prop) (l : list A) (i : Z) (x : A) :
  Forall P l -> load l i = Some x -> P x.
Proof.
  intros HF Hl. unfold load in Hl. destruct (i <? 0); [discriminate|].
  apply nth_error_In in Hl. rewrite Forall_forall in HF. apply HF. exact Hl.
Qed.

Lemma firstn_succ_cons {A : Type} (k : Z) (x : A) (l : list A) :
  0 <= k -> firstn (Z.to_nat (1 + k)) (x :: l) = x :: firstn (Z.to_nat k) l.
Proof.
  intros Hk. replace (Z.to_nat (1 + k)) with (S (Z.to_nat k)) by lia. reflexivity.
Qed.

Lemma get_compressed_size_loop_sum (ai : ARCHIVEINFO) (table : list Z) :
  1 <= block_size ai < 2 ^ 32 ->
  len table < 2 ^ 32 ->
  Forall (fun slot => 0 <= slot < 2 ^ 32) table ->
  forall (blocks : nat) (index acc : Z),
    0 <= index -> index + Z.of_nat blocks <= len table ->
    0 <= acc -> acc + 2 ^ 32 * Z.of_nat blocks <= 2 ^ 64 ->
    get_compressed_size_loop blocks table (block_size ai) index acc
    = Some (acc + sum (map (resolve ai) (firstn blocks (skipn (Z.to_nat index) table)))).
Proof.
  intros Hb Hl HF. induction blocks as [|blocks IH]; intros index acc Hi Hr Ha Hacc.
  - cbn. f_equal. lia.
  - cbn [get_compressed_size_loop].
    destruct (load_in_range table index) as [slot Hs]; [lia|].
    rewrite Hs. destruct (load_skipn _ _ _ Hs) as (_ & _ & Hsk).
    pose proof (load_Forall _ _ _ _ HF Hs) as Hslot. cbv beta in Hslot.
    rewrite Hsk. cbn [firstn map sum].
    assert (Hres : (if slot =? 0 then u32 (block_size ai) else slot) = resolve ai slot).
    { unfold resolve, u32. rewrite Z.mod_small by lia. reflexivity. }
    rewrite Hres.
    assert (Hrb : 0 < resolve ai slot < 2 ^ 32).
    { unfold resolve. destruct (Z.eqb_spec slot 0); lia. }
    unfold u32 at 1. rewrite (Z.mod_small (index + 1)) by lia.
    unfold u64. rewrite Z.mod_small by lia.
    rewrite IH by lia. f_equal. lia.
Qed.

Lemma decompress_block_archive {E : External} (src : bytes)
    (bytes_read chunk_size at_off : Z) (archive : FILE) (st st' : UNPAK) :
  decompress_block src bytes_read chunk_size at_off archive st = Some (Some st') ->
  u_archive st' = archive.
Proof.
  unfold decompress_block. intros H.
  repeat match type of H with
         | (if ?c then _ else _) = _ => destruct c
         | match ?a with _ => _ end = _ => destruct a
         end;
    try discriminate H; injection H as <-; reflexivity.
Qed.

Lemma fread_pos (size : Z) (f : FILE) (n : Z) (got : bytes) (f' : FILE) :
  fread size f = (n, got, f') -> n * size = size -> 0 < size ->
  f_pos f' = f_pos f + size /\ f_data f' = f_data f /\ len got = size
  /\ got = firstn (Z.to_nat size) (skipn (Z.to_nat (f_pos f)) (f_data f)).
Proof.
  unfold fread. intros H Hn Hs.
  destruct (Z.leb_spec size 0) as [H0|H0]; [lia|].
  destruct (Z.leb_spec size (len (skipn (Z.to_nat (f_pos f)) (f_data f)))) as [H1|H1].
  - injection H as <- <- <-. cbn [f_pos f_data]. repeat split.
    unfold len in *. rewrite length_firstn. lia.
  - injection H as <- <- <-. lia.
Qed.

Lemma decompress_entry_loop_consumed {E : External} (ai : ARCHIVEINFO)
    (buffer_size : Z) (table : list Z) (uncompressed : Z) :
  1 <= block_size ai < 2 ^ 32 ->
  len table < 2 ^ 32 ->
  Forall (fun slot => 0 <= slot < 2 ^ 32) table ->
  forall (fuel : nat) (remaining chunk open_block : Z) (st st' : UNPAK),
    0 <= remaining ->
    (0 < remaining -> chunk = block_size ai) ->
    0 <= open_block ->
    open_block + blocks_of (block_size ai) remaining <= len table ->
    decompress_entry_loop fuel buffer_size table uncompressed remaining chunk
                          open_block st = Some (0, st') ->
    f_pos (u_archive st')
    = f_pos (u_archive st)
      + sum (map (resolve ai)
                 (firstn (Z.to_nat (blocks_of (block_size ai) remaining))
                         (skipn (Z.to_nat open_block) table))).
Proof.
  intros Hb Hl HF. induction fuel as [|fuel IH];
    intros remaining chunk open_block st st' Hr Hc Ho Hin Hrun;
    cbn [decompress_entry_loop] in Hrun.
  - destruct (Z.leb_spec remaining 0) as [H0|H0]; [|discriminate Hrun].
    injection Hrun as <-. replace remaining with 0 by lia.
    rewrite blocks_of_0 by lia. cbn. lia.
  - destruct (Z.leb_spec remaining 0) as [H0|H0].
    { injection Hrun as <-. replace remaining with 0 by lia.
      rewrite blocks_of_0 by lia. cbn. lia. }
    rewrite (Hc H0) in Hrun.
    pose proof (blocks_of_step (block_size ai) remaining) as Hstep.
    pose proof (blocks_of_nonneg (block_size ai)
                  (remaining - (if remaining <? block_size ai
                                then remaining else block_size ai))) as Hnn.
    assert (Hrem' : 0 <= remaining - (if remaining <? block_size ai
                                      then remaining else block_size ai))
      by (destruct (Z.ltb_spec remaining (block_size ai)); lia).
    specialize (Hstep ltac:(lia) H0). specialize (Hnn ltac:(lia) Hrem').
    inv_bind Hrun. rename z into slot.
    destruct (load_skipn _ _ _ E0) as (_ & Hlt & Hsk).
    pose proof (load_Forall _ _ _ _ HF E0) as Hslot. cbv beta in Hslot.
    assert (Hres : (if slot =? 0 then u32 (block_size ai) else slot) = resolve ai slot).
    { unfold resolve, u32. rewrite Z.mod_small by lia. reflexivity. }
    rewrite Hres in Hrun.
    assert (Hrb : 0 < resolve ai slot < 2 ^ 32).
    { unfold resolve. destruct (Z.eqb_spec slot 0); lia. }
    destruct (fread (resolve ai slot) (u_archive st)) as [[n got] archive] eqn:Ef.
    destruct (len got >? buffer_size); [discriminate Hrun|].
    destruct (Z.eqb_spec (n * resolve ai slot) (resolve ai slot)) as [Hn|Hn];
      cbn [negb] in Hrun; [|discriminate Hrun].
    destruct (fread_pos _ _ _ _ _ Ef Hn) as (Hp & _); [lia|].
    destruct (decompress_block _ _ _ _ _ _) as [[st1|]|] eqn:Ed; try discriminate Hrun.
    apply decompress_block_archive in Ed.
    unfold u32 in Hrun. rewrite (Z.mod_small (open_block + 1)) in Hrun by lia.
    apply IH in Hrun; try lia.
    + rewrite Hrun, Ed, Hp, Hstep, Hsk, firstn_succ_cons by lia.
      cbn [map sum]. lia.
    + intros Hpos. destruct (Z.ltb_spec remaining (block_size ai)); [lia|reflexivity].
Qed.

(** C4. For an entry whose slots lie in the block table, the sum of the
    slots, 0 read as [block_size], is the value [get_compressed_size]
    returns and the number of archive bytes a successful
    [decompress_entry] consumes from the entry's offset. *)
Theorem C4_block_table_consistency {E : External} (ai : ARCHIVEINFO)
    (fi : FILEINFO) (table : list Z) :
  entry_in_table ai fi table ->
  get_compressed_size ai fi table = Some (sum_of_resolved ai fi table)
  /\ (forall (buffer_size : Z) (st st' : UNPAK),
         decompress_entry ai buffer_size fi table st = Some (0, st') ->
         f_pos (u_archive st') = offset fi + sum_of_resolved ai fi table).
Proof.
  intros (Hb & Hu & Hi & Hin & Hl & HF).
  unfold sum_of_resolved, entry_slots, block_count in *. split.
  - unfold get_compressed_size.
    destruct (Z.eqb_spec (uncompressed_size fi) 0) as [H0|H0].
    + rewrite H0, blocks_of_0 by lia. reflexivity.
    + destruct (Z.eqb_spec (block_size ai) 0) as [Hz|Hz]; [lia|].
      pose proof (blocks_of_nonneg (block_size ai) (uncompressed_size fi)
                    ltac:(lia) ltac:(lia)) as Hnn.
      assert (Hcount : u32 (u64 (uncompressed_size fi + block_size ai - 1)
                            / block_size ai)
                       = blocks_of (block_size ai) (uncompressed_size fi)).
      { unfold u32, u64, blocks_of in *. rewrite (Z.mod_small (_ + _ - 1)) by lia.
        apply Z.mod_small. lia. }
      rewrite Hcount.
      rewrite get_compressed_size_loop_sum with (ai := ai); try assumption; try lia.
      reflexivity.
  - intros buffer_size st st' Hrun. unfold decompress_entry in Hrun.
    apply decompress_entry_loop_consumed with (ai := ai) in Hrun;
      try assumption; try lia; try (intros _; reflexivity).
Qed.

(** 40 bytes in blocks of 16 with the slots 0, 16, 8: the compressed size is
    40, and extraction succeeds having consumed 40 bytes. *)
Lemma C4_block_table_consistency_witness :
  get_compressed_size ai_16 fi_40 table_40 = Some 40
  /\ exists st' : UNPAK,
       decompress_entry (E := model_external) ai_16 32 fi_40 table_40 unpak_40
       = Some (0, st')
       /\ f_pos (u_archive st') = 40.
Proof.
  assert (Hin : entry_in_table ai_16 fi_40 table_40).
  { unfold entry_in_table. cbn. repeat split; try lia.
    repeat constructor; lia. }
  destruct (C4_block_table_consistency (E := model_external) ai_16 fi_40 table_40 Hin)
    as [Hsize Hrun].
  split; [exact Hsize|].
  eexists. split; [vm_compute; reflexivity|].
  apply (Hrun 32 unpak_40). vm_compute. reflexivity.
Defined.

(** ** Lists as arrays *)

Lemma store_nat_spec {A : Type} (l : list A) (i : nat) (v : A) :
  (i < length l)%nat ->
  store_nat l i v = Some (firstn i l ++ v :: skipn (S i) l).
Proof.
  revert i. induction l as [|x l IH]; intros [|i] Hi; cbn in Hi; try lia.
  - reflexivity.
  - cbn [store_nat firstn skipn app]. rewrite IH by lia. reflexivity.
Qed.

Lemma store_nat_none {A : Type} (l : list A) (i : nat) (v : A) :
  (length l <= i)%nat -> store_nat l i v = None.
Proof.
  revert i. induction l as [|x l IH]; intros [|i] Hi; cbn in Hi; try lia;
    try reflexivity.
  cbn [store_nat]. rewrite IH by lia. reflexivity.
Qed.

Lemma store_spec {A : Type} (l : list A) (i : Z) (v : A) :
  0 <= i < len l ->
  store l i v = Some (firstn (Z.to_nat i) l ++ v :: skipn (S (Z.to_nat i)) l).
Proof.
  intros [H0 H1]. unfold store. destruct (Z.ltb_spec i 0); [lia|].
  apply store_nat_spec. unfold len in H1. lia.
Qed.

Lemma store_inv {A : Type} (l l' : list A) (i : Z) (v : A) :
  store l i v = Some l' ->
  0 <= i < len l /\ l' = firstn (Z.to_nat i) l ++ v :: skipn (S (Z.to_nat i)) l.
Proof.
  intros H. assert (Hr : 0 <= i < len l).
  { unfold store in H. destruct (Z.ltb_spec i 0); [discriminate|].
    destruct (Z.lt_ge_cases i (len l)) as [Hl|Hl]; [lia|].
    rewrite store_nat_none in H by (unfold len in Hl; lia). discriminate. }
  split; [exact Hr|]. rewrite store_spec in H by exact Hr. congruence.
Qed.

Lemma store_len {A : Type} (l l' : list A) (i : Z) (v : A) :
  store l i v = Some l' -> len l' = len l.
Proof.
  intros H. apply store_inv in H. destruct H as [Hr ->].
  unfold len in *. rewrite length_app. cbn [length].
  rewrite length_firstn, length_skipn. lia.
Qed.

Lemma load_spec {A : Type} (l : list A) (i : Z) :
  0 <= i -> load l i = nth_error l (Z.to_nat i).
Proof. intros H. unfold load. destruct (Z.ltb_spec i 0); [lia|reflexivity]. Qed.

Lemma load_store_same {A : Type} (l l' : list A) (i : Z) (v : A) :
  store l i v = Some l' -> load l' i = Some v.
Proof.
  intros H. apply store_inv in H. destruct H as [Hr ->].
  rewrite load_spec by lia. rewrite nth_error_app2 by (rewrite length_firstn; lia).
  rewrite length_firstn. unfold len in Hr.
  replace (Z.to_nat i - Nat.min (Z.to_nat i) (length l))%nat with 0%nat by lia.
  reflexivity.
Qed.

Lemma load_store_other {A : Type} (l l' : list A) (i j : Z) (v : A) :
  store l i v = Some l' -> i <> j -> load l' j = load l j.
Proof.
  intros H Hne. apply store_inv in H. destruct H as [Hr ->].
  unfold load. destruct (Z.ltb_spec j 0); [reflexivity|].
  unfold len in Hr.
  destruct (Nat.lt_ge_cases (Z.to_nat j) (Z.to_nat i)) as [Hlt|Hge].
  - rewrite nth_error_app1 by (rewrite length_firstn; lia).
    rewrite nth_error_firstn.
    destruct (Nat.ltb_spec (Z.to_nat j) (Z.to_nat i)); [reflexivity|lia].
  - rewrite nth_error_app2 by (rewrite length_firstn; lia).
    rewrite length_firstn.
    replace (Z.to_nat j - Nat.min (Z.to_nat i) (length l))%nat
      with (S (Z.to_nat j - S (Z.to_nat i)))%nat by lia.
    cbn [nth_error]. rewrite nth_error_skipn. f_equal. lia.
Qed.

(** ** Empty entries (C10) *)

Lemma load_store_exists {A : Type} (l : list A) (i : Z) (x v : A) :
  load l i = Some x -> exists l', store l i v = Some l'.
Proof.
  intros H. destruct (load_skipn _ _ _ H) as (H0 & H1 & _).
  eexists. apply store_spec. lia.
Qed.

(** C10. An entry of size 0 has no block: both creation paths write no
    archive byte and no block-table slot for it and set its compressed
    size to 0 (the synchronous path also records offset and block index);
    [get_compressed_size] returns 0 for it, and [decompress_entry] succeeds
    after its seek without reading anything. *)
Theorem C10_empty_entry {E : External} (cfg : CONFIG) (ai : ARCHIVEINFO)
    (fi : FILEINFO) :
  uncompressed_size fi = 0 ->
  1 <= block_size ai < 2 ^ 32 ->
  (forall (input : bytes) (input_fp : bool) (i : Z) (st : PAK),
      load (files_info_table st) i = Some fi ->
      num_blocks fi
      = u32 (u64 (uncompressed_size fi + block_size ai - 1) / block_size ai) ->
      0 <= total_size st < 2 ^ 64 ->
      exists tbl : list FILEINFO,
        compress_entry cfg ai input input_fp i st
        = Some (mkPAK (archive_file st) (total_size st) (blocktable st)
                      (blocktable_idx st) tbl)
        /\ load tbl i
           = Some (set_compressed_size
                     (set_block_index (set_offset fi (total_size st))
                                      (blocktable_idx st)) 0))
  /\ (forall (input : bytes) (i : Z) (st : PAK),
         load (files_info_table st) i = Some fi ->
         exists tbl : list FILEINFO,
           compress_entry_multi ai input i st
           = Some ([], mkPAK (archive_file st) (total_size st) (blocktable st)
                             (blocktable_idx st) tbl)
           /\ load tbl i = Some (set_compressed_size fi 0))
  /\ (forall table : list Z, get_compressed_size ai fi table = Some 0)
  /\ (forall (buffer_size : Z) (table : list Z) (st : UNPAK),
         decompress_entry ai buffer_size fi table st
         = Some (0, mkUNPAK (fseek (u_archive st) (offset fi)) (u_sink st)
                            (u_target st))).
Proof.
  intros Hu Hb. split; [|split; [|split]].
  - intros input input_fp i st Hl Hn Ht. unfold compress_entry. rewrite Hl.
    cbn [num_blocks set_block_index set_offset uncompressed_size].
    rewrite Hn, Hu. unfold u64 at 1.
    rewrite (Z.mod_small (0 + block_size ai - 1)) by lia.
    rewrite (Z.div_small (0 + block_size ai - 1)) by lia.
    change (Z.to_nat (u32 0)) with 0%nat. cbn [compress_entry_loop].
    destruct (load_store_exists _ _ _
                (set_compressed_size
                   (set_block_index (set_offset fi (total_size st))
                                    (blocktable_idx st)) 0) Hl) as [tbl Hs].
    rewrite Hs. exists tbl. split.
    + unfold u64. rewrite Z.add_0_r, Z.mod_small by lia. reflexivity.
    + apply (load_store_same _ _ _ _ Hs).
  - intros input i st Hl. unfold compress_entry_multi. rewrite Hl, Hu.
    cbn [Z.eqb].
    destruct (load_store_exists _ _ _ (set_compressed_size fi 0) Hl) as [tbl Hs].
    rewrite Hs. exists tbl. split; [reflexivity|].
    apply (load_store_same _ _ _ _ Hs).
  - intros table. unfold get_compressed_size. rewrite Hu. reflexivity.
  - intros buffer_size table st. unfold decompress_entry. rewrite Hu.
    cbn [decompress_entry_loop Z.leb Z.compare]. reflexivity.
Qed.

(** The empty file "e" after 27 bytes and 2 slots: nothing is written. *)
Lemma C10_empty_entry_witness :
  (exists tbl : list FILEINFO,
      compress_entry (E := model_external) config0 archiveinfo0 [] true 2 pak_27
      = Some (mkPAK (archive_file pak_27) 27 [21; 6; 0] 2 tbl)
      /\ load tbl 2 = Some (mkFILEINFO [] (Some [101]) 27 2 0 0 0))
  /\ get_compressed_size archiveinfo0 fi_empty [21; 6; 0] = Some 0.
Proof.
  destruct (C10_empty_entry (E := model_external) config0 archiveinfo0 fi_empty
              eq_refl ltac:(cbn; lia)) as (Hsync & _ & Hsize & _).
  split; [|apply Hsize].
  apply (Hsync [] true 2 pak_27); [reflexivity|reflexivity|cbn; lia].
Defined.

(** ** The block loop of the writer (C2) *)

Lemma compress_block_fallback {E : External} (cfg : CONFIG) (ai : ARCHIVEINFO)
    (blk : bytes) :
  compress_block cfg ai blk = fallback (encoder_output cfg ai blk) blk.
Proof.
  unfold compress_block, encoder_output, fallback.
  destruct (compression_type ai =? PSARC_ZLIB); [reflexivity|].
  destruct (compression_type ai =? PSARC_LZMA); [reflexivity|].
  destruct (Z.geb_spec (len blk) (len blk)); [reflexivity|lia].
Qed.

Lemma compress_block_thread_fallback {E : External} (cfg : CONFIG)
    (ai : ARCHIVEINFO) (blk : bytes) :
  compress_block_thread cfg ai blk = fallback (encoder_output_thread cfg ai blk) blk.
Proof.
  unfold compress_block_thread, encoder_output_thread, fallback.
  destruct (compression_type ai =? PSARC_ZLIB); [reflexivity|].
  destruct (compression_type ai =? PSARC_LZMA); [reflexivity|].
  destruct (Z.geb_spec (len blk) (len blk)); [reflexivity|lia].
Qed.

Lemma fallback_min (out blk : bytes) :
  len (fallback (Some out) blk) = Z.min (len out) (len blk)
  /\ (len out >= len blk -> fallback (Some out) blk = blk)
  /\ (len out < len blk -> fallback (Some out) blk = out).
Proof.
  unfold fallback. destruct (Z.geb_spec (len out) (len blk)); repeat split; lia.
Qed.

Lemma fallback_le (encoded : option bytes) (blk : bytes) :
  len (fallback encoded blk) <= len blk.
Proof.
  destruct encoded as [out|]; [|cbn; lia].
  destruct (fallback_min out blk) as (H & _). lia.
Qed.

Lemma skipn_skipn_Z (a b : Z) (l : bytes) :
  0 <= a -> 0 <= b ->
  skipn (Z.to_nat b) (skipn (Z.to_nat a) l) = skipn (Z.to_nat (a + b)) l.
Proof.
  intros Ha Hb. rewrite skipn_skipn. f_equal. lia.
Qed.

Lemma len_skipn (l : bytes) (a : Z) :
  0 <= a <= len l -> len (skipn (Z.to_nat a) l) = len l - a.
Proof. intros H. unfold len in *. rewrite length_skipn. lia. Qed.

Lemma len_firstn (l : bytes) (a : Z) :
  0 <= a <= len l -> len (firstn (Z.to_nat a) l) = a.
Proof. intros H. unfold len in *. rewrite length_firstn. lia. Qed.

Lemma blocks_of_1 (bs r : Z) : 1 <= bs -> blocks_of bs r = 1 -> 0 < r <= bs.
Proof.
  intros Hb H. unfold blocks_of in H.
  pose proof (Z.mul_div_le (r + bs - 1) bs ltac:(lia)) as H1.
  pose proof (Z.mul_succ_div_gt (r + bs - 1) bs ltac:(lia)) as H2.
  rewrite H in H1, H2. lia.
Qed.

Lemma blocks_of_many (bs r : Z) : 1 <= bs -> 2 <= blocks_of bs r -> bs < r.
Proof.
  intros Hb H. unfold blocks_of in H.
  destruct (Z.lt_ge_cases bs r) as [Hlt|Hge]; [exact Hlt|].
  assert ((r + bs - 1) / bs < 2); [|lia].
  apply Z.div_lt_upper_bound; lia.
Qed.

(** The bytes the block loop reads for its next block are the next slice
    of the input. *)
Lemma next_block_slice (ai : ARCHIVEINFO) (blocks' : nat) (input : bytes) (bu : Z) :
  1 <= block_size ai ->
  0 <= bu <= len input -> len input < 2 ^ 64 ->
  Z.of_nat (S blocks') = blocks_of (block_size ai) (len input - bu) ->
  let last := match blocks' with O => true | S _ => false end in
  let to_read := next_to_read ai last (len input) bu in
  read_input input bu to_read
  = firstn (Z.to_nat (block_size ai)) (skipn (Z.to_nat bu) input)
  /\ len (read_input input bu to_read)
     = (if len input - bu <? block_size ai then len input - bu else block_size ai)
  /\ 0 < len (read_input input bu to_read) <= block_size ai.
Proof.
  intros Hb Hbu Hlen Hn. cbv zeta. unfold next_to_read, read_input.
  pose proof (len_skipn input bu Hbu) as Hsk.
  destruct blocks' as [|blocks''].
  - apply eq_sym, blocks_of_1 in Hn; [|lia].
    unfold u64. rewrite Z.mod_small by lia.
    destruct (Z.gtb_spec (len input - bu) (block_size ai)) as [Hg|Hg]; [lia|].
    assert (Hall : forall n : nat,
               (length (skipn (Z.to_nat bu) input) <= n)%nat ->
               firstn n (skipn (Z.to_nat bu) input) = skipn (Z.to_nat bu) input)
      by (intros n Hn'; apply firstn_all2; exact Hn').
    rewrite !Hall by (unfold len in *; lia). rewrite Hsk.
    destruct (Z.ltb_spec (len input - bu) (block_size ai)); repeat split; lia.
  - assert (Hmany : block_size ai < len input - bu)
      by (apply blocks_of_many; lia).
    rewrite len_firstn by lia.
    destruct (Z.ltb_spec (len input - bu) (block_size ai)); repeat split; lia.
Qed.

Lemma with_slots_nil (table : list Z) (idx : Z) :
  with_slots table idx [] = table.
Proof.
  unfold with_slots. cbn [app length]. rewrite Nat.add_0_r. apply firstn_skipn.
Qed.

Lemma with_slots_cons (table t1 : list Z) (idx v : Z) (vals : list Z) :
  store table idx v = Some t1 ->
  with_slots t1 (idx + 1) vals = with_slots table idx (v :: vals).
Proof.
  intros Hs. apply store_inv in Hs. destruct Hs as [Hr ->].
  unfold with_slots, len in *.
  replace (Z.to_nat (idx + 1)) with (S (Z.to_nat idx)) by lia.
  set (n := Z.to_nat idx) in *.
  assert (Hn : (n < length table)%nat) by lia.
  assert (Hf : length (firstn n table) = n) by (rewrite length_firstn; lia).
  rewrite firstn_app, Hf.
  replace (S n - n)%nat with 1%nat by lia.
  rewrite (firstn_all2 (n := S n) (firstn n table)) by lia.
  cbn [firstn].
  rewrite skipn_app, Hf.
  rewrite (skipn_all2 (n := (S n + length vals)%nat) (firstn n table)) by lia.
  replace (S n + length vals - n)%nat with (S (length vals)) by lia.
  change (skipn (S (length vals)) (v :: skipn (S n) table))
    with (skipn (length vals) (skipn (S n) table)).
  rewrite skipn_skipn. cbn [app length].
  rewrite <- app_assoc. cbn [app]. do 4 f_equal. lia.
Qed.

Lemma with_slots_len (table : list Z) (idx : Z) (vals : list Z) :
  0 <= idx -> idx + len vals <= len table ->
  len (with_slots table idx vals) = len table.
Proof.
  intros H0 H1. unfold with_slots, len in *.
  rewrite !length_app, length_firstn, length_skipn. lia.
Qed.

Section BlockLoop.
Context {E : External}.
Variable cfg : CONFIG.
Variable ai : ARCHIVEINFO.
Hypothesis block_size_pos : 1 <= block_size ai.

Lemma compress_entry_loop_spec (input : bytes) (input_fp : bool)
    (Hlen : len input < 2 ^ 64) :
  forall (blocks : nat) (bc bu : Z) (out : FILE) (table : list Z) (idx : Z),
    0 <= bu <= len input ->
    Z.of_nat blocks = blocks_of (block_size ai) (len input - bu) ->
    0 <= idx -> idx + Z.of_nat blocks <= len table -> len table < 2 ^ 32 ->
    forallb (scratch_holds cfg ai input_fp)
            (split_blocks blocks (block_size ai) (skipn (Z.to_nat bu) input))
    = true ->
    let emitted := map (compress_block cfg ai)
                       (split_blocks blocks (block_size ai)
                                     (skipn (Z.to_nat bu) input)) in
    compress_entry_loop cfg ai blocks input input_fp (len input) bc bu out table idx
    = Some (bc + sum (map len emitted), fwrite_all emitted out,
            with_slots table idx (map (fun b => u32 (len b)) emitted),
            idx + Z.of_nat blocks).
Proof.
  induction blocks as [|blocks' IH]; intros bc bu out table idx Hbu Hn Hi Hr Ht Hg;
    cbv zeta.
  - cbn [compress_entry_loop split_blocks map sum fwrite_all fold_left].
    rewrite with_slots_nil.
    replace (bc + 0) with bc by lia.
    replace (idx + Z.of_nat 0) with idx by lia. reflexivity.
  - cbn [compress_entry_loop].
    destruct (next_block_slice ai blocks' input bu block_size_pos Hbu Hlen Hn)
      as (Hslice & Hlenr & Hpos).
    cbv zeta in Hslice, Hlenr, Hpos. rewrite Hslice in *.
    cbn [split_blocks forallb] in Hg. apply andb_prop in Hg.
    destruct Hg as [Hg1 Hg2].
    set (blk := firstn (Z.to_nat (block_size ai)) (skipn (Z.to_nat bu) input)) in *.
    rewrite Hg1.
    destruct (load_in_range table idx ltac:(lia)) as [old Hold].
    destruct (load_store_exists _ _ _ (u32 (len (compress_block cfg ai blk))) Hold)
      as [t1 Hs].
    rewrite Hs.
    assert (Hrpos : 0 < len input - bu)
      by (destruct (Z.ltb_spec (len input - bu) (block_size ai)); lia).
    assert (Hstep := blocks_of_step (block_size ai) (len input - bu)
                       block_size_pos Hrpos).
    unfold u32 at 1. rewrite (Z.mod_small (idx + 1)) by lia.
    assert (Hs' := store_len _ _ _ _ Hs).
    assert (Hsplit :
              split_blocks blocks' (block_size ai) (skipn (Z.to_nat (bu + len blk)) input)
              = split_blocks blocks' (block_size ai)
                  (skipn (Z.to_nat (block_size ai)) (skipn (Z.to_nat bu) input))).
    { destruct blocks' as [|b]; [reflexivity|].
      assert (block_size ai < len input - bu) by (apply blocks_of_many; lia).
      rewrite skipn_skipn_Z by lia.
      destruct (Z.ltb_spec (len input - bu) (block_size ai)); [lia|].
      rewrite Hlenr. reflexivity. }
    rewrite IH;
      try (rewrite ?Hlenr;
           destruct (Z.ltb_spec (len input - bu) (block_size ai)); lia);
      try (rewrite Hsplit; exact Hg2).
    + cbn [split_blocks map sum fwrite_all fold_left]. fold blk.
      rewrite Hsplit.
      rewrite (with_slots_cons _ _ _ _ _ Hs).
      unfold fwrite_all.
      replace (idx + 1 + Z.of_nat blocks') with (idx + Z.of_nat (S blocks')) by lia.
      rewrite Z.add_assoc. reflexivity.
    + rewrite Hlenr.
      replace (len input - (bu + (if len input - bu <? block_size ai
                                  then len input - bu else block_size ai)))
        with (len input - bu - (if len input - bu <? block_size ai
                                then len input - bu else block_size ai)) by lia.
      lia.
Qed.
End BlockLoop.

Section ThreadedLoop.
Context {E : External}.
Variable cfg : CONFIG.
Variable ai : ARCHIVEINFO.
Hypothesis block_size_pos : 1 <= block_size ai.

Lemma compress_entry_multi_loop_spec (input : bytes) (i : Z)
    (Hlen : len input < 2 ^ 64) :
  forall (blocks : nat) (bu : Z) (first : bool) (idx : Z),
    0 <= bu <= len input ->
    Z.of_nat blocks = blocks_of (block_size ai) (len input - bu) ->
    0 <= idx -> idx + Z.of_nat blocks < 2 ^ 32 ->
    forallb (slot_holds_input ai)
            (split_blocks blocks (block_size ai) (skipn (Z.to_nat bu) input))
    = true ->
    compress_entry_multi_loop ai blocks input i (len input) bu first idx
    = Some (tasks_of i first idx
                     (split_blocks blocks (block_size ai) (skipn (Z.to_nat bu) input)),
            idx + Z.of_nat blocks).
Proof.
  induction blocks as [|blocks' IH]; intros bu first idx Hbu Hn Hi Hr Hg.
  - cbn. do 2 f_equal. lia.
  - cbn [compress_entry_multi_loop].
    destruct (next_block_slice ai blocks' input bu block_size_pos Hbu Hlen Hn)
      as (Hslice & Hlenr & Hpos).
    cbv zeta in Hslice, Hlenr, Hpos. rewrite Hslice in *.
    cbn [split_blocks forallb] in Hg. apply andb_prop in Hg.
    destruct Hg as [Hg1 Hg2].
    set (blk := firstn (Z.to_nat (block_size ai)) (skipn (Z.to_nat bu) input)) in *.
    rewrite Hg1.
    assert (Hrpos : 0 < len input - bu)
      by (destruct (Z.ltb_spec (len input - bu) (block_size ai)); lia).
    assert (Hstep := blocks_of_step (block_size ai) (len input - bu)
                       block_size_pos Hrpos).
    unfold u32. rewrite (Z.mod_small (idx + 1)) by lia.
    assert (Hsplit :
              split_blocks blocks' (block_size ai) (skipn (Z.to_nat (bu + len blk)) input)
              = split_blocks blocks' (block_size ai)
                  (skipn (Z.to_nat (block_size ai)) (skipn (Z.to_nat bu) input))).
    { destruct blocks' as [|b]; [reflexivity|].
      assert (block_size ai < len input - bu) by (apply blocks_of_many; lia).
      rewrite skipn_skipn_Z by lia.
      destruct (Z.ltb_spec (len input - bu) (block_size ai)); [lia|].
      rewrite Hlenr. reflexivity. }
    rewrite IH;
      try (rewrite ?Hlenr;
           destruct (Z.ltb_spec (len input - bu) (block_size ai)); lia);
      try (rewrite Hsplit; exact Hg2).
    + cbn [split_blocks tasks_of]. fold blk.
      rewrite Hsplit.
      replace (idx + 1 + Z.of_nat blocks') with (idx + Z.of_nat (S blocks')) by lia.
      destruct blocks' as [|b]; reflexivity.
    + rewrite Hlenr.
      replace (len input - (bu + (if len input - bu <? block_size ai
                                  then len input - bu else block_size ai)))
        with (len input - bu - (if len input - bu <? block_size ai
                                then len input - bu else block_size ai)) by lia.
      lia.
Qed.

Lemma update_spec {A : Type} (l : list A) (i : Z) (g : A -> A) (x : A) :
  load l i = Some x ->
  exists l', update l i g = Some l' /\ store l i (g x) = Some l'.
Proof.
  intros Hl. unfold update. rewrite Hl.
  destruct (load_store_exists _ _ _ (g x) Hl) as [l' Hs]. exists l'. auto.
Qed.

Lemma store_store {A : Type} (l l1 l2 : list A) (i : Z) (v w : A) :
  store l i v = Some l1 -> store l1 i w = Some l2 -> store l i w = Some l2.
Proof.
  intros H1 H2. apply store_inv in H1. destruct H1 as [Hr ->].
  apply store_inv in H2. destruct H2 as [Hr2 ->].
  rewrite store_spec by exact Hr. f_equal. unfold len in *.
  set (n := Z.to_nat i) in *.
  assert (Hf : length (firstn n l) = n) by (rewrite length_firstn; lia).
  rewrite firstn_app, Hf. replace (n - n)%nat with 0%nat by lia.
  rewrite firstn_O, app_nil_r.
  rewrite (firstn_all2 (n := n) (firstn n l)) by lia.
  f_equal. f_equal.
  rewrite skipn_app, Hf. rewrite (skipn_all2 (n := S n) (firstn n l)) by lia.
  replace (S n - n)%nat with 1%nat by lia. reflexivity.
Qed.

(** Committing the tasks of one entry, in order. *)
Lemma commit_tasks_entry (i : Z) :
  forall (blks : list bytes) (first : bool) (idx : Z) (st : PAK) (fi : FILEINFO),
    let emitted := map (compress_block_thread cfg ai) blks in
    blks <> [] ->
    forallb (slot_holds_output cfg ai) blks = true ->
    load (files_info_table st) i = Some fi ->
    0 <= idx -> idx + len blks <= len (blocktable st) ->
    0 <= total_size st -> total_size st + sum (map len emitted) < 2 ^ 64 ->
    0 <= compressed_size fi \/ first = true ->
    (first = false -> compressed_size fi + sum (map len emitted) < 2 ^ 64) ->
    exists tbl : list FILEINFO,
      commit_tasks cfg ai (tasks_of i first idx blks) st
      = Some (mkPAK (fwrite_all emitted (archive_file st))
                    (total_size st + sum (map len emitted))
                    (with_slots (blocktable st) idx
                                (map (fun b => u32 (len b)) emitted))
                    (blocktable_idx st) tbl)
      /\ store (files_info_table st) i
               (committed first idx (total_size st) (sum (map len emitted)) fi)
         = Some tbl.
Proof.
  induction blks as [|b rest IH];
    intros first idx st fi emitted Hne Hg Hl Hi Hr Ht Hs Hc Hcs;
    [contradiction Hne; reflexivity|].
  subst emitted. cbn [tasks_of commit_tasks map sum] in *.
  cbn [forallb] in Hg. apply andb_prop in Hg. destruct Hg as [Hg1 Hg2].
  unfold compress_entry_thread at 1.
  cbn [buffer0 pkd_fi pkd_blocktable_idx is_first_block]. rewrite Hg1.
  set (w := compress_block_thread cfg ai b) in *.
  pose proof (len_nonneg w) as Hw.
  assert (Hsum : 0 <= sum (map len (map (compress_block_thread cfg ai) rest))).
  { clear. induction rest as [|x r IHr]; cbn; [lia|].
    pose proof (len_nonneg (compress_block_thread cfg ai x)). lia. }
  set (g := fun fi0 : FILEINFO =>
              if first
              then set_compressed_size
                     (set_offset (set_block_index fi0 idx) (total_size st)) (len w)
              else set_compressed_size fi0 (u64 (compressed_size fi0 + len w))).
  destruct (update_spec _ i g _ Hl) as (tbl1 & Hu & Hst1).
  rewrite Hu.
  assert (Hrange : 0 <= idx < len (blocktable st))
    by (unfold len at 1 in Hr; cbn [length] in Hr; lia).
  destruct (load_in_range (blocktable st) idx Hrange) as [old Hold].
  destruct (load_store_exists _ _ _ (u32 (len w)) Hold) as [t1 Hst].
  rewrite Hst.
  unfold u64 at 1. rewrite (Z.mod_small (total_size st + len w)) by lia.
  destruct rest as [|b2 rest2].
  - cbn [tasks_of commit_tasks map sum fwrite_all fold_left].
    exists tbl1. split.
    + rewrite <- (with_slots_cons _ _ _ _ _ Hst), with_slots_nil.
      rewrite Z.add_0_r. reflexivity.
    + rewrite <- Hst1. f_equal. unfold g, committed. rewrite Z.add_0_r.
      destruct first; [reflexivity|].
      unfold u64. rewrite Z.mod_small; [reflexivity|].
      specialize (Hcs eq_refl). cbn [sum map] in Hcs. destruct Hc as [Hc|Hc]; [lia|discriminate].
  - set (st1 := mkPAK (fwrite w (archive_file st)) (total_size st + len w) t1
                      (blocktable_idx st) tbl1).
    assert (Hl1 : load (files_info_table st1) i = Some (g fi))
      by (apply (load_store_same _ _ _ _ Hst1)).
    assert (Hgc : 0 <= compressed_size (g fi)).
    { unfold g. destruct first; cbn [compressed_size set_compressed_size]; [lia|].
      unfold u64. apply Z.mod_pos_bound. lia. }
    destruct (IH false (idx + 1) st1 (g fi)) as (tbl2 & Hrun & Hst2);
      try discriminate; try assumption; try exact Hg2;
      cbn [total_size blocktable st1]; try lia.
    + apply store_len in Hst. unfold len in *. cbn [length] in *. lia.
    + intros _. unfold g. destruct first; cbn [compressed_size set_compressed_size].
      * lia.
      * specialize (Hcs eq_refl). destruct Hc as [Hc|Hc]; [|discriminate].
        unfold u64. rewrite Z.mod_small by lia. lia.
    + exists tbl2. split.
      * fold st1. rewrite Hrun. cbn [archive_file total_size blocktable blocktable_idx st1].
        rewrite (with_slots_cons _ _ _ _ _ Hst).
        unfold fwrite_all. cbn [fold_left]. rewrite Z.add_assoc. reflexivity.
      * cbn [files_info_table st1] in Hst2.
        rewrite <- (store_store _ _ _ _ _ _ Hst1 Hst2). f_equal.
        unfold committed, g.
        destruct first; cbn [compressed_size set_compressed_size set_offset
                               set_block_index name_digest filename offset
                               block_index num_blocks uncompressed_size].
        -- unfold set_compressed_size. cbn. reflexivity.
        -- specialize (Hcs eq_refl). destruct Hc as [Hc|Hc]; [|discriminate].
           unfold u64. rewrite Z.mod_small by lia.
           unfold set_compressed_size. cbn. f_equal. lia.
Qed.
End ThreadedLoop.

Lemma split_blocks_length (n : nat) (bs : Z) (data : bytes) :
  length (split_blocks n bs data) = n.
Proof.
  revert data. induction n as [|n IH]; intros data; cbn; [reflexivity|].
  rewrite IH. reflexivity.
Qed.

Lemma split_blocks_le (n : nat) (bs : Z) (data : bytes) :
  0 <= bs -> Forall (fun b => len b <= bs) (split_blocks n bs data).
Proof.
  intros Hb. revert data. induction n as [|n IH]; intros data; cbn; constructor.
  - unfold len. rewrite length_firstn. lia.
  - apply IH.
Qed.

Lemma emitted_length_fallback (encoded : option bytes) (blk : bytes) :
  len (fallback encoded blk) = emitted_length encoded blk.
Proof.
  destruct encoded as [out|]; [|reflexivity].
  apply (fallback_min out blk).
Qed.

Lemma map_emitted_length (f : bytes -> option bytes) (bs : Z) (blks : list bytes) :
  bs < 2 ^ 32 ->
  Forall (fun b => len b <= bs) blks ->
  map (fun b => u32 (len b)) (map (fun blk => fallback (f blk) blk) blks)
  = map (fun blk => emitted_length (f blk) blk) blks.
Proof.
  intros Hb HF. induction HF as [|b rest Hle HF IH]; [reflexivity|].
  cbn [map]. rewrite IH. f_equal.
  pose proof (fallback_le (f b) b). pose proof (len_nonneg (fallback (f b) b)).
  unfold u32. rewrite Z.mod_small by lia. apply emitted_length_fallback.
Qed.

Lemma map_ext_eq {A B : Type} (f g : A -> B) (l : list A) :
  (forall x, f x = g x) -> map f l = map g l.
Proof. intros H. apply map_ext. exact H. Qed.

Lemma size_bound (bs r : Z) :
  1 <= bs < 2 ^ 32 -> 0 <= r -> blocks_of bs r < 2 ^ 32 -> r + bs - 1 < 2 ^ 64.
Proof.
  intros Hb Hr Hn. unfold blocks_of in Hn.
  pose proof (Z.mul_succ_div_gt (r + bs - 1) bs ltac:(lia)) as H.
  assert (bs * Z.succ ((r + bs - 1) / bs) <= 2 ^ 32 * 2 ^ 32) by nia.
  change (2 ^ 64) with (2 ^ 32 * 2 ^ 32). lia.
Qed.

(** The writer's buffers: when they hold every block. *)

Lemma forallb_and {A : Type} (f g : A -> bool) (l : list A) :
  forallb (fun x => f x && g x) l = forallb f l && forallb g l.
Proof.
  induction l as [|x l IH]; cbn [forallb]; [reflexivity|]. rewrite IH.
  destruct (f x), (g x), (forallb f l); reflexivity.
Qed.

Lemma forallb_Forall_impl {A : Type} (P : A -> Prop) (f g : A -> bool) (l : list A) :
  Forall P l -> (forall x, P x -> f x = true -> g x = true) ->
  forallb f l = true -> forallb g l = true.
Proof.
  intros HP Himp. induction HP as [|x l Hx HP IH]; cbn [forallb]; [reflexivity|].
  intros H. apply andb_prop in H. destruct H as [H1 H2].
  rewrite (Himp x Hx H1), (IH H2). reflexivity.
Qed.

Lemma buffers_hold_pool {E : External} (cfg : CONFIG) (ai : ARCHIVEINFO)
    (input_fp : bool) (input : bytes) :
  buffers_hold cfg ai true input_fp input = true ->
  forallb (slot_holds_input ai) (entry_blocks ai input) = true
  /\ forallb (slot_holds_output cfg ai) (entry_blocks ai input) = true.
Proof.
  unfold buffers_hold. intros H.
  change (holds cfg ai true input_fp)
    with (fun blk => slot_holds_input ai blk && slot_holds_output cfg ai blk) in H.
  rewrite forallb_and in H. apply andb_prop in H. exact H.
Qed.

(** Below a block size of [2 ^ 31] the two buffers have twice the block
    size: they hold every block, and its encoding when that is no longer
    than twice the block size. *)
Lemma encoded_fits_sync {E : External} (cfg : CONFIG) (ai : ARCHIVEINFO)
    (input_fp : bool) (input : bytes) :
  1 <= block_size ai < 2 ^ 31 ->
  encoded_fits cfg ai false input = true ->
  buffers_hold cfg ai false input_fp input = true.
Proof.
  intros Hb. unfold encoded_fits, buffers_hold.
  apply (forallb_Forall_impl (fun b => len b <= block_size ai));
    [apply split_blocks_le; lia|].
  intros blk Hle. unfold holds, scratch_holds, scratch_size, encoder_stores,
    encoder_output.
  pose proof (len_nonneg blk) as H0.
  unfold u32. rewrite (Z.mod_small (block_size ai * 2)) by lia.
  destruct (compression_type ai =? PSARC_ZLIB).
  - intros Hf. rewrite Hf, andb_true_r.
    destruct (Z.leb_spec (len blk) (block_size ai * 2)); [|lia].
    apply orb_true_r.
  - destruct (compression_type ai =? PSARC_LZMA).
    + intros Hf.
      destruct (Z.leb_spec (len blk) (block_size ai * 2)); [|lia].
      rewrite orb_true_r. cbn [andb].
      destruct (lzma_encode _ _ _); [exact Hf|]. apply Z.leb_le. lia.
    + intros _.
      destruct (Z.leb_spec (len blk) (block_size ai * 2)); [|lia].
      rewrite orb_true_r. apply Z.leb_le. lia.
Qed.

(** In the pool the slot of a worker has [sizeof(PAKDATA)] and four times
    the block size as long as their sum is below [2 ^ 32]. *)
Lemma encoded_fits_pool {E : External} (cfg : CONFIG) (ai : ARCHIVEINFO)
    (input_fp : bool) (input : bytes) :
  1 <= block_size ai -> sizeof_PAKDATA + block_size ai * 4 < 2 ^ 32 ->
  encoded_fits cfg ai true input = true ->
  buffers_hold cfg ai true input_fp input = true.
Proof.
  intros Hb Hs. unfold sizeof_PAKDATA in Hs. unfold encoded_fits, buffers_hold.
  apply (forallb_Forall_impl (fun b => len b <= block_size ai));
    [apply split_blocks_le; lia|].
  intros blk Hle. unfold holds, slot_holds_input, slot_holds_output,
    user_data_size, sizeof_PAKDATA, offsetof_buffers, encoder_stores,
    encoder_output_thread.
  pose proof (len_nonneg blk) as H0.
  unfold u32. rewrite (Z.mod_small (block_size ai * 4)) by lia.
  rewrite (Z.mod_small (64 + block_size ai * 4)) by lia.
  rewrite (Z.mod_small (block_size ai * 2)) by lia.
  destruct (Z.leb_spec (60 + len blk) (64 + block_size ai * 4)); [|lia].
  destruct (Z.leb_spec (len blk) (block_size ai * 2)); [|lia].
  cbn [andb].
  destruct (compression_type ai =? PSARC_ZLIB).
  - intros Hf. apply Z.leb_le in Hf. apply orb_true_iff. right. apply Z.leb_le. lia.
  - destruct (compression_type ai =? PSARC_LZMA).
    + intros Hf. apply orb_true_iff. right. apply Z.leb_le.
      destruct (lzma_encode _ _ _); [apply Z.leb_le in Hf|]; lia.
    + intros _. reflexivity.
Qed.

(** Encoders that keep to the room they are given, with the bound
    [compressBound] has in zlib, make no block of 14 bytes or more longer
    than twice the block size. *)
Lemma encoded_fits_of_contracts {E : External} (cfg : CONFIG) (ai : ARCHIVEINFO)
    (pool : bool) (input : bytes) :
  14 <= block_size ai < 2 ^ 31 ->
  (forall src cap level, len (compress2 src cap level) <= Z.max 0 cap) ->
  (forall n, 0 <= n -> compressBound n <= n + n / 4096 + n / 16384 + n / 33554432 + 13) ->
  (forall preset src cap out,
      lzma_encode preset src cap = Some out -> len out <= Z.max 0 cap) ->
  encoded_fits cfg ai pool input = true.
Proof.
  intros Hb Hz Hbound Hl. unfold encoded_fits. apply forallb_forall.
  intros blk Hin.
  assert (Hle : len blk <= block_size ai).
  { pose proof (split_blocks_le (Z.to_nat (blocks_of (block_size ai) (len input)))
                  (block_size ai) input ltac:(lia)) as HF.
    rewrite Forall_forall in HF. apply (HF blk Hin). }
  pose proof (len_nonneg blk) as H0.
  assert (Hcb : compressBound (len blk) <= block_size ai * 2).
  { pose proof (Hbound (len blk) H0) as Hc.
    assert (len blk / 4096 <= block_size ai / 4096) by (apply Z.div_le_mono; lia).
    assert (len blk / 16384 <= block_size ai / 16384) by (apply Z.div_le_mono; lia).
    assert (len blk / 33554432 <= block_size ai / 33554432)
      by (apply Z.div_le_mono; lia).
    pose proof (Z.mul_div_le (block_size ai) 4096 ltac:(lia)).
    pose proof (Z.mul_div_le (block_size ai) 16384 ltac:(lia)).
    pose proof (Z.mul_div_le (block_size ai) 33554432 ltac:(lia)).
    lia. }
  assert (Hu : u32 (block_size ai * 2) = block_size ai * 2)
    by (unfold u32; apply Z.mod_small; lia).
  unfold encoder_output, encoder_output_thread. rewrite Hu.
  destruct pool.
  - destruct (compression_type ai =? PSARC_ZLIB).
    + apply Z.leb_le.
      pose proof (Hz blk (block_size ai * 2) (compression_level cfg)). lia.
    + destruct (compression_type ai =? PSARC_LZMA).
      * destruct (lzma_encode _ _ _) as [out|] eqn:He; [|reflexivity].
        apply Z.leb_le. pose proof (Hl _ _ _ _ He). lia.
      * apply Z.leb_le. lia.
  - destruct (compression_type ai =? PSARC_ZLIB).
    + apply Z.leb_le.
      pose proof (Hz blk (compressBound (len blk)) (compression_level cfg)). lia.
    + destruct (compression_type ai =? PSARC_LZMA).
      * destruct (lzma_encode _ _ _) as [out|] eqn:He; [|reflexivity].
        apply Z.leb_le. pose proof (Hl _ _ _ _ He). lia.
      * apply Z.leb_le. lia.
Qed.

(** C2. Whatever the codec, the bytes written for a block are the encoder
    output when it is shorter than the block and the raw block otherwise
    (also when the encoder fails), so their number is the minimum of the
    encoded and the natural length. Whenever the writer stays inside its
    buffers, [compress_entry] and the worker pool write exactly these
    bytes for the successive blocks of an entry and record these lengths in
    its block-table slots. The buffers of [compress_entry] are enough
    below a block size of [2 ^ 31], those of the pool as long as
    [sizeof(PAKDATA) + block_size * 4] is below [2 ^ 32], when no block is
    encoded into more than twice the block size. *)
Theorem C2_fallback_rule {E : External} (cfg : CONFIG) (ai : ARCHIVEINFO)
    (input : bytes) (input_fp : bool) (i : Z) (st : PAK) (fi : FILEINFO) :
  1 <= block_size ai < 2 ^ 32 ->
  load (files_info_table st) i = Some fi ->
  uncompressed_size fi = len input ->
  num_blocks fi = blocks_of (block_size ai) (len input) ->
  0 <= blocktable_idx st ->
  blocktable_idx st + blocks_of (block_size ai) (len input) <= len (blocktable st) ->
  len (blocktable st) < 2 ^ 32 ->
  (forall blk : bytes,
      compress_block cfg ai blk = fallback (encoder_output cfg ai blk) blk
      /\ compress_block_thread cfg ai blk
         = fallback (encoder_output_thread cfg ai blk) blk
      /\ fallback None blk = blk
      /\ forall out : bytes,
           (len out >= len blk -> fallback (Some out) blk = blk)
           /\ (len out < len blk -> fallback (Some out) blk = out)
           /\ len (fallback (Some out) blk) = Z.min (len out) (len blk))
  /\ (buffers_hold cfg ai false input_fp input = true ->
      exists st' : PAK,
        compress_entry cfg ai input input_fp i st = Some st'
        /\ archive_file st'
           = fwrite_all (map (fun blk => fallback (encoder_output cfg ai blk) blk)
                             (entry_blocks ai input))
                        (archive_file st)
        /\ blocktable st'
           = with_slots (blocktable st) (blocktable_idx st)
               (map (fun blk => emitted_length (encoder_output cfg ai blk) blk)
                    (entry_blocks ai input)))
  /\ (buffers_hold cfg ai true true input = true ->
      0 <= total_size st ->
      total_size st + len input < 2 ^ 64 ->
      exists (tasks : list PAKDATA) (st1 st' : PAK),
        compress_entry_multi ai input i st = Some (tasks, st1)
        /\ commit_tasks cfg ai tasks st1 = Some st'
        /\ archive_file st'
           = fwrite_all (map (fun blk => fallback (encoder_output_thread cfg ai blk) blk)
                             (entry_blocks ai input))
                        (archive_file st)
        /\ blocktable st'
           = with_slots (blocktable st) (blocktable_idx st)
               (map (fun blk => emitted_length (encoder_output_thread cfg ai blk) blk)
                    (entry_blocks ai input)))
  /\ (block_size ai < 2 ^ 31 -> encoded_fits cfg ai false input = true ->
      buffers_hold cfg ai false input_fp input = true)
  /\ (sizeof_PAKDATA + block_size ai * 4 < 2 ^ 32 ->
      encoded_fits cfg ai true input = true ->
      buffers_hold cfg ai true true input = true).
Proof.
  intros Hb Hl Hu Hn Hi Hr Ht.
  pose proof (len_nonneg input) as Hlen0.
  assert (Hbn : 0 <= blocks_of (block_size ai) (len input))
    by (apply blocks_of_nonneg; lia).
  assert (Hle : Forall (fun b => len b <= block_size ai) (entry_blocks ai input))
    by (apply split_blocks_le; lia).
  pose proof (size_bound (block_size ai) (len input) Hb Hlen0 ltac:(lia)) as Hsz.
  split; [|split; [|split; [|split]]].
  - intros blk. split; [apply compress_block_fallback|].
    split; [apply compress_block_thread_fallback|]. split; [reflexivity|].
    intros out. destruct (fallback_min out blk) as (H1 & H2 & H3). auto.
  - intros Hg. unfold compress_entry. rewrite Hl.
    cbn [num_blocks set_block_index set_offset uncompressed_size].
    rewrite Hn, Hu.
    assert (Hlen : len input < 2 ^ 64) by lia.
    rewrite (compress_entry_loop_spec cfg ai ltac:(lia) input input_fp Hlen);
      try lia; try (rewrite Z.sub_0_r; lia); try exact Hg.
    cbn [Z.to_nat skipn]. fold (entry_blocks ai input).
    set (emitted := map (compress_block cfg ai) (entry_blocks ai input)).
    destruct (load_store_exists _ _ _
                (set_compressed_size
                   (set_block_index (set_offset fi (total_size st))
                                    (blocktable_idx st))
                   (0 + sum (map len emitted))) Hl) as [tbl Hs].
    rewrite Hs. eexists. split; [reflexivity|]. cbn [archive_file blocktable].
    assert (He : emitted
                 = map (fun blk => fallback (encoder_output cfg ai blk) blk)
                       (entry_blocks ai input))
      by (apply map_ext_eq; intros blk; apply compress_block_fallback).
    split; [rewrite He; reflexivity|].
    rewrite He, (map_emitted_length _ (block_size ai)) by (lia || exact Hle).
    reflexivity.
  - intros Hg Ht0 Ht1. apply buffers_hold_pool in Hg. destruct Hg as [Hgi Hgo].
    unfold compress_entry_multi. rewrite Hl, Hu.
    destruct (Z.eqb_spec (len input) 0) as [H0|H0].
    + destruct (load_store_exists _ _ _ (set_compressed_size fi 0) Hl) as [tbl Hs].
      rewrite Hs. do 3 eexists. split; [reflexivity|].
      cbn [commit_tasks]. split; [reflexivity|]. cbn [archive_file blocktable].
      unfold entry_blocks. rewrite H0, blocks_of_0 by lia.
      cbn [Z.to_nat split_blocks map fwrite_all fold_left].
      rewrite with_slots_nil. split; reflexivity.
    + destruct (Z.eqb_spec (block_size ai) 0) as [Hz|Hz]; [lia|].
      assert (Hcount : u32 (u64 (len input + block_size ai - 1) / block_size ai)
                       = blocks_of (block_size ai) (len input)).
      { unfold u32, u64, blocks_of in *. rewrite (Z.mod_small (_ + _ - 1)) by lia.
        apply Z.mod_small. lia. }
      rewrite Hcount.
      rewrite (compress_entry_multi_loop_spec ai ltac:(lia) input i ltac:(lia));
        try lia; try (rewrite Z.sub_0_r; lia); try exact Hgi.
      cbn [Z.to_nat skipn]. fold (entry_blocks ai input).
      assert (Hne : entry_blocks ai input <> []).
      { intros Hnil. apply (f_equal (@length bytes)) in Hnil.
        unfold entry_blocks in Hnil. rewrite split_blocks_length in Hnil.
        cbn [length] in Hnil.
        pose proof (blocks_of_step (block_size ai) (len input) ltac:(lia) ltac:(lia)).
        pose proof (blocks_of_nonneg (block_size ai)
                      (len input - (if len input <? block_size ai
                                    then len input else block_size ai))
                      ltac:(lia)
                      ltac:(destruct (Z.ltb_spec (len input) (block_size ai)); lia)).
        lia. }
      set (st1 := mkPAK (archive_file st) (total_size st) (blocktable st)
                        (blocktable_idx st + Z.of_nat (Z.to_nat
                            (blocks_of (block_size ai) (len input))))
                        (files_info_table st)).
      assert (Hsum : sum (map len (map (compress_block_thread cfg ai)
                                       (entry_blocks ai input))) <= len input).
      { unfold entry_blocks.
        generalize (Z.to_nat (blocks_of (block_size ai) (len input))) as n.
        intros n. generalize input as data. clear - Hb.
        induction n as [|n IH]; intros data; cbn [split_blocks map sum].
        - apply len_nonneg.
        - specialize (IH (skipn (Z.to_nat (block_size ai)) data)).
          rewrite compress_block_thread_fallback.
          pose proof (fallback_le
                        (encoder_output_thread cfg ai
                           (firstn (Z.to_nat (block_size ai)) data))
                        (firstn (Z.to_nat (block_size ai)) data)) as Hf.
          assert (len (firstn (Z.to_nat (block_size ai)) data)
                  + len (skipn (Z.to_nat (block_size ai)) data) = len data).
          { rewrite <- len_app, firstn_skipn. reflexivity. }
          lia. }
      destruct (commit_tasks_entry cfg ai i (entry_blocks ai input) true
                  (blocktable_idx st) st1 fi)
        as (tbl & Hrun & _); try assumption; cbn [total_size blocktable st1];
        try lia.
      * unfold entry_blocks, len in *. rewrite split_blocks_length. lia.
      * do 3 eexists. split; [reflexivity|]. fold st1. split; [exact Hrun|].
        cbn [archive_file blocktable].
        assert (He : map (compress_block_thread cfg ai) (entry_blocks ai input)
                     = map (fun blk => fallback (encoder_output_thread cfg ai blk) blk)
                           (entry_blocks ai input))
          by (apply map_ext_eq; intros blk; apply compress_block_thread_fallback).
        split; [rewrite He; reflexivity|].
        rewrite He, (map_emitted_length _ (block_size ai)) by (lia || exact Hle).
        reflexivity.
  - intros Hb31. apply encoded_fits_sync. lia.
  - intros Hs. apply encoded_fits_pool; [lia|exact Hs].
Qed.

(** 40 zero bytes in blocks of 16 under the stand-in zlib: the two full
    blocks shrink to 8 bytes, the last block of 8 bytes does not shrink and
    is written raw; the blocks and their encodings fit the 32 bytes of the
    two buffers. *)
Lemma C2_fallback_rule_witness :
  exists st' : PAK,
    compress_entry (E := model_external) config0 ai_zlib_16 (snd zeros_bin) true 1
      pak_zeros
    = Some st'
    /\ blocktable st' = [8; 8; 8]
    /\ skipn 174 (f_data (archive_file st')) = repeat 0 8%nat.
Proof.
  destruct (C2_fallback_rule (E := model_external) config0 ai_zlib_16
              (snd zeros_bin) true 1 pak_zeros fi_zeros)
    as (_ & Hsync & _).
  - cbn. lia.
  - reflexivity.
  - reflexivity.
  - reflexivity.
  - cbn. lia.
  - vm_compute. discriminate.
  - vm_compute. reflexivity.
  - destruct (Hsync eq_refl) as (st' & Hrun & Hfile & Htab).
    exists st'. split; [exact Hrun|]. rewrite Htab, Hfile. split; reflexivity.
Defined.

(** ** Existing output files (C8) *)


Lemma failures_nonneg (r : list (cstring * string)) : 0 <= failures r.
Proof.
  induction r as [|[n m] r IH]; cbn [failures]; [lia|].
  destruct (is_failure m); lia.
Qed.

Lemma fs_lookup_write (fs : FS) (path : cstring) (content : bytes) :
  fs_lookup (fs_write fs path content) path = Some (RegularFile content).
Proof. unfold fs_write. cbn [fs_lookup]. rewrite bytes_eqb_refl. reflexivity. Qed.

Section Extraction.
Context {E : External}.
Variable cfg : CONFIG.
Variable ai : ARCHIVEINFO.
Variable buffer_size : Z.
Variable blocktable : list Z.








End Extraction.


(** ** The worker pool commits in submission order (C9) *)

Lemma tickets_app (t : Z) (n : nat) :
  tickets t (n + 1) = tickets t n ++ [t + Z.of_nat n].
Proof.
  revert t. induction n as [|n IH]; intros t.
  - cbn. rewrite Z.add_0_r. reflexivity.
  - cbn [Nat.add tickets app]. rewrite IH. do 3 f_equal. lia.
Qed.

Lemma tickets_ge (t : Z) (n : nat) : Forall (fun x => t <= x) (tickets t n).
Proof.
  revert t. induction n as [|n IH]; intros t; cbn; constructor; [lia|].
  eapply Forall_impl; [|apply (IH (t + 1))]. cbv beta. intros a Ha. lia.
Qed.

Section Pool.
Context {E : External}.
Variable cfg : CONFIG.
Variable ai : ARCHIVEINFO.
Variable threads_max : Z.

(** Only the worker started first can hold the current ticket. *)
Lemma current_ticket_is_first (cur : Z) (run1 run2 : list WORKER) (w : WORKER) :
  map tid (run1 ++ w :: run2) = tickets cur (length (run1 ++ w :: run2)) ->
  tid w = cur -> run1 = [].
Proof.
  intros Hm Hw. destruct run1 as [|v run1]; [reflexivity|]. exfalso.
  cbn [app map length tickets] in Hm. injection Hm as Hv Hrest.
  pose proof (tickets_ge (cur + 1) (length (run1 ++ w :: run2))) as Hge.
  rewrite <- Hrest in Hge. rewrite map_app in Hge. cbn [map] in Hge.
  apply Forall_app in Hge. destruct Hge as [_ Hge].
  apply Forall_inv in Hge. lia.
Qed.

Lemma pool_step_ordered (p q : POOL) :
  pool_step cfg ai threads_max p q -> pool_ordered p ->
  pool_ordered q
  /\ commit_tasks cfg ai (map task (running p) ++ queue p) (shared p)
     = commit_tasks cfg ai (map task (running q) ++ queue q) (shared q).
Proof.
  intros Hstep (H1 & Hm & Hl). unfold pool_ordered.
  destruct Hstep as [cur lst pkd q run st Hfree
                    |cur lst q run1 run2 w st st' Hw Hc];
    cbn [threads_current threads_last queue running shared] in *.
  - assert (Hnext : next_ticket lst = lst + 1).
    { unfold next_ticket. pose proof (len_nonneg run).
      destruct (Z.eqb_spec (lst + 1) 0); lia. }
    split; [split; [exact H1|split]|].
    + rewrite map_app, length_app. cbn [map length tid]. rewrite tickets_app, Hm.
      do 2 f_equal. unfold len in Hl. lia.
    + rewrite Hnext, len_app. unfold len at 2. cbn [length]. lia.
    + rewrite map_app. cbn [map task]. rewrite <- app_assoc. reflexivity.
  - pose proof (current_ticket_is_first cur run1 run2 w Hm Hw) as ->.
    cbn [app map length tickets] in *. injection Hm as _ Hm.
    assert (Hnext : next_ticket cur = cur + 1).
    { unfold next_ticket. destruct (Z.eqb_spec (cur + 1) 0); lia. }
    split; [split; [rewrite Hnext; lia|split]|].
    + rewrite Hnext. exact Hm.
    + rewrite Hnext. unfold len in *. cbn [length] in Hl. lia.
    + cbn [commit_tasks]. rewrite Hc. reflexivity.
Qed.

Lemma pool_run_ordered (p r : POOL) :
  pool_run cfg ai threads_max p r -> pool_ordered p ->
  queue r = [] -> running r = [] ->
  commit_tasks cfg ai (map task (running p) ++ queue p) (shared p)
  = Some (shared r).
Proof.
  intros Hrun. induction Hrun as [p|p q r Hstep Hrun IH]; intros Hord Hq Hr.
  - rewrite Hq, Hr. reflexivity.
  - destruct (pool_step_ordered p q Hstep Hord) as [Hord' Heq].
    rewrite Heq. apply IH; assumption.
Qed.

(** Every complete run of the pool commits the submitted blocks in
    submission order: it ends in the state [commit_tasks] computes. *)
Lemma pool_commits_in_order (tasks : list PAKDATA) (st : PAK) (p : POOL) :
  pool_run cfg ai threads_max (mkPOOL 1 1 tasks [] st) p ->
  queue p = [] -> running p = [] ->
  commit_tasks cfg ai tasks st = Some (shared p).
Proof.
  intros Hrun Hq Hr.
  apply (pool_run_ordered (mkPOOL 1 1 tasks [] st) p Hrun); try assumption.
  repeat split; cbn; lia.
Qed.

(** The pool never blocks: while a block is queued or a worker runs, a
    step is possible, unless the committing worker hits undefined
    behaviour. *)
Lemma pool_progress (p : POOL) :
  pool_ordered p -> 1 <= threads_max ->
  queue p <> [] \/ running p <> [] ->
  (exists q, pool_step cfg ai threads_max p q)
  \/ (exists w rest, running p = w :: rest
                     /\ compress_entry_thread cfg ai (task w) (shared p) = None).
Proof.
  intros (H1 & Hm & Hl) Hmax Hwork.
  destruct p as [cur lst q run st]. cbn [threads_current threads_last queue
                                           running shared] in *.
  destruct run as [|w rest].
  - destruct q as [|pkd q]; [destruct Hwork as [H|H]; contradiction H; reflexivity|].
    left. eexists. apply pool_start. cbn. lia.
  - cbn [map length tickets] in Hm. injection Hm as Hw _.
    destruct (compress_entry_thread cfg ai (task w) st) as [st'|] eqn:Hc.
    + left. eexists. apply (pool_commit cfg ai threads_max cur lst q [] rest w st st' Hw Hc).
    + right. exists w, rest. split; [reflexivity|exact Hc].
Qed.
End Pool.

(** ** The round trip (C1) *)


(** ** Files and arrays (C1) *)

(** [lia] once the names of the list types are unfolded. *)
Ltac blia := unfold bytes, cstring in *; lia.

Lemma u32_small (v : Z) : 0 <= v < 2 ^ 32 -> u32 v = v.
Proof. apply Z.mod_small. Qed.

Lemma u64_small (v : Z) : 0 <= v < 2 ^ 64 -> u64 v = v.
Proof. apply Z.mod_small. Qed.

Lemma app_cons_assoc {A : Type} (pre : list A) (x : A) (l : list A) :
  pre ++ x :: l = (pre ++ [x]) ++ l.
Proof. rewrite <- app_assoc. reflexivity. Qed.

Lemma len_pos {A : Type} (l : list A) : l <> [] -> 0 < len l.
Proof.
  destruct l as [|x l]; intros H; [contradiction H; reflexivity|].
  unfold len. cbn [length]. lia.
Qed.

Lemma to_nat_len {A : Type} (l : list A) : Z.to_nat (len l) = length l.
Proof. unfold len. apply Nat2Z.id. Qed.

Lemma len_cons {A : Type} (x : A) (l : list A) : len (x :: l) = 1 + len l.
Proof. unfold len. cbn [length]. lia. Qed.

Lemma fwrite_at_end (buf : bytes) (f : FILE) :
  f_pos f = len (f_data f) ->
  fwrite buf f = mkFILE (f_data f ++ buf) (f_pos f + len buf).
Proof.
  intros H. destruct f as [d p]. cbn [f_pos f_data] in *. destruct buf as [|b buf].
  - cbn. rewrite app_nil_r, Z.add_0_r. reflexivity.
  - unfold fwrite. cbn [f_pos f_data]. subst p. unfold len. rewrite Nat2Z.id.
    rewrite firstn_all, Nat.sub_diag. cbn [repeat app].
    rewrite skipn_all2 by lia. rewrite app_nil_r. reflexivity.
Qed.

Lemma fwrite_all_app (a b : list bytes) (f : FILE) :
  fwrite_all (a ++ b) f = fwrite_all b (fwrite_all a f).
Proof. unfold fwrite_all. apply fold_left_app. Qed.

Lemma fwrite_all_at_end (bufs : list bytes) :
  forall f : FILE,
    f_pos f = len (f_data f) ->
    fwrite_all bufs f
    = mkFILE (f_data f ++ concat bufs) (f_pos f + len (concat bufs)).
Proof.
  induction bufs as [|b bufs IH]; intros f Hf.
  - destruct f as [d p]. cbn. rewrite app_nil_r, Z.add_0_r. reflexivity.
  - cbn [fwrite_all fold_left concat]. fold (fwrite_all bufs (fwrite b f)).
    rewrite (fwrite_at_end b f Hf), IH.
    + cbn [f_data f_pos]. rewrite <- app_assoc, len_app, Z.add_assoc. reflexivity.
    + cbn [f_data f_pos]. rewrite len_app. lia.
Qed.

(** The first write after a seek past the end of the file. *)
Lemma fwrite_hole (buf : bytes) (f : FILE) :
  len (f_data f) <= f_pos f -> buf <> [] ->
  fwrite buf f
  = mkFILE (f_data f ++ repeat 0 (Z.to_nat (f_pos f) - length (f_data f)) ++ buf)
           (f_pos f + len buf).
Proof.
  intros H Hb. destruct f as [d p]. cbn [f_pos f_data] in *. unfold len in H.
  destruct buf as [|b buf]; [contradiction Hb; reflexivity|].
  unfold fwrite. cbn [f_pos f_data].
  rewrite firstn_all2 by lia. rewrite skipn_all2 by lia.
  rewrite app_nil_r. reflexivity.
Qed.

(** Writes that replace bytes inside the file. *)
Lemma fwrite_inside (pre mid post buf : bytes) (p : Z) :
  p = len pre -> length buf = length mid -> buf <> [] ->
  fwrite buf (mkFILE (pre ++ mid ++ post) p)
  = mkFILE (pre ++ buf ++ post) (p + len buf).
Proof.
  intros Hp Hl Hb. destruct buf as [|b buf]; [contradiction Hb; reflexivity|].
  unfold fwrite. cbn [f_pos f_data]. subst p. rewrite !to_nat_len.
  rewrite firstn_app, Nat.sub_diag, firstn_O, firstn_all, app_nil_r.
  replace (length pre - length (pre ++ mid ++ post))%nat with 0%nat
    by (rewrite length_app; lia).
  cbn [repeat app].
  rewrite skipn_app, skipn_all2 by lia.
  replace (length pre + length (b :: buf) - length pre)%nat
    with (length mid) by lia.
  rewrite skipn_app, skipn_all, Nat.sub_diag. cbn [app skipn]. reflexivity.
Qed.

Lemma fwrite_all_inside (bufs : list bytes) :
  forall (pre mid post : bytes) (p : Z),
    p = len pre -> length (concat bufs) = length mid ->
    Forall (fun b => b <> []) bufs ->
    fwrite_all bufs (mkFILE (pre ++ mid ++ post) p)
    = mkFILE (pre ++ concat bufs ++ post) (p + len (concat bufs)).
Proof.
  induction bufs as [|b bufs IH]; intros pre mid post p Hp Hl Hne.
  - cbn in Hl. destruct mid; [|discriminate Hl].
    cbn. rewrite Z.add_0_r. reflexivity.
  - cbn [fwrite_all fold_left concat] in *.
    fold (fwrite_all bufs (fwrite b (mkFILE (pre ++ mid ++ post) p))).
    rewrite length_app in Hl.
    rewrite <- (firstn_skipn (length b) mid) at 1. rewrite <- app_assoc.
    rewrite (fwrite_inside pre (firstn (length b) mid)); try assumption.
    + rewrite (app_assoc pre b), IH.
      * rewrite len_app, <- !app_assoc. f_equal. lia.
      * subst p. rewrite len_app. lia.
      * rewrite length_skipn. lia.
      * inversion Hne; assumption.
    + rewrite length_firstn. lia.
    + inversion Hne; assumption.
Qed.

(** A read of bytes that are there. *)
Lemma fread_exact (f : FILE) (x post : bytes) :
  skipn (Z.to_nat (f_pos f)) (f_data f) = x ++ post -> x <> [] ->
  fread (len x) f = (1, x, mkFILE (f_data f) (f_pos f + len x)).
Proof.
  intros H Hx. unfold fread. rewrite H.
  assert (0 < len x) by (destruct x; [contradiction Hx; reflexivity|unfold len; cbn; lia]).
  destruct (Z.leb_spec (len x) 0); [lia|].
  rewrite len_app. pose proof (len_nonneg post).
  destruct (Z.leb_spec (len x) (len x + len post)); [|lia].
  unfold len at 1. rewrite Nat2Z.id, firstn_app, Nat.sub_diag, firstn_O, firstn_all, app_nil_r.
  reflexivity.
Qed.

Lemma skipn_advance {A : Type} (l x post : list A) (p : Z) :
  0 <= p -> skipn (Z.to_nat p) l = x ++ post ->
  skipn (Z.to_nat (p + len x)) l = post.
Proof.
  intros Hp H. unfold len. rewrite Z2Nat.inj_add, Nat2Z.id by lia.
  rewrite Nat.add_comm, <- skipn_skipn, H, skipn_app, skipn_all, Nat.sub_diag.
  reflexivity.
Qed.


Lemma load_mid {A : Type} (pre post : list A) (x : A) (i : Z) :
  i = len pre -> load (pre ++ x :: post) i = Some x.
Proof.
  intros ->. pose proof (len_nonneg pre). rewrite load_spec by lia. unfold len.
  rewrite Nat2Z.id, nth_error_app2, Nat.sub_diag by lia. reflexivity.
Qed.

Lemma store_mid {A : Type} (pre post : list A) (x v : A) (i : Z) :
  i = len pre -> store (pre ++ x :: post) i v = Some (pre ++ v :: post).
Proof.
  intros ->. pose proof (len_nonneg pre). rewrite store_spec.
  - unfold len. rewrite Nat2Z.id, firstn_app, Nat.sub_diag, firstn_O, firstn_all, app_nil_r.
    replace (S (length pre)) with (length pre + 1)%nat by lia.
    rewrite skipn_app, skipn_all2 by lia.
    replace (length pre + 1 - length pre)%nat with 1%nat by lia. reflexivity.
  - rewrite len_app, len_cons. pose proof (len_nonneg post). lia.
Qed.

Lemma update_mid {A : Type} (pre post : list A) (x : A) (g : A -> A) (i : Z) :
  i = len pre -> update (pre ++ x :: post) i g = Some (pre ++ g x :: post).
Proof.
  intros Hi. unfold update. rewrite (load_mid pre post x i Hi).
  apply store_mid. exact Hi.
Qed.

Lemma update_head {A : Type} (x : A) (l : list A) (g : A -> A) :
  update (x :: l) 0 g = Some (g x :: l).
Proof. reflexivity. Qed.

Lemma with_slots_at (pre rest vals : list Z) (idx : Z) :
  idx = len pre ->
  with_slots (pre ++ rest) idx vals = pre ++ vals ++ skipn (length vals) rest.
Proof.
  intros ->. unfold with_slots. rewrite to_nat_len.
  rewrite firstn_app, Nat.sub_diag, firstn_O, firstn_all, app_nil_r.
  rewrite skipn_app, skipn_all2 by lia.
  replace (length pre + length vals - length pre)%nat with (length vals) by lia.
  reflexivity.
Qed.

Lemma with_slots_app (table : list Z) (idx idx' : Z) (a b : list Z) :
  0 <= idx -> idx' = idx + len a -> idx + len a + len b <= len table ->
  with_slots (with_slots table idx a) idx' b = with_slots table idx (a ++ b).
Proof.
  intros Hi -> Hl. unfold len in Hl.
  rewrite <- (firstn_skipn (Z.to_nat idx) table).
  set (pre := firstn (Z.to_nat idx) table). set (rest := skipn (Z.to_nat idx) table).
  assert (Hpre : idx = len pre).
  { unfold pre, len. rewrite length_firstn, Nat.min_l by lia. lia. }
  rewrite (with_slots_at pre rest a idx Hpre), (with_slots_at pre rest (a ++ b) idx Hpre).
  rewrite (app_assoc pre a), (with_slots_at (pre ++ a)).
  - rewrite <- !app_assoc, skipn_skipn, length_app, (Nat.add_comm (length b)).
    reflexivity.
  - rewrite len_app. lia.
Qed.

Lemma with_slots_all (table vals : list Z) :
  length vals = length table -> with_slots table 0 vals = vals.
Proof.
  intros H. unfold with_slots. cbn [Z.to_nat firstn app Nat.add].
  rewrite skipn_all2 by lia. apply app_nil_r.
Qed.

Lemma sum_app (a b : list Z) : sum (a ++ b) = sum a + sum b.
Proof. induction a as [|x a IH]; cbn [app sum]; lia. Qed.

Lemma len_concat (l : list bytes) : len (concat l) = sum (map len l).
Proof.
  induction l as [|x l IH]; [reflexivity|].
  cbn [concat map sum]. rewrite len_app, IH. reflexivity.
Qed.

Lemma len_map {A B : Type} (g : A -> B) (l : list A) : len (map g l) = len l.
Proof. unfold len. rewrite length_map. reflexivity. Qed.


(** ** The blocks of an entry (C1) *)

Lemma split_blocks_shape (bs : Z) :
  1 <= bs ->
  forall (n : nat) (data : bytes),
    Z.of_nat n = blocks_of bs (len data) ->
    concat (split_blocks n bs data) = data
    /\ Forall (fun b => 0 < len b <= bs) (split_blocks n bs data).
Proof.
  intros Hbs. induction n as [|n IH]; intros data Hn.
  - cbn [split_blocks concat]. split; [|constructor].
    destruct data as [|x data]; [reflexivity|]. exfalso.
    pose proof (len_nonneg data). rewrite len_cons in Hn.
    pose proof (blocks_of_step bs (1 + len data) Hbs ltac:(lia)) as Hs.
    pose proof (blocks_of_nonneg bs
                  (1 + len data - (if 1 + len data <? bs then 1 + len data else bs))
                  Hbs ltac:(destruct (Z.ltb_spec (1 + len data) bs); lia)).
    lia.
  - cbn [split_blocks concat].
    pose proof (len_nonneg data) as Hd.
    assert (Hpos : 0 < len data).
    { destruct (Z.eq_dec (len data) 0) as [H0|H0]; [|lia].
      rewrite H0, blocks_of_0 in Hn by lia. lia. }
    pose proof (blocks_of_step bs (len data) Hbs Hpos) as Hs.
    assert (Hf : len (firstn (Z.to_nat bs) data)
                 = if len data <? bs then len data else bs).
    { unfold len. rewrite length_firstn.
      destruct (Z.ltb_spec (Z.of_nat (length data)) bs); lia. }
    assert (Hk : len (skipn (Z.to_nat bs) data)
                 = len data - (if len data <? bs then len data else bs)).
    { unfold len. rewrite length_skipn.
      destruct (Z.ltb_spec (Z.of_nat (length data)) bs); lia. }
    destruct (IH (skipn (Z.to_nat bs) data)) as [Hc Hall].
    { rewrite Hk. lia. }
    rewrite Hc, firstn_skipn. split; [reflexivity|].
    constructor; [|exact Hall].
    rewrite Hf. destruct (Z.ltb_spec (len data) bs); lia.
Qed.

Lemma entry_blocks_shape (ai : ARCHIVEINFO) (input : bytes) :
  1 <= block_size ai ->
  concat (entry_blocks ai input) = input
  /\ Forall (fun b => 0 < len b <= block_size ai) (entry_blocks ai input)
  /\ len (entry_blocks ai input) = blocks_of (block_size ai) (len input).
Proof.
  intros Hbs. pose proof (len_nonneg input).
  pose proof (blocks_of_nonneg (block_size ai) (len input) Hbs ltac:(lia)) as Hn.
  destruct (split_blocks_shape (block_size ai) Hbs
              (Z.to_nat (blocks_of (block_size ai) (len input))) input)
    as [Hc Hall]; [lia|].
  split; [exact Hc|]. split; [exact Hall|].
  unfold entry_blocks, len at 1. rewrite split_blocks_length. lia.
Qed.

Lemma entry_blocks_nil (ai : ARCHIVEINFO) :
  1 <= block_size ai -> entry_blocks ai [] = [].
Proof.
  intros Hbs. unfold entry_blocks. change (len (@nil Z)) with 0.
  rewrite blocks_of_0 by lia. reflexivity.
Qed.

Lemma emit_fallback {E : External} (cfg : CONFIG) (ai : ARCHIVEINFO) (pool : bool)
    (blk : bytes) :
  emit cfg ai pool blk
  = fallback (if pool then encoder_output_thread cfg ai blk
              else encoder_output cfg ai blk) blk.
Proof.
  unfold emit. destruct pool;
    [apply compress_block_thread_fallback|apply compress_block_fallback].
Qed.

Lemma emit_le {E : External} (cfg : CONFIG) (ai : ARCHIVEINFO) (pool : bool)
    (blk : bytes) :
  len (emit cfg ai pool blk) <= len blk.
Proof. rewrite emit_fallback. apply fallback_le. Qed.

Lemma sum_nonneg (l : list bytes) : 0 <= sum (map len l).
Proof.
  induction l as [|x l IH]; cbn [map sum]; [lia|].
  pose proof (len_nonneg x). lia.
Qed.

Lemma sum_emit_le {E : External} (cfg : CONFIG) (ai : ARCHIVEINFO) (pool : bool)
    (blks : list bytes) :
  sum (map len (map (emit cfg ai pool) blks)) <= sum (map len blks).
Proof.
  induction blks as [|b l IH]; cbn [map sum]; [lia|].
  pose proof (emit_le cfg ai pool b). lia.
Qed.

Lemma sum_emitted_le {E : External} (cfg : CONFIG) (ai : ARCHIVEINFO) (pool : bool)
    (input : bytes) :
  1 <= block_size ai ->
  0 <= sum (map len (emitted_blocks cfg ai pool input)) <= len input.
Proof.
  intros Hbs. split; [apply sum_nonneg|].
  destruct (entry_blocks_shape ai input Hbs) as (Hc & _ & _).
  pose proof (sum_emit_le cfg ai pool (entry_blocks ai input)) as Hle.
  rewrite <- (len_concat (entry_blocks ai input)), Hc in Hle. exact Hle.
Qed.

Lemma len_emitted_blocks {E : External} (cfg : CONFIG) (ai : ARCHIVEINFO)
    (pool : bool) (input : bytes) :
  1 <= block_size ai ->
  len (emitted_blocks cfg ai pool input) = blocks_of (block_size ai) (len input).
Proof.
  intros Hbs. unfold emitted_blocks. rewrite len_map.
  apply entry_blocks_shape. exact Hbs.
Qed.

Lemma count_blocks (bs size : Z) :
  1 <= bs < 2 ^ 32 -> 0 <= size < 2 ^ 40 -> blocks_of bs size < 2 ^ 32 ->
  u32 (u64 (size + bs - 1) / bs) = blocks_of bs size.
Proof.
  intros Hbs Hs Hn. unfold u32, u64, blocks_of in *.
  rewrite (Z.mod_small (size + bs - 1)) by lia.
  apply Z.mod_small. split; [|lia]. apply Z.div_pos; lia.
Qed.

(** ** One entry, synchronously (C1) *)

Lemma compress_entry_spec {E : External} (cfg : CONFIG) (ai : ARCHIVEINFO)
    (input : bytes) (input_fp : bool) (i : Z) (st : PAK) (pre post : list FILEINFO)
    (fi : FILEINFO) :
  1 <= block_size ai ->
  buffers_hold cfg ai false input_fp input = true ->
  files_info_table st = pre ++ fi :: post -> i = len pre ->
  uncompressed_size fi = len input ->
  num_blocks fi = blocks_of (block_size ai) (len input) ->
  0 <= blocktable_idx st ->
  blocktable_idx st + blocks_of (block_size ai) (len input) <= len (blocktable st) ->
  len (blocktable st) < 2 ^ 32 ->
  0 <= total_size st -> total_size st + len input < 2 ^ 64 ->
  compress_entry cfg ai input input_fp i st
  = Some (mkPAK (fwrite_all (emitted_blocks cfg ai false input) (archive_file st))
                (total_size st + sum (map len (emitted_blocks cfg ai false input)))
                (with_slots (blocktable st) (blocktable_idx st)
                            (map (fun b => u32 (len b))
                                 (emitted_blocks cfg ai false input)))
                (blocktable_idx st + len (emitted_blocks cfg ai false input))
                (pre ++ set_compressed_size
                          (set_block_index (set_offset fi (total_size st))
                                           (blocktable_idx st))
                          (sum (map len (emitted_blocks cfg ai false input)))
                     :: post)).
Proof.
  intros Hbs Hg Ht Hi Hu Hn Hidx Hr Hlt Ht0 Ht1.
  pose proof (len_nonneg input) as Hlen0.
  pose proof (blocks_of_nonneg (block_size ai) (len input) Hbs Hlen0) as Hbn.
  pose proof (sum_emitted_le cfg ai false input Hbs) as Hsum.
  unfold compress_entry. rewrite Ht, (load_mid pre post fi i Hi).
  cbn [num_blocks set_block_index set_offset uncompressed_size].
  rewrite Hn, Hu.
  rewrite (compress_entry_loop_spec cfg ai Hbs input input_fp ltac:(lia));
    try lia; try (rewrite Z.sub_0_r; lia); try exact Hg.
  cbn [Z.to_nat skipn]. fold (entry_blocks ai input).
  change (map (compress_block cfg ai) (entry_blocks ai input))
    with (emitted_blocks cfg ai false input).
  rewrite (store_mid pre post fi _ i Hi).
  rewrite (len_emitted_blocks cfg ai false input Hbs).
  unfold u64. rewrite Z.mod_small by lia.
  rewrite Z.add_0_l, Z2Nat.id by lia. reflexivity.
Qed.

(** ** The entries of the files (C1) *)

Lemma total_blocks_nonneg (ai : ARCHIVEINFO) (inputs : list bytes) :
  1 <= block_size ai -> 0 <= total_blocks ai inputs.
Proof.
  intros Hbs. unfold total_blocks.
  induction inputs as [|d l IH]; cbn [map sum]; [lia|].
  pose proof (blocks_of_nonneg (block_size ai) (len d) Hbs (len_nonneg d)). lia.
Qed.

Lemma total_blocks_cons (ai : ARCHIVEINFO) (d : bytes) (inputs : list bytes) :
  total_blocks ai (d :: inputs)
  = blocks_of (block_size ai) (len d) + total_blocks ai inputs.
Proof. reflexivity. Qed.

Lemma all_emitted_cons {E : External} (cfg : CONFIG) (ai : ARCHIVEINFO)
    (pool : bool) (p : cstring * bytes) (files : list (cstring * bytes)) :
  all_emitted cfg ai pool (p :: files)
  = emitted_blocks cfg ai pool (snd p) ++ all_emitted cfg ai pool files.
Proof. reflexivity. Qed.

Lemma len_all_emitted {E : External} (cfg : CONFIG) (ai : ARCHIVEINFO)
    (pool : bool) (files : list (cstring * bytes)) :
  1 <= block_size ai ->
  len (all_emitted cfg ai pool files) = total_blocks ai (map snd files).
Proof.
  intros Hbs. induction files as [|p files IH]; [reflexivity|].
  rewrite all_emitted_cons, len_app, IH, len_emitted_blocks by exact Hbs.
  reflexivity.
Qed.


Lemma sum_sizes_nonneg (files : list (cstring * bytes)) :
  0 <= sum (map len (map snd files)).
Proof.
  induction files as [|p files IH]; cbn [map sum]; [lia|].
  pose proof (len_nonneg (snd p)). lia.
Qed.

Section Entries.
Context {E : External}.
Variable cfg : CONFIG.
Variable ai : ARCHIVEINFO.
Variable junk : FILEINFO.
Hypothesis block_size_range : 1 <= block_size ai < 2 ^ 32.

Lemma create_entries_sync_spec (files : list (cstring * bytes)) :
  forall (pre : list FILEINFO) (st : PAK) (i : Z),
    files_info_table st = pre ++ map (fun p => sized ai junk (snd p)) files ->
    i = len pre ->
    0 <= blocktable_idx st ->
    blocktable_idx st + total_blocks ai (map snd files) <= len (blocktable st) ->
    len (blocktable st) < 2 ^ 32 ->
    0 <= total_size st ->
    total_size st + sum (map len (map snd files)) < 2 ^ 64 ->
    Forall (fun p => buffers_hold cfg ai false true (snd p) = true) files ->
    create_entries_sync cfg ai files i st
    = Some (mkPAK (fwrite_all (all_emitted cfg ai false files) (archive_file st))
                  (total_size st + sum (map len (all_emitted cfg ai false files)))
                  (with_slots (blocktable st) (blocktable_idx st)
                              (map (fun b => u32 (len b))
                                   (all_emitted cfg ai false files)))
                  (blocktable_idx st + len (all_emitted cfg ai false files))
                  (pre ++ written_entries cfg ai false junk files
                            (blocktable_idx st) (total_size st))).
Proof.
  assert (Hbs : 1 <= block_size ai) by lia.
  induction files as [|[path content] files IH];
    intros pre st i Ht Hi Hidx Hr Hlt Ht0 Ht1 Hg.
  - destruct st as [f total table idx tbl]. cbn in Ht. cbn.
    rewrite with_slots_nil, !Z.add_0_r, Ht. reflexivity.
  - cbn [create_entries_sync]. cbn [map snd fst] in *.
    pose proof (Forall_inv Hg) as Hg1. pose proof (Forall_inv_tail Hg) as Hg2.
    cbn [snd] in Hg1.
    rewrite total_blocks_cons in Hr. cbn [sum] in Ht1.
    pose proof (total_blocks_nonneg ai (map snd files) Hbs) as Hn0.
    pose proof (sum_sizes_nonneg files) as Hs0.
    pose proof (len_nonneg content) as Hc0.
    pose proof (blocks_of_nonneg (block_size ai) (len content) Hbs Hc0) as Hb0.
    rewrite Ht, (update_mid pre _ _ _ i Hi).
    rewrite (compress_entry_spec cfg ai content true i _ pre
               (map (fun p => sized ai junk (snd p)) files)
               (set_filename (sized ai junk content) (Some path)));
      cbn [files_info_table blocktable blocktable_idx total_size archive_file];
      try reflexivity; try lia; try exact Hg1.
    pose proof (sum_emitted_le cfg ai false content Hbs) as Hsum.
    pose proof (len_emitted_blocks cfg ai false content Hbs) as Hlen.
    rewrite (IH (pre ++ [set_compressed_size
                           (set_block_index
                              (set_offset (set_filename (sized ai junk content)
                                                        (Some path))
                                          (total_size st))
                              (blocktable_idx st))
                           (sum (map len (emitted_blocks cfg ai false content)))])
                _ (i + 1));
      cbn [files_info_table blocktable blocktable_idx total_size archive_file].
    + rewrite all_emitted_cons. cbn [snd fst written_entries andb].
      rewrite fwrite_all_app, !map_app, sum_app, len_app, <- !app_assoc.
      rewrite (with_slots_app _ (blocktable_idx st)).
      * rewrite !Z.add_assoc. reflexivity.
      * exact Hidx.
      * rewrite len_map. reflexivity.
      * rewrite (len_map _ (emitted_blocks cfg ai false content)),
          (len_map _ (all_emitted cfg ai false files)), Hlen,
          len_all_emitted by exact Hbs.
        lia.
    + rewrite <- app_assoc. reflexivity.
    + rewrite len_app, len_cons. subst i. reflexivity.
    + lia.
    + rewrite with_slots_len;
        rewrite ?(len_map _ (emitted_blocks cfg ai false content)), ?Hlen; lia.
    + rewrite with_slots_len;
        rewrite ?(len_map _ (emitted_blocks cfg ai false content)), ?Hlen; lia.
    + lia.
    + lia.
    + exact Hg2.
Qed.

Lemma dispatch_entries_spec (files : list (cstring * bytes)) :
  forall (pre : list FILEINFO) (st : PAK) (i : Z),
    files_info_table st = pre ++ map (fun p => sized ai junk (snd p)) files ->
    i = len pre ->
    0 <= blocktable_idx st ->
    blocktable_idx st + total_blocks ai (map snd files) < 2 ^ 32 ->
    sum (map len (map snd files)) < 2 ^ 40 ->
    Forall (fun p => forallb (slot_holds_input ai) (entry_blocks ai (snd p)) = true)
           files ->
    dispatch_entries ai files i st
    = Some (tasks_for ai files i (blocktable_idx st),
            mkPAK (archive_file st) (total_size st) (blocktable st)
                  (blocktable_idx st + total_blocks ai (map snd files))
                  (pre ++ map (dispatched ai junk) files)).
Proof.
  assert (Hbs : 1 <= block_size ai) by lia.
  induction files as [|[path content] files IH]; intros pre st i Ht Hi Hidx Hr Hs Hg.
  - destruct st as [f total table idx tbl]. cbn in Ht. cbn.
    rewrite Z.add_0_r, Ht. reflexivity.
  - cbn [dispatch_entries]. cbn [map snd fst] in *.
    pose proof (Forall_inv Hg) as Hg1. pose proof (Forall_inv_tail Hg) as Hg2.
    cbn [snd] in Hg1.
    rewrite total_blocks_cons in Hr. cbn [sum] in Hs.
    pose proof (total_blocks_nonneg ai (map snd files) Hbs) as Hn0.
    pose proof (sum_sizes_nonneg files) as Hs0.
    pose proof (len_nonneg content) as Hc0.
    pose proof (blocks_of_nonneg (block_size ai) (len content) Hbs Hc0) as Hb0.
    destruct (entry_blocks_shape ai content Hbs) as (_ & _ & Hlen).
    rewrite Ht, (update_mid pre _ _ _ i Hi).
    unfold compress_entry_multi.
    cbn [files_info_table blocktable blocktable_idx total_size archive_file].
    rewrite (load_mid pre _ _ i Hi).
    cbn [uncompressed_size set_filename sized set_num_blocks set_uncompressed_size].
    unfold dispatched at 1. cbn [snd fst tasks_for].
    destruct (Z.eqb_spec (len content) 0) as [H0|H0].
    + rewrite (store_mid pre _ _ _ i Hi).
      rewrite (IH (pre ++ [set_compressed_size
                             (set_filename (sized ai junk content) (Some path)) 0])
                  _ (i + 1));
        cbn [files_info_table blocktable blocktable_idx total_size archive_file].
      * rewrite total_blocks_cons, Hlen, H0, blocks_of_0 by lia.
        rewrite <- app_assoc, Z.add_0_r. cbn [app].
        unfold entry_blocks. rewrite H0, blocks_of_0 by lia.
        reflexivity.
      * rewrite <- app_assoc. reflexivity.
      * rewrite len_app, len_cons. subst i. reflexivity.
      * lia.
      * lia.
      * lia.
      * exact Hg2.
    + destruct (Z.eqb_spec (block_size ai) 0) as [Hz|Hz]; [lia|].
      rewrite count_blocks by lia.
      rewrite (compress_entry_multi_loop_spec ai Hbs content i ltac:(lia));
        try lia; try (rewrite Z.sub_0_r; lia); try exact Hg1.
      cbn [Z.to_nat skipn]. fold (entry_blocks ai content).
      rewrite (IH (pre ++ [set_filename (sized ai junk content) (Some path)])
                  _ (i + 1));
        cbn [files_info_table blocktable blocktable_idx total_size archive_file].
      * rewrite total_blocks_cons, Hlen, <- app_assoc, Z2Nat.id by lia.
        rewrite !Z.add_assoc. reflexivity.
      * rewrite <- app_assoc. reflexivity.
      * rewrite len_app, len_cons. subst i. reflexivity.
      * lia.
      * lia.
      * lia.
      * exact Hg2.
Qed.

Lemma commit_tasks_app (a b : list PAKDATA) :
  forall st : PAK,
    commit_tasks cfg ai (a ++ b) st
    = (st' <- commit_tasks cfg ai a st ;; commit_tasks cfg ai b st').
Proof.
  induction a as [|pkd a IH]; intros st; cbn [app commit_tasks]; [reflexivity|].
  destruct (compress_entry_thread cfg ai pkd st) as [st'|]; [apply IH|reflexivity].
Qed.

Lemma commit_all_spec (files : list (cstring * bytes)) :
  forall (pre : list FILEINFO) (st : PAK) (i idx : Z),
    files_info_table st = pre ++ map (dispatched ai junk) files ->
    i = len pre ->
    0 <= idx ->
    idx + total_blocks ai (map snd files) <= len (blocktable st) ->
    0 <= total_size st ->
    total_size st + sum (map len (map snd files)) < 2 ^ 64 ->
    Forall (fun p => forallb (slot_holds_output cfg ai) (entry_blocks ai (snd p))
                     = true) files ->
    commit_tasks cfg ai (tasks_for ai files i idx) st
    = Some (mkPAK (fwrite_all (all_emitted cfg ai true files) (archive_file st))
                  (total_size st + sum (map len (all_emitted cfg ai true files)))
                  (with_slots (blocktable st) idx
                              (map (fun b => u32 (len b))
                                   (all_emitted cfg ai true files)))
                  (blocktable_idx st)
                  (pre ++ written_entries cfg ai true junk files idx
                            (total_size st))).
Proof.
  assert (Hbs : 1 <= block_size ai) by lia.
  induction files as [|[path content] files IH];
    intros pre st i idx Ht Hi Hidx Hr Ht0 Ht1 Hg.
  - destruct st as [f total table bidx tbl]. cbn in Ht. cbn.
    rewrite with_slots_nil, !Z.add_0_r, Ht. reflexivity.
  - cbn [tasks_for map snd fst] in *.
    pose proof (Forall_inv Hg) as Hg1. pose proof (Forall_inv_tail Hg) as Hg2.
    cbn [snd] in Hg1.
    rewrite total_blocks_cons in Hr. cbn [sum] in Ht1.
    pose proof (total_blocks_nonneg ai (map snd files) Hbs) as Hn0.
    pose proof (sum_sizes_nonneg files) as Hs0.
    pose proof (len_nonneg content) as Hc0.
    pose proof (blocks_of_nonneg (block_size ai) (len content) Hbs Hc0) as Hb0.
    destruct (entry_blocks_shape ai content Hbs) as (_ & Hshape & Hlen).
    pose proof (sum_emitted_le cfg ai true content Hbs) as Hsum.
    pose proof (len_emitted_blocks cfg ai true content Hbs) as Hlen'.
    rewrite commit_tasks_app.
    unfold dispatched at 1 in Ht. cbn [snd fst] in Ht.
    rewrite all_emitted_cons. cbn [snd fst written_entries andb].
    destruct (Z.eqb_spec (len content) 0) as [H0|H0].
    + assert (Hnil : entry_blocks ai content = []).
      { destruct (entry_blocks ai content) as [|b l]; [reflexivity|].
        rewrite len_cons, H0, blocks_of_0 in Hlen by lia.
        pose proof (len_nonneg l). lia. }
      unfold emitted_blocks. rewrite Hnil. cbn [tasks_of commit_tasks map app sum].
      change (len (@nil bytes)) with 0. rewrite !Z.add_0_r.
      rewrite H0, blocks_of_0 in Hr by lia.
      rewrite (IH (pre ++ [set_compressed_size
                             (set_filename (sized ai junk content) (Some path)) 0])
                  st (i + 1) idx); try lia; try exact Hg2.
      * rewrite <- app_assoc. reflexivity.
      * rewrite Ht, <- app_assoc. reflexivity.
      * rewrite len_app, len_cons. subst i. reflexivity.
    + assert (Hne : entry_blocks ai content <> []).
      { intros Hnil. rewrite Hnil in Hlen. change (len (@nil bytes)) with 0 in Hlen.
        pose proof (blocks_of_step (block_size ai) (len content) Hbs ltac:(lia)).
        pose proof (blocks_of_nonneg (block_size ai)
                      (len content - (if len content <? block_size ai
                                      then len content else block_size ai))
                      Hbs
                      ltac:(destruct (Z.ltb_spec (len content) (block_size ai)); lia)).
        lia. }
      assert (Hload : load (files_info_table st) i
                      = Some (set_filename (sized ai junk content) (Some path)))
        by (rewrite Ht; apply load_mid; exact Hi).
      assert (Hfit : idx + len (entry_blocks ai content) <= len (blocktable st))
        by lia.
      assert (Hroom : total_size st
                      + sum (map len (map (compress_block_thread cfg ai)
                                          (entry_blocks ai content))) < 2 ^ 64).
      { change (map (compress_block_thread cfg ai) (entry_blocks ai content))
          with (emitted_blocks cfg ai true content). lia. }
      destruct (commit_tasks_entry cfg ai i (entry_blocks ai content) true idx st
                  (set_filename (sized ai junk content) (Some path))
                  Hne Hg1 Hload Hidx Hfit Ht0 Hroom (or_intror eq_refl)
                  ltac:(discriminate))
        as (tbl & Hrun & Hst).
      * change (map (compress_block_thread cfg ai) (entry_blocks ai content))
          with (emitted_blocks cfg ai true content) in *.
        rewrite Ht, (store_mid pre _ _ _ i Hi) in Hst. injection Hst as <-.
        rewrite Hrun.
        rewrite (IH (pre ++ [committed true idx (total_size st)
                               (sum (map len (emitted_blocks cfg ai true content)))
                               (set_filename (sized ai junk content) (Some path))])
                    _ (i + 1) (idx + len (entry_blocks ai content)));
          cbn [files_info_table blocktable blocktable_idx total_size archive_file].
        -- rewrite fwrite_all_app, !map_app, sum_app, <- !app_assoc.
           rewrite <- Hlen in Hlen'. rewrite <- Hlen'.
           rewrite (with_slots_app _ idx).
           ++ rewrite !Z.add_assoc. reflexivity.
           ++ exact Hidx.
           ++ rewrite len_map. reflexivity.
           ++ rewrite (len_map _ (emitted_blocks cfg ai true content)),
                (len_map _ (all_emitted cfg ai true files)), Hlen', Hlen,
                len_all_emitted by exact Hbs.
              lia.
        -- rewrite <- app_assoc. reflexivity.
        -- rewrite len_app, len_cons. subst i. reflexivity.
        -- lia.
        -- rewrite with_slots_len;
             rewrite ?(len_map _ (emitted_blocks cfg ai true content)), ?Hlen', ?Hlen;
             lia.
        -- lia.
        -- lia.
        -- exact Hg2.
Qed.

(** Both entry loops of [create_archive] leave the same kind of state. *)
Lemma create_entries_spec (files : list (cstring * bytes)) (pre : list FILEINFO)
    (st : PAK) (i : Z) :
  files_info_table st = pre ++ map (fun p => sized ai junk (snd p)) files ->
  i = len pre ->
  0 <= blocktable_idx st ->
  blocktable_idx st + total_blocks ai (map snd files) <= len (blocktable st) ->
  len (blocktable st) < 2 ^ 32 ->
  0 <= total_size st ->
  total_size st + sum (map len (map snd files)) < 2 ^ 40 ->
  Forall (fun p => buffers_hold cfg ai (threaded cfg) true (snd p) = true) files ->
  (if threaded cfg then create_entries_multi cfg ai files i st
   else create_entries_sync cfg ai files i st)
  = Some (mkPAK (fwrite_all (all_emitted cfg ai (threaded cfg) files) (archive_file st))
                (total_size st
                 + sum (map len (all_emitted cfg ai (threaded cfg) files)))
                (with_slots (blocktable st) (blocktable_idx st)
                            (map (fun b => u32 (len b))
                                 (all_emitted cfg ai (threaded cfg) files)))
                (blocktable_idx st + len (all_emitted cfg ai (threaded cfg) files))
                (pre ++ written_entries cfg ai (threaded cfg) junk files
                          (blocktable_idx st) (total_size st))).
Proof.
  intros Ht Hi Hidx Hr Hlt Ht0 Ht1 Hg.
  assert (Hbs : 1 <= block_size ai) by lia.
  pose proof (sum_sizes_nonneg files) as Hs0.
  destruct (threaded cfg).
  - assert (Hgi : Forall (fun p => forallb (slot_holds_input ai)
                                           (entry_blocks ai (snd p)) = true) files)
      by (eapply Forall_impl; [|exact Hg]; intros p Hp;
          apply (buffers_hold_pool cfg ai true (snd p) Hp)).
    assert (Hgo : Forall (fun p => forallb (slot_holds_output cfg ai)
                                           (entry_blocks ai (snd p)) = true) files)
      by (eapply Forall_impl; [|exact Hg]; intros p Hp;
          apply (buffers_hold_pool cfg ai true (snd p) Hp)).
    unfold create_entries_multi.
    rewrite (dispatch_entries_spec files pre st i Ht Hi Hidx); try lia;
      try exact Hgi.
    rewrite (commit_all_spec files pre _ i (blocktable_idx st));
      cbn [files_info_table blocktable blocktable_idx total_size archive_file];
      try reflexivity; try assumption; try lia.
    rewrite len_all_emitted by exact Hbs. reflexivity.
  - apply create_entries_sync_spec; try assumption. lia.
Qed.
End Entries.

(** ** The manifest (C1) *)

Lemma strrchr_none (c : Z) (s : cstring) : strrchr c s = None -> ~ In c s.
Proof.
  induction s as [|x t IH]; intros H; [intros []|].
  cbn [strrchr] in H. destruct (strrchr c t) as [r|]; [discriminate H|].
  destruct (Z.eqb_spec x c) as [Hx|Hx]; [discriminate H|].
  intros [Hin|Hin]; [contradiction|]. exact (IH eq_refl Hin).
Qed.

Lemma strrchr_some (c : Z) (s r : cstring) :
  strrchr c s = Some r -> exists t, r = c :: t /\ ~ In c t.
Proof.
  induction s as [|x t IH]; intros H; [discriminate H|].
  cbn [strrchr] in H. destruct (strrchr c t) as [r'|] eqn:Hr.
  - injection H as <-. apply IH. reflexivity.
  - destruct (Z.eqb_spec x c) as [Hx|Hx]; [|discriminate H].
    injection H as <-. subst x. exists t. split; [reflexivity|].
    apply strrchr_none. exact Hr.
Qed.

Lemma manifest_name_len_eq (cfg : CONFIG) (ai : ARCHIVEINFO) (path : cstring) :
  manifest_name_len cfg ai path = len (manifest_name cfg ai path).
Proof.
  unfold manifest_name_len, manifest_name.
  destruct (trim_path_flag cfg); [destruct (strrchr 47 path) as [px|] eqn:Hp|].
  - destruct (strrchr_some 47 path px Hp) as (t & -> & Hnot).
    cbn [tl hd skip_slashes]. rewrite Z.eqb_refl.
    destruct (abspath ai); [|reflexivity].
    rewrite len_cons.
    destruct t as [|y t]; cbn [hd]; [reflexivity|].
    destruct (Z.eqb_spec y 47) as [Hy|Hy]; [|lia].
    exfalso. apply Hnot. left. exact Hy.
  - destruct (abspath ai); [|reflexivity].
    destruct (hd 0 path =? 47); [reflexivity|]. rewrite len_cons. lia.
  - destruct (abspath ai); [|reflexivity].
    destruct (hd 0 path =? 47); [reflexivity|]. rewrite len_cons. lia.
Qed.

Lemma filenames_length_eq (cfg : CONFIG) (ai : ARCHIVEINFO) (paths : list cstring) :
  filenames_length cfg ai paths = len (build_filenames cfg ai paths).
Proof.
  induction paths as [|p rest IH]; [reflexivity|].
  cbn [filenames_length build_filenames].
  rewrite !len_app, IH, manifest_name_len_eq.
  destruct rest; [change (len (@nil Z)) with 0|rewrite (len_cons 10 [])];
    change (len (@nil Z)) with 0; lia.
Qed.

Lemma build_filenames_set_toc (cfg : CONFIG) (ai : ARCHIVEINFO) (a b : Z)
    (paths : list cstring) :
  build_filenames cfg (set_toc ai a b) paths = build_filenames cfg ai paths.
Proof.
  induction paths as [|p rest IH]; [reflexivity|].
  cbn [build_filenames]. rewrite IH. reflexivity.
Qed.

Lemma filenames_length_set_toc (cfg : CONFIG) (ai : ARCHIVEINFO) (a b : Z)
    (paths : list cstring) :
  filenames_length cfg (set_toc ai a b) paths = filenames_length cfg ai paths.
Proof.
  induction paths as [|p rest IH]; [reflexivity|].
  cbn [filenames_length]. rewrite IH. reflexivity.
Qed.

Lemma written_entries_set_toc {E : External} (cfg : CONFIG) (ai : ARCHIVEINFO)
    (a b : Z) (pool : bool) (junk : FILEINFO) (files : list (cstring * bytes)) :
  forall idx off : Z,
    written_entries cfg (set_toc ai a b) pool junk files idx off
    = written_entries cfg ai pool junk files idx off.
Proof.
  induction files as [|p rest IH]; intros idx off; [reflexivity|].
  cbn [written_entries]. rewrite IH. reflexivity.
Qed.

(** ** Sizing the entries (C1) *)

Lemma get_blocktable_size_spec (ai : ARCHIVEINFO) (junk : FILEINFO)
    (files : list (cstring * bytes)) :
  1 <= block_size ai < 2 ^ 32 ->
  forall (pre : list FILEINFO) (first block_off : Z),
    first = len pre ->
    0 <= block_off ->
    block_off + total_blocks ai (map snd files) < 2 ^ 32 ->
    sum (map len (map snd files)) < 2 ^ 40 ->
    get_blocktable_size ai files first (pre ++ map (fun _ => junk) files) block_off
    = Some (block_off + total_blocks ai (map snd files),
            pre ++ map (fun p => sized ai junk (snd p)) files).
Proof.
  intros Hb. assert (Hbs : 1 <= block_size ai) by lia.
  induction files as [|[path content] files IH]; intros pre first block_off Hf Ho Hr Hs.
  - cbn. rewrite Z.add_0_r. reflexivity.
  - cbn [get_blocktable_size map snd fst] in *.
    rewrite total_blocks_cons in *. cbn [sum] in Hs.
    pose proof (total_blocks_nonneg ai (map snd files) Hbs) as Hn0.
    pose proof (sum_sizes_nonneg files) as Hs0.
    pose proof (len_nonneg content) as Hc0.
    pose proof (blocks_of_nonneg (block_size ai) (len content) Hbs Hc0) as Hb0.
    destruct (Z.eqb_spec (block_size ai) 0) as [Hz|Hz]; [lia|].
    rewrite (u64_small (len content)) by lia.
    rewrite count_blocks by lia.
    rewrite (update_mid pre _ _ _ first Hf).
    rewrite u32_small by lia. cbv beta.
    fold (sized ai junk content). rewrite app_cons_assoc.
    rewrite (IH (pre ++ [sized ai junk content]) (first + 1)).
    + rewrite <- app_assoc, Z.add_assoc. reflexivity.
    + rewrite len_app, len_cons. subst first. reflexivity.
    + lia.
    + lia.
    + lia.
Qed.

(** ** The table of contents and the block table on disk (C1) *)

Lemma toc_bytes_named {E : External} (ai : ARCHIVEINFO) (i : Z) (fi : FILEINFO) :
  i = 0 \/ filename fi <> None ->
  toc_bytes ai i fi = Some (toc_record ai i fi).
Proof.
  intros H. unfold toc_record, toc_bytes.
  destruct (Z.eqb_spec i 0) as [Hi|Hi]; [reflexivity|].
  destruct H as [H|H]; [contradiction|].
  destruct (filename fi); [reflexivity|contradiction H; reflexivity].
Qed.

Lemma write_toc_loop_spec {E : External} (ai : ARCHIVEINFO) (rest : list FILEINFO) :
  forall (pre : list FILEINFO) (i : Z) (f : FILE),
    i = len pre ->
    (i = 0 -> match rest with fi :: rest' => Forall (fun fi => filename fi <> None) rest'
                              | [] => True end) ->
    (i <> 0 -> Forall (fun fi => filename fi <> None) rest) ->
    write_toc_loop ai (length rest) i (pre ++ rest) f
    = Some (fwrite_all (toc_records ai i rest) f).
Proof.
  induction rest as [|fi rest IH]; intros pre i f Hi H0 H1; [reflexivity|].
  cbn [length write_toc_loop toc_records].
  rewrite (load_mid pre rest fi i Hi).
  rewrite toc_bytes_named.
  - replace (pre ++ fi :: rest) with ((pre ++ [fi]) ++ rest)
      by (rewrite <- app_assoc; reflexivity).
    pose proof (len_nonneg pre).
    rewrite (IH (pre ++ [fi]) (i + 1));
      [reflexivity|rewrite len_app, len_cons; subst i; reflexivity|lia|].
    intros _. destruct (Z.eq_dec i 0) as [Hz|Hz]; [exact (H0 Hz)|].
    specialize (H1 Hz). inversion H1; assumption.
  - destruct (Z.eq_dec i 0) as [Hz|Hz]; [left; exact Hz|right].
    specialize (H1 Hz). inversion H1; assumption.
Qed.

Lemma write_blocktable_loop_spec (w : Z) (vals : list Z) :
  forall (pre : list Z) (i : Z) (f : FILE),
    i = len pre ->
    write_blocktable_loop w (length vals) i (pre ++ vals) f
    = Some (fwrite_all (map (blocktable_item w) vals) f).
Proof.
  induction vals as [|v vals IH]; intros pre i f Hi; [reflexivity|].
  cbn [length write_blocktable_loop map].
  rewrite (load_mid pre vals v i Hi).
  replace (pre ++ v :: vals) with ((pre ++ [v]) ++ vals)
    by (rewrite <- app_assoc; reflexivity).
  rewrite (IH (pre ++ [v]) (i + 1));
    [reflexivity|rewrite len_app, len_cons; subst i; reflexivity].
Qed.

Lemma length_hton40 (v : Z) : length (hton40 v) = 5%nat.
Proof. reflexivity. Qed.

Lemma length_htonl (v : Z) : length (htonl v) = 4%nat.
Proof. reflexivity. Qed.

Lemma toc_record_length {E : External} (ai : ARCHIVEINFO) (i : Z) (fi : FILEINFO) :
  i = 0 \/ (exists name, filename fi = Some name /\ length (md5 name) = 16%nat) ->
  length (toc_record ai i fi) = 30%nat.
Proof.
  intros H. unfold toc_record, toc_bytes.
  destruct (Z.eqb_spec i 0) as [Hi|Hi].
  - rewrite !length_app, repeat_length. reflexivity.
  - destruct H as [H|(name & Hn & Hd)]; [contradiction|].
    rewrite Hn. rewrite !length_app, Hd. reflexivity.
Qed.

Lemma blocktable_item_length (ai : ARCHIVEINFO) (v : Z) :
  1 <= block_size ai < 2 ^ 32 ->
  len (blocktable_item (get_blocktable_item_size ai) v)
  = get_blocktable_item_size ai
  /\ 1 <= get_blocktable_item_size ai <= 4.
Proof.
  intros Hb.
  destruct (item_size_cases ai Hb) as [[-> _]|[[-> _]|[[-> _]|[-> _]]]];
    split; try reflexivity; lia.
Qed.

(** ** The archive on disk (C1) *)

Lemma repeat_map_const {A B : Type} (x : A) (l : list B) :
  repeat x (length l) = map (fun _ => x) l.
Proof. induction l as [|y l IH]; cbn; [reflexivity|rewrite IH; reflexivity]. Qed.

Lemma total_blocks_pos (ai : ARCHIVEINFO) (files : list (cstring * bytes)) :
  1 <= block_size ai ->
  Exists (fun p => snd p <> []) files ->
  0 < total_blocks ai (map snd files).
Proof.
  intros Hbs Hex. induction Hex as [p files Hp|p files Hex IH];
    cbn [map]; rewrite total_blocks_cons.
  - pose proof (total_blocks_nonneg ai (map snd files) Hbs).
    pose proof (len_pos (snd p) Hp).
    pose proof (blocks_of_step (block_size ai) (len (snd p)) Hbs ltac:(lia)).
    pose proof (blocks_of_nonneg (block_size ai)
                  (len (snd p) - (if len (snd p) <? block_size ai
                                  then len (snd p) else block_size ai))
                  Hbs
                  ltac:(destruct (Z.ltb_spec (len (snd p)) (block_size ai)); lia)).
    blia.
  - pose proof (blocks_of_nonneg (block_size ai) (len (snd p)) Hbs (len_nonneg _)).
    blia.
Qed.

Lemma write_toc_table_spec {E : External} (ai : ARCHIVEINFO) (f : FILE)
    (fi0 : FILEINFO) (rest : list FILEINFO) :
  toc_entries ai = len (fi0 :: rest) ->
  Forall (fun fi => filename fi <> None) rest ->
  write_toc_table ai f (fi0 :: rest)
  = Some (fwrite_all (toc_records ai 0 (fi0 :: rest)) (mkFILE (f_data f) 32)).
Proof.
  intros Hn Hnames. unfold write_toc_table. rewrite Hn, to_nat_len.
  apply (write_toc_loop_spec ai (fi0 :: rest) [] 0); [reflexivity| |].
  - intros _. exact Hnames.
  - intros H. contradiction H. reflexivity.
Qed.

Lemma write_blocktable_spec (ai : ARCHIVEINFO) (f : FILE) (table : list Z) (n : Z) :
  n = len table ->
  write_blocktable ai f table n
  = Some (fwrite_all (map (blocktable_item (get_blocktable_item_size ai)) table) f).
Proof.
  intros ->. unfold write_blocktable. rewrite to_nat_len.
  apply (write_blocktable_loop_spec _ table [] 0). reflexivity.
Qed.

Lemma fwrite_all_hole (h b : bytes) (rest : list bytes) (T : Z) :
  len h <= T -> b <> [] ->
  fwrite_all (b :: rest) (mkFILE h T)
  = mkFILE (h ++ repeat 0 (Z.to_nat T - length h) ++ concat (b :: rest))
           (T + len (concat (b :: rest))).
Proof.
  intros HT Hb. cbn [fwrite_all fold_left concat].
  fold (fwrite_all rest (fwrite b (mkFILE h T))).
  rewrite (fwrite_hole b (mkFILE h T) HT Hb). cbn [f_data f_pos].
  rewrite fwrite_all_at_end; cbn [f_data f_pos].
  - rewrite <- !app_assoc, len_app, Z.add_assoc. reflexivity.
  - rewrite !len_app. unfold len in *. rewrite repeat_length. lia.
Qed.

Lemma length_concat_uniform {A : Type} (k : nat) (l : list (list A)) :
  Forall (fun r => length r = k) l -> length (concat l) = (k * length l)%nat.
Proof.
  induction 1 as [|r l Hr _ IH]; cbn [concat length]; [lia|].
  rewrite length_app, IH, Hr. lia.
Qed.

Lemma length_written_entries {E : External} (cfg : CONFIG) (ai : ARCHIVEINFO)
    (pool : bool) (junk : FILEINFO) (files : list (cstring * bytes)) :
  forall idx off : Z,
    length (written_entries cfg ai pool junk files idx off) = length files.
Proof.
  induction files as [|p files IH]; intros idx off; cbn [written_entries length];
    [reflexivity|rewrite IH; reflexivity].
Qed.

Lemma length_toc_records {E : External} (ai : ARCHIVEINFO) (tbl : list FILEINFO) :
  forall i : Z, length (toc_records ai i tbl) = length tbl.
Proof.
  induction tbl as [|fi tbl IH]; intros i; cbn [toc_records length];
    [reflexivity|rewrite IH; reflexivity].
Qed.

Lemma written_entry_name (ai : ARCHIVEINFO) (pool : bool) (junk : FILEINFO)
    (p : cstring * bytes) (idx off csize : Z) :
  filename (if pool && (len (snd p) =? 0)
            then set_compressed_size
                   (set_filename (sized ai junk (snd p)) (Some (fst p))) 0
            else set_compressed_size
                   (set_block_index
                      (set_offset (set_filename (sized ai junk (snd p)) (Some (fst p)))
                                  off) idx) csize)
  = Some (fst p).
Proof. destruct (pool && (len (snd p) =? 0)); reflexivity. Qed.

Lemma written_entries_named {E : External} (cfg : CONFIG) (ai : ARCHIVEINFO)
    (pool : bool) (junk : FILEINFO) (files : list (cstring * bytes)) :
  forall idx off : Z,
    Forall (fun fi => filename fi <> None)
           (written_entries cfg ai pool junk files idx off).
Proof.
  induction files as [|p files IH]; intros idx off; cbn [written_entries];
    constructor; [|apply IH].
  rewrite written_entry_name. discriminate.
Qed.

Lemma toc_records_written_length {E : External} (cfg : CONFIG) (ai aiw : ARCHIVEINFO)
    (pool : bool) (junk : FILEINFO) (files : list (cstring * bytes)) :
  Forall (fun p => length (md5 (fst p)) = 16%nat) files ->
  forall i idx off : Z,
    Forall (fun r => length r = 30%nat)
           (toc_records aiw i (written_entries cfg ai pool junk files idx off)).
Proof.
  induction 1 as [|p files Hp _ IH]; intros i idx off;
    cbn [written_entries toc_records]; constructor; [|apply IH].
  apply toc_record_length. right. exists (fst p).
  split; [apply written_entry_name|exact Hp].
Qed.

Lemma create_archive_spec {E : External} (cfg : CONFIG) (mem0 : UNINIT)
    (ai : ARCHIVEINFO) (output_exists : bool) (files : list (cstring * bytes)) :
  overwrite_flag cfg = true \/ output_exists = false ->
  1 <= block_size ai < 2 ^ 32 ->
  Exists (fun p => snd p <> []) files ->
  (exists b rest, emitted_blocks cfg ai false (manifest cfg ai files) = b :: rest
                  /\ b <> []) ->
  Forall (fun p => length (md5 (fst p)) = 16%nat) files ->
  index_length cfg ai files < 2 ^ 32 ->
  index_length cfg ai files + len (manifest cfg ai files)
  + sum (map len (map snd files)) < 2 ^ 40 ->
  buffers_hold cfg ai false false (manifest cfg ai files) = true ->
  Forall (fun p => buffers_hold cfg ai (threaded cfg) true (snd p) = true) files ->
  create_archive cfg mem0 ai output_exists files
  = Some (0, archive_info cfg ai files,
          Some (mkFILE (archive_bytes cfg ai (junk_fileinfo mem0) files)
                       (index_length cfg ai files))).
Proof.
  intros Hout Hb Hex (b1 & brest & Hm1 & Hb1) Hdig Hidx Hoff Hgm Hgf.
  assert (Hbs : 1 <= block_size ai) by lia.
  destruct (blocktable_item_length ai 0 Hb) as [_ Hw].
  pose proof (len_nonneg files) as Hn0.
  pose proof (len_nonneg (manifest cfg ai files)) as Hm0.
  pose proof (sum_sizes_nonneg files) as Hs0.
  pose proof (total_blocks_pos ai files Hbs Hex) as Hfb.
  pose proof (blocks_of_nonneg (block_size ai) (len (manifest cfg ai files)) Hbs Hm0)
    as Hmb.
  assert (HB : total_blocks ai (manifest cfg ai files :: map snd files)
               = blocks_of (block_size ai) (len (manifest cfg ai files))
                 + total_blocks ai (map snd files)) by reflexivity.
  unfold index_length, sizeof_PSARCHEADER, sizeof_PSARCTOC in Hidx, Hoff.
  rewrite HB in Hidx, Hoff.
  unfold create_archive.
  replace (negb (overwrite_flag cfg) && output_exists) with false
    by (destruct Hout as [-> | ->]; [reflexivity|rewrite andb_false_r; reflexivity]).
  destruct (Z.eqb_spec (block_size ai) 0) as [Hz|_]; [lia|].
  rewrite (u32_small (len files)) by nia.
  rewrite !filenames_length_set_toc, !build_filenames_set_toc.
  rewrite !filenames_length_eq. fold (manifest cfg ai files).
  set (ai1 := set_toc ai (len files) (toc_length ai)).
  change (toc_entries ai1) with (len files).
  change (block_size ai1) with (block_size ai).
  rewrite (u32_small (len files + 1)) by nia.
  rewrite Z2Nat.inj_add, to_nat_len by lia. change (Z.to_nat 1) with 1%nat.
  rewrite Nat.add_comm. cbn [repeat Nat.add].
  rewrite (repeat_map_const (junk_fileinfo mem0) files).
  rewrite count_blocks by nia.
  rewrite update_head.
  fold (sized ai (junk_fileinfo mem0) (manifest cfg ai files)).
  set (e0 := sized ai (junk_fileinfo mem0) (manifest cfg ai files)).
  change (e0 :: map (fun _ => junk_fileinfo mem0) files)
    with ([e0] ++ map (fun _ : cstring * bytes => junk_fileinfo mem0) files).
  rewrite (get_blocktable_size_spec ai1 (junk_fileinfo mem0) files Hb
             [e0] 1 0 eq_refl);
    try (change (total_blocks ai1) with (total_blocks ai)); try nia.
  rewrite Z.add_0_l.
  destruct (Z.eqb_spec (total_blocks ai (map snd files)) 0) as [Hz|_]; [lia|].
  rewrite <- HB.
  set (B := total_blocks ai (manifest cfg ai files :: map snd files)) in *.
  change (get_blocktable_item_size ai1) with (get_blocktable_item_size ai).
  rewrite (u32_small B) by nia.
  rewrite (u32_small (B * get_blocktable_item_size ai)) by nia.
  rewrite u64_small by (unfold sizeof_PSARCHEADER, sizeof_PSARCTOC; nia).
  change (set_toc ai1 (len files + 1)
            (sizeof_PSARCHEADER + (len files + 1) * sizeof_PSARCTOC
             + B * get_blocktable_item_size ai))
    with (archive_info cfg ai files).
  set (aiw := archive_info cfg ai files).
  change (toc_length aiw) with (index_length cfg ai files).
  set (T := index_length cfg ai files).
  assert (HT : T = 32 + (len files + 1) * 30 + B * get_blocktable_item_size ai)
    by reflexivity.
  rewrite write_header_data. unfold fseek at 1. cbn [f_data].
  assert (Hbw : 1 <= block_size aiw < 2 ^ 32) by exact Hb.
  assert (Htable : len (repeat (junk_u32 mem0) (Z.to_nat B)) = B).
  { unfold len. rewrite repeat_length. lia. }
  rewrite (compress_entry_spec cfg aiw (manifest cfg ai files) false 0 _ []
             (map (fun p => sized ai (junk_fileinfo mem0) (snd p)) files) e0);
    cbn [files_info_table blocktable blocktable_idx total_size archive_file];
    try reflexivity; try exact Hgm;
    try (change (block_size aiw) with (block_size ai)); try nia.
  rewrite !Z.add_0_l. cbn [app].
  change (emitted_blocks cfg aiw false (manifest cfg ai files))
    with (emitted_blocks cfg ai false (manifest cfg ai files)).
  set (EM := emitted_blocks cfg ai false (manifest cfg ai files)) in *.
  change (num_threads cfg >? 0) with (threaded cfg).
  set (e0' := set_compressed_size (set_block_index (set_offset e0 0) 0)
                                  (sum (map len EM))).
  pose proof (sum_emitted_le cfg ai false (manifest cfg ai files) Hbs) as HsumM.
  pose proof (len_emitted_blocks cfg ai false (manifest cfg ai files) Hbs) as HlenM.
  fold EM in HsumM, HlenM.
  assert (Hslots : len (with_slots (repeat (junk_u32 mem0) (Z.to_nat B)) 0
                                   (map (fun b => u32 (len b)) EM)) = B).
  { rewrite with_slots_len; rewrite ?(len_map _ EM), ?Htable; nia. }
  rewrite (create_entries_spec cfg aiw (junk_fileinfo mem0) Hbw files [e0'] _ 1);
    cbn [files_info_table blocktable blocktable_idx total_size archive_file];
    try reflexivity; try exact Hgf;
    try (change (total_blocks aiw) with (total_blocks ai)); try nia.
  cbn [app].
  change (all_emitted cfg aiw (threaded cfg) files)
    with (all_emitted cfg ai (threaded cfg) files).
  set (EF := all_emitted cfg ai (threaded cfg) files).
  replace (written_entries cfg aiw (threaded cfg) (junk_fileinfo mem0) files
             (len EM) (sum (map len EM)))
    with (written_entries cfg ai (threaded cfg) (junk_fileinfo mem0) files
            (len EM) (sum (map len EM)))
    by (symmetry; apply written_entries_set_toc).
  set (WE := written_entries cfg ai (threaded cfg) (junk_fileinfo mem0) files
               (len EM) (sum (map len EM))).
  pose proof (len_all_emitted cfg ai (threaded cfg) files Hbs) as HlenF.
  fold EF in HlenF.
  assert (HBsum : B = len EM + len EF) by (rewrite HlenM, HlenF; exact HB).
  assert (HF : fwrite_all EF (fwrite_all EM (mkFILE (header_bytes aiw) T))
               = mkFILE (header_bytes aiw ++ repeat 0 (Z.to_nat T - 32)
                           ++ concat (EM ++ EF))
                        (T + len (concat (EM ++ EF)))).
  { rewrite <- fwrite_all_app, Hm1. cbn [app].
    rewrite fwrite_all_hole; [rewrite length_header_bytes; reflexivity| |exact Hb1].
    unfold len. rewrite length_header_bytes. nia. }
  assert (Htab : with_slots
                   (with_slots (repeat (junk_u32 mem0) (Z.to_nat B)) 0
                               (map (fun b => u32 (len b)) EM))
                   (len EM) (map (fun b => u32 (len b)) EF)
                 = map (fun b => u32 (len b)) (EM ++ EF)).
  { rewrite (with_slots_app _ 0).
    - rewrite with_slots_all; [rewrite map_app; reflexivity|].
      rewrite repeat_length, length_app, !length_map.
      unfold len in HBsum. blia.
    - lia.
    - rewrite (len_map _ EM). reflexivity.
    - rewrite (len_map _ EM), (len_map _ EF), Htable. lia. }
  rewrite HF, Htab. clear HF Htab.
  rewrite (write_toc_table_spec aiw _ e0' WE).
  2:{ change (toc_entries aiw) with (len files + 1). rewrite len_cons.
      unfold WE, len. rewrite length_written_entries. lia. }
  2:{ apply written_entries_named. }
  rewrite write_blocktable_spec.
  2:{ rewrite (len_map _ (EM ++ EF)), len_app. exact HBsum. }
  rewrite <- fwrite_all_app. cbn [f_data].
  change (get_blocktable_item_size aiw) with (get_blocktable_item_size ai).
  assert (Hitems : Forall (fun r => length r = Z.to_nat (get_blocktable_item_size ai))
                          (map (blocktable_item (get_blocktable_item_size ai))
                               (map (fun b => u32 (len b)) (EM ++ EF)))).
  { apply Forall_forall. intros r Hr. apply in_map_iff in Hr.
    destruct Hr as (v & <- & _).
    destruct (blocktable_item_length ai v Hb) as [Hl _].
    unfold len in Hl. lia. }
  assert (Htocs : Forall (fun r => length r = 30%nat) (toc_records aiw 0 (e0' :: WE))).
  { cbn [toc_records]. constructor.
    - apply toc_record_length. left. reflexivity.
    - apply toc_records_written_length. exact Hdig. }
  assert (Hlen_idx : len (concat (toc_records aiw 0 (e0' :: WE)
                                  ++ map (blocktable_item (get_blocktable_item_size ai))
                                         (map (fun b => u32 (len b)) (EM ++ EF))))
                     = T - 32).
  { rewrite concat_app, len_app. unfold len at 1 2.
    rewrite (length_concat_uniform _ _ Htocs), (length_concat_uniform _ _ Hitems).
    rewrite !length_map. cbn [toc_records length].
    rewrite length_toc_records. unfold WE. rewrite length_written_entries.
    unfold len in HBsum, HT. rewrite length_app. nia. }
  rewrite (fwrite_all_inside _ (header_bytes aiw) (repeat 0 (Z.to_nat T - 32))).
  - rewrite Hlen_idx. unfold archive_bytes. fold aiw.
    rewrite concat_app, map_map, <- app_assoc.
    replace (32 + (T - 32)) with T by lia. reflexivity.
  - unfold len. rewrite length_header_bytes. reflexivity.
  - rewrite repeat_length.
    replace (Z.to_nat T - 32)%nat with (Z.to_nat (T - 32)) by lia.
    rewrite <- Hlen_idx. symmetry. apply to_nat_len.
  - apply Forall_app. split.
    + eapply Forall_impl; [|exact Htocs]. cbv beta. intros r Hr Hn.
      rewrite Hn in Hr. discriminate Hr.
    + eapply Forall_impl; [|exact Hitems]. cbv beta. intros r Hr Hn.
      rewrite Hn in Hr. cbn [length] in Hr. lia.
Qed.

(** ** Reading the index back (C1) *)



Lemma read_blocktable_loop_spec (w : Z) (D : bytes) (items : list bytes) :
  2 <= w <= 4 ->
  Forall (fun r => len r = w) items ->
  forall (p blk : Z) (post : bytes),
    0 <= p ->
    skipn (Z.to_nat p) D = concat items ++ post ->
    read_blocktable_loop w (length items) blk (mkFILE D p)
    = (Some (map (item_value w) items), mkFILE D (p + w * len items)).
Proof.
  intros Hw. induction 1 as [|r items Hr _ IH]; intros p blk post Hp Hd.
  - cbn. rewrite Z.mul_0_r, Z.add_0_r. reflexivity.
  - cbn [length read_blocktable_loop map concat] in *. rewrite <- app_assoc in Hd.
    replace (fread w (mkFILE D p)) with (fread (len r) (mkFILE D p))
      by (rewrite Hr; reflexivity).
    rewrite (fread_exact (mkFILE D p) r _ Hd)
      by (intros ->; change (len (@nil Z)) with 0 in Hr; lia).
    cbn [f_data f_pos]. change (1 =? 0) with false. cbv iota.
    rewrite (IH (p + len r) _ post);
      [|lia|apply (skipn_advance D r _ p Hp Hd)].
    destruct (Z.eqb_spec w 1) as [H1|_]; [lia|].
    rewrite len_cons, Hr. unfold item_value at 2.
    f_equal. f_equal. lia.
Qed.


(** ** Decompressing an entry (C1) *)









Section Decompress.
Context {E : External}.
Variable cfg : CONFIG.
Variable ai : ARCHIVEINFO.
Variable pool : bool.
Variable D : bytes.
Variable bt : list Z.
Variable buffer_size : Z.
Hypothesis block_size_range : 256 < block_size ai <= 2 ^ 20.
Hypothesis buffer_fits : block_size ai <= buffer_size.


End Decompress.

(** ** The names read from the manifest (C1) *)

Lemma c_str_app (s rest : bytes) : ~ In 0 s -> c_str (s ++ 0 :: rest) = s.
Proof.
  induction s as [|c s IH]; intros Hn; [reflexivity|].
  cbn [app c_str]. destruct (Z.eqb_spec c 0) as [Hc|Hc].
  - exfalso. apply Hn. left. exact Hc.
  - rewrite IH; [reflexivity|]. intros Hin. apply Hn. right. exact Hin.
Qed.

Lemma strtok_from_name (name s cur : cstring) :
  ~ In 10 name ->
  strtok_from 10 (name ++ s) cur = strtok_from 10 s (cur ++ name).
Proof.
  revert cur. induction name as [|c name IH]; intros cur Hn.
  - rewrite app_nil_r. reflexivity.
  - cbn [app strtok_from]. destruct (Z.eqb_spec c 10) as [Hc|Hc].
    + exfalso. apply Hn. left. exact Hc.
    + rewrite IH by (intros Hin; apply Hn; right; exact Hin).
      rewrite <- app_assoc. reflexivity.
Qed.

Lemma strtok_manifest (cfg : CONFIG) (ai : ARCHIVEINFO) (paths : list cstring) :
  Forall (fun p => manifest_name cfg ai p <> []
                   /\ ~ In 10 (manifest_name cfg ai p)) paths ->
  strtok (build_filenames cfg ai paths) 10 = map (manifest_name cfg ai) paths.
Proof.
  unfold strtok. induction 1 as [|p rest [Hne Hnl] _ IH]; [reflexivity|].
  cbn [build_filenames map]. rewrite (strtok_from_name _ _ [] Hnl). cbn [app].
  destruct rest as [|q rest].
  - cbn [build_filenames app strtok_from map].
    destruct (manifest_name cfg ai p); [contradiction Hne|]; reflexivity.
  - cbn [app strtok_from]. change (10 =? 10) with true. cbv iota.
    rewrite IH. destruct (manifest_name cfg ai p); [contradiction Hne|]; reflexivity.
Qed.

Lemma manifest_no_nul (cfg : CONFIG) (ai : ARCHIVEINFO) (paths : list cstring) :
  Forall (fun p => ~ In 0 (manifest_name cfg ai p)) paths ->
  ~ In 0 (build_filenames cfg ai paths).
Proof.
  induction 1 as [|p rest Hp _ IH]; [intros []|].
  cbn [build_filenames]. intros Hin.
  apply in_app_or in Hin. destruct Hin as [Hin|Hin]; [exact (Hp Hin)|].
  apply in_app_or in Hin. destruct Hin as [Hin|Hin]; [|exact (IH Hin)].
  destruct rest; [destruct Hin|].
  destruct Hin as [H|[]]. discriminate H.
Qed.


(** ** The table of contents as read (C1) *)

Lemma sub_app_skip (dg x : bytes) (off n : nat) :
  length dg = 16%nat -> sub (dg ++ x) (16 + off) n = sub x off n.
Proof.
  intros H. unfold sub. rewrite skipn_app, H.
  rewrite skipn_all2 by lia.
  replace (16 + off - 16)%nat with off by lia. reflexivity.
Qed.

Lemma toc_fileinfo_fields (dg : bytes) (a b c : Z) :
  length dg = 16%nat ->
  toc_fileinfo (dg ++ htonl a ++ hton40 b ++ hton40 c)
  = mkFILEINFO dg None (ntoh40 (hton40 c)) (ntohl (htonl a)) 0 0
               (ntoh40 (hton40 b)).
Proof.
  intros H. unfold toc_fileinfo.
  set (x := htonl a ++ hton40 b ++ hton40 c).
  assert (H25 : sub (dg ++ x) 25 5 = sub x 9 5) by exact (sub_app_skip dg x 9 5 H).
  assert (H20 : sub (dg ++ x) 20 5 = sub x 4 5) by exact (sub_app_skip dg x 4 5 H).
  assert (H16 : sub (dg ++ x) 16 4 = sub x 0 4) by exact (sub_app_skip dg x 0 4 H).
  assert (H0 : sub (dg ++ x) 0 16 = dg).
  { unfold sub. cbn [skipn]. rewrite <- H, firstn_app, Nat.sub_diag.
    rewrite firstn_O, firstn_all, app_nil_r. reflexivity. }
  rewrite H25, H20, H16, H0. reflexivity.
Qed.



(** ** Extracting the entries (C1) *)


Section Extract.
Context {E : External}.
Variable cfg cfgx : CONFIG.
Variable ai air : ARCHIVEINFO.
Variable pool : bool.
Variable D : bytes.
Variable bt : list Z.
Variable buffer_size toc_len : Z.
Hypothesis block_size_range : 256 < block_size ai <= 2 ^ 20.
Hypothesis buffer_fits : block_size ai <= buffer_size.
Hypothesis same_block_size : block_size air = block_size ai.

End Extract.




(** ** Reading a written archive (C1) *)


Lemma len_concat_uniform (k : Z) (l : list bytes) :
  Forall (fun r => len r = k) l -> len (concat l) = k * len l.
Proof.
  induction 1 as [|r l Hr _ IH]; [cbn; lia|].
  cbn [concat]. rewrite len_app, len_cons, IH, Hr. lia.
Qed.









(** What the condition on the blocks means for a block written as it is:
    it must not look like a compressed one. Under the store codec every
    block is written as it is. *)
Lemma reads_back_verbatim {E : External} (blk : bytes) :
  block_codec blk = BlockVerbatim -> reads_back blk blk.
Proof. intros H. unfold reads_back. rewrite H. reflexivity. Qed.

Lemma reads_back_stored {E : External} (blk : bytes) :
  reads_back blk blk <->
  match block_codec blk with
  | BlockZlib => uncompress blk (len blk) = Some blk
  | BlockLzma => lzma_decode blk (len blk) = Some blk
  | BlockVerbatim => True
  end.
Proof.
  unfold reads_back. destruct (block_codec blk); [reflexivity|reflexivity|].
  split; intros _; [exact I|reflexivity].
Qed.

Lemma emit_store {E : External} (cfg : CONFIG) (ai : ARCHIVEINFO) (pool : bool)
    (blk : bytes) :
  compression_type ai = PSARC_STORE -> emit cfg ai pool blk = blk.
Proof.
  intros H. unfold emit, compress_block, compress_block_thread. rewrite H.
  destruct pool; reflexivity.
Qed.

(** ** The worker pool and the synchronous path, files with content (C9) *)

Lemma emitted_blocks_pool {E : External} (cfg : CONFIG) (ai : ARCHIVEINFO)
    (input : bytes) :
  Forall (fun blk => compress_block_thread cfg ai blk = compress_block cfg ai blk)
         (entry_blocks ai input) ->
  emitted_blocks cfg ai true input = emitted_blocks cfg ai false input.
Proof.
  unfold emitted_blocks. induction 1 as [|blk blks Hb _ IH]; [reflexivity|].
  cbn [map]. rewrite IH. unfold emit at 1 3. rewrite Hb. reflexivity.
Qed.

Lemma all_emitted_pool {E : External} (cfg : CONFIG) (ai : ARCHIVEINFO)
    (files : list (cstring * bytes)) :
  Forall (fun p => Forall (fun blk => compress_block_thread cfg ai blk
                                      = compress_block cfg ai blk)
                          (entry_blocks ai (snd p))) files ->
  all_emitted cfg ai true files = all_emitted cfg ai false files.
Proof.
  induction 1 as [|p files Hp _ IH]; [reflexivity|].
  rewrite !all_emitted_cons, IH, (emitted_blocks_pool cfg ai (snd p) Hp).
  reflexivity.
Qed.

(** The records of the table of contents do not depend on what [malloc]
    left, and the pool writes those of the synchronous path, when every
    file has content. *)
Lemma toc_records_pool {E : External} (cfg : CONFIG) (ai aiw : ARCHIVEINFO)
    (junk junk' : FILEINFO) (files : list (cstring * bytes)) :
  Forall (fun p => snd p <> []) files ->
  Forall (fun p => Forall (fun blk => compress_block_thread cfg ai blk
                                      = compress_block cfg ai blk)
                          (entry_blocks ai (snd p))) files ->
  forall i idx off : Z,
    1 <= i ->
    toc_records aiw i (written_entries cfg ai true junk files idx off)
    = toc_records aiw i (written_entries cfg ai false junk' files idx off).
Proof.
  intros Hne. induction 1 as [|p files Hp _ IH]; intros i idx off Hi; [reflexivity|].
  pose proof (Forall_inv Hne) as Hp0. pose proof (Forall_inv_tail Hne) as Hne'.
  cbn [written_entries toc_records]. cbn [andb].
  pose proof (len_pos (snd p) Hp0) as Hpos.
  destruct (Z.eqb_spec (len (snd p)) 0) as [H0|_]; [lia|].
  rewrite (emitted_blocks_pool cfg ai (snd p) Hp), (IH Hne') by lia.
  reflexivity.
Qed.

Lemma toc_record_manifest {E : External} (aiw : ARCHIVEINFO) (fi fi' : FILEINFO) :
  block_index fi = block_index fi' ->
  uncompressed_size fi = uncompressed_size fi' ->
  offset fi = offset fi' ->
  toc_record aiw 0 fi = toc_record aiw 0 fi'.
Proof.
  intros H1 H2 H3. unfold toc_record, toc_bytes. cbn. rewrite H1, H2, H3. reflexivity.
Qed.

Lemma written_entries_with_threads {E : External} (cfg : CONFIG) (ai : ARCHIVEINFO)
    (n : Z) (pool : bool) (junk : FILEINFO) (files : list (cstring * bytes)) :
  forall idx off : Z,
    written_entries (with_threads cfg n) ai pool junk files idx off
    = written_entries cfg ai pool junk files idx off.
Proof.
  induction files as [|p rest IH]; intros idx off; [reflexivity|].
  cbn [written_entries]. rewrite IH. reflexivity.
Qed.

Lemma archive_bytes_pool {E : External} (cfg : CONFIG) (ai : ARCHIVEINFO)
    (junk junk' : FILEINFO) (files : list (cstring * bytes)) (n : Z) :
  1 <= n ->
  Forall (fun p => snd p <> []) files ->
  Forall (fun p => Forall (fun blk => compress_block_thread cfg ai blk
                                      = compress_block cfg ai blk)
                          (entry_blocks ai (snd p))) files ->
  archive_bytes (with_threads cfg n) ai junk files
  = archive_bytes (with_threads cfg 0) ai junk' files.
Proof.
  intros Hn Hne Hsame. unfold archive_bytes, archive_entries, archive_blocks.
  assert (Ht : threaded (with_threads cfg n) = true).
  { unfold threaded. cbn. destruct (Z.gtb_spec n 0); [reflexivity|lia]. }
  rewrite Ht. change (threaded (with_threads cfg 0)) with false.
  change (archive_info (with_threads cfg n) ai files) with (archive_info cfg ai files).
  change (archive_info (with_threads cfg 0) ai files) with (archive_info cfg ai files).
  change (manifest (with_threads cfg n) ai files) with (manifest cfg ai files).
  change (manifest (with_threads cfg 0) ai files) with (manifest cfg ai files).
  change (emitted_blocks (with_threads cfg n) ai false (manifest cfg ai files))
    with (emitted_blocks cfg ai false (manifest cfg ai files)).
  change (emitted_blocks (with_threads cfg 0) ai false (manifest cfg ai files))
    with (emitted_blocks cfg ai false (manifest cfg ai files)).
  change (all_emitted (with_threads cfg n) ai true files)
    with (all_emitted cfg ai true files).
  change (all_emitted (with_threads cfg 0) ai false files)
    with (all_emitted cfg ai false files).
  rewrite !written_entries_with_threads.
  rewrite (all_emitted_pool cfg ai files Hsame).
  cbn [toc_records].
  rewrite (toc_records_pool cfg ai _ junk junk' files Hne Hsame) by lia.
  rewrite (toc_record_manifest _ _
             (set_compressed_size
                (set_block_index
                   (set_offset (sized ai junk' (manifest cfg ai files)) 0) 0)
                (sum (map len (emitted_blocks cfg ai false (manifest cfg ai files))))));
    reflexivity.
Qed.

(** With the pool or without it [create_archive] writes the same bytes,
    whatever [malloc] left in [files_info_table], when no file is empty
    and the two encoder calls agree on every block (as they do under the
    store codec). The conditions on sizes are those under which the
    archive is well formed and the writer stays inside its buffers and
    inside the slots of the workers. *)
Lemma pool_archive_is_sync_archive {E : External}
    (cfg : CONFIG) (mem0 mem0' : UNINIT) (ai : ARCHIVEINFO) (output_exists : bool)
    (files : list (cstring * bytes)) (n : Z) :
  1 <= n ->
  overwrite_flag cfg = true \/ output_exists = false ->
  1 <= block_size ai ->
  sizeof_PAKDATA + block_size ai * 4 < 2 ^ 32 ->
  encoded_fits cfg ai false (manifest cfg ai files) = true ->
  Forall (fun p => encoded_fits cfg ai false (snd p) = true
                   /\ encoded_fits cfg ai true (snd p) = true) files ->
  files <> [] ->
  Forall (fun p => snd p <> []) files ->
  (exists b rest, emitted_blocks cfg ai false (manifest cfg ai files) = b :: rest
                  /\ b <> []) ->
  Forall (fun p => length (md5 (fst p)) = 16%nat) files ->
  index_length cfg ai files < 2 ^ 32 ->
  index_length cfg ai files + len (manifest cfg ai files)
  + sum (map len (map snd files)) < 2 ^ 40 ->
  Forall (fun p => Forall (fun blk => compress_block_thread cfg ai blk
                                      = compress_block cfg ai blk)
                          (entry_blocks ai (snd p))) files ->
  create_archive (with_threads cfg n) mem0 ai output_exists files
  = create_archive (with_threads cfg 0) mem0' ai output_exists files
  /\ exists f : FILE,
       create_archive (with_threads cfg n) mem0 ai output_exists files
       = Some (0, archive_info cfg ai files, Some f).
Proof.
  intros Hn Hout Hbs Hslot Hencm Hencf Hfne Hne Hfirst Hdig Hidx Hoff Hsame.
  assert (Hb : 1 <= block_size ai < 2 ^ 32) by (unfold sizeof_PAKDATA in Hslot; lia).
  assert (Hb31 : 1 <= block_size ai < 2 ^ 31)
    by (unfold sizeof_PAKDATA in Hslot; lia).
  assert (Hex : Exists (fun p => snd p <> []) files).
  { destruct files as [|p files]; [contradiction Hfne; reflexivity|].
    apply Exists_cons_hd. exact (Forall_inv Hne). }
  assert (Hgm : buffers_hold cfg ai false false (manifest cfg ai files) = true)
    by (apply encoded_fits_sync; assumption).
  assert (Hgp : Forall (fun p => buffers_hold (with_threads cfg n) ai
                                   (threaded (with_threads cfg n)) true (snd p)
                                 = true) files).
  { replace (threaded (with_threads cfg n)) with true
      by (unfold threaded, with_threads; cbn [num_threads];
          destruct (Z.gtb_spec n 0); [reflexivity|lia]).
    eapply Forall_impl; [|exact Hencf]. cbv beta. intros p [_ Hp].
    exact (encoded_fits_pool cfg ai true (snd p) Hbs Hslot Hp). }
  assert (Hgs : Forall (fun p => buffers_hold (with_threads cfg 0) ai
                                   (threaded (with_threads cfg 0)) true (snd p)
                                 = true) files).
  { eapply Forall_impl; [|exact Hencf]. cbv beta. intros p [Hp _].
    exact (encoded_fits_sync cfg ai true (snd p) Hb31 Hp). }
  rewrite (create_archive_spec (with_threads cfg n) mem0 ai output_exists files
             Hout Hb Hex Hfirst Hdig Hidx Hoff Hgm Hgp).
  rewrite (create_archive_spec (with_threads cfg 0) mem0' ai output_exists files
             Hout Hb Hex Hfirst Hdig Hidx Hoff Hgm Hgs).
  rewrite (archive_bytes_pool cfg ai (junk_fileinfo mem0) (junk_fileinfo mem0') files n
             Hn Hne Hsame).
  split; [reflexivity|]. eexists. reflexivity.
Qed.

(** C9 fails on an input with an empty file, and only there.
    [compress_entry] records the offset and the block index of every
    entry; [compress_entry_multi] sets only the compressed size of an empty
    entry, so its offset and block index in the table of contents are what
    [malloc] left in [files_info_table]. For "hello.txt" and the empty "e"
    under the store codec the two archives differ in the block index
    (bytes 108 to 111) and the offset (bytes 117 to 121) of "e" and nowhere
    else; the archive of the pool varies with the uninitialised memory, and
    the synchronous one does not. When every file has content, the two
    encoder calls agree on every block, the slot of a worker has its
    [sizeof(PAKDATA) + block_size * 4] bytes (a sum below [2 ^ 32]) and no
    block is encoded into more than twice the block size, the pool writes
    the archive of the synchronous path. *)
Theorem C9_pool_diverges_on_empty_file :
  archive_with memory0 config_threads archiveinfo0 hello_and_empty
  <> archive_with memory0 config0 archiveinfo0 hello_and_empty
  /\ archive_with memory0 config_threads archiveinfo0 hello_and_empty
     <> archive_with memory1 config_threads archiveinfo0 hello_and_empty
  /\ archive_with memory0 config0 archiveinfo0 hello_and_empty
     = archive_with memory1 config0 archiveinfo0 hello_and_empty
  /\ (exists a b : bytes,
         archive_with memory0 config_threads archiveinfo0 hello_and_empty = Some a
         /\ archive_with memory0 config0 archiveinfo0 hello_and_empty = Some b
         /\ firstn 108 a = firstn 108 b /\ sub a 112 5 = sub b 112 5
         /\ skipn 122 a = skipn 122 b
         /\ ntohl (sub a 108 4) = block_index (junk_fileinfo memory0)
         /\ ntohl (sub b 108 4) = 2
         /\ ntoh40 (sub a 117 5) = offset (junk_fileinfo memory0) + 126
         /\ ntoh40 (sub b 117 5) = 17 + 126)
  /\ (forall (E : External) (cfg : CONFIG) (mem0 mem0' : UNINIT) (ai : ARCHIVEINFO)
             (output_exists : bool) (files : list (cstring * bytes)) (n : Z),
         1 <= n ->
         overwrite_flag cfg = true \/ output_exists = false ->
         1 <= block_size ai ->
         sizeof_PAKDATA + block_size ai * 4 < 2 ^ 32 ->
         encoded_fits cfg ai false (manifest cfg ai files) = true ->
         Forall (fun p => encoded_fits cfg ai false (snd p) = true
                          /\ encoded_fits cfg ai true (snd p) = true) files ->
         files <> [] ->
         Forall (fun p => snd p <> []) files ->
         (exists b rest,
             emitted_blocks cfg ai false (manifest cfg ai files) = b :: rest
             /\ b <> []) ->
         Forall (fun p => length (md5 (fst p)) = 16%nat) files ->
         index_length cfg ai files < 2 ^ 32 ->
         index_length cfg ai files + len (manifest cfg ai files)
         + sum (map len (map snd files)) < 2 ^ 40 ->
         Forall (fun p => Forall (fun blk => compress_block_thread cfg ai blk
                                             = compress_block cfg ai blk)
                                 (entry_blocks ai (snd p))) files ->
         create_archive (with_threads cfg n) mem0 ai output_exists files
         = create_archive (with_threads cfg 0) mem0' ai output_exists files
         /\ exists f : FILE,
              create_archive (with_threads cfg n) mem0 ai output_exists files
              = Some (0, archive_info cfg ai files, Some f)).
Proof.
  split; [vm_compute; discriminate|].
  split; [vm_compute; discriminate|].
  split; [vm_compute; reflexivity|].
  split.
  - eexists. eexists. split; [vm_compute; reflexivity|].
    split; [vm_compute; reflexivity|].
    vm_compute. repeat split.
  - intros E cfg mem0 mem0' ai output_exists files n.
    apply pool_archive_is_sync_archive.
Qed.

(** * Further properties *)
(** ** The hash table of hashset.c *)

Lemma bytes_eqb_neq (a b : bytes) : bytes_eqb a b = false <-> a <> b.
Proof.
  split.
  - intros H Heq. apply bytes_eqb_eq in Heq. congruence.
  - intros H. destruct (bytes_eqb a b) eqn:Heq; [|reflexivity].
    apply bytes_eqb_eq in Heq. contradiction.
Qed.

Lemma chain_contains_In (chain : list cstring) (value : cstring) :
  Hashset.chain_contains chain value = true <-> In value chain.
Proof.
  induction chain as [|v next IH]; cbn [Hashset.chain_contains In].
  - split; [discriminate|contradiction].
  - destruct (bytes_eqb v value) eqn:Heq.
    + apply bytes_eqb_eq in Heq. split; [intros _; left; exact Heq|reflexivity].
    + apply bytes_eqb_neq in Heq. rewrite IH. split; [intros H; right; exact H|].
      intros [H|H]; [contradiction|exact H].
Qed.

Lemma chain_contains_not_In (chain : list cstring) (value : cstring) :
  Hashset.chain_contains chain value = false <-> ~ In value chain.
Proof.
  rewrite <- chain_contains_In.
  destruct (Hashset.chain_contains chain value); split; congruence.
Qed.

Lemma chain_unlink_spec (chain : list cstring) (value : cstring) :
  NoDup chain ->
  match Hashset.chain_unlink chain value with
  | Some chain' =>
    In value chain /\ NoDup chain'
    /\ (forall w, In w chain' <-> In w chain /\ w <> value)
  | None => ~ In value chain
  end.
Proof.
  induction chain as [|v next IH]; intros Hnd; cbn [Hashset.chain_unlink In].
  - intros H. exact H.
  - apply NoDup_cons_iff in Hnd. destruct Hnd as [Hv Hnd].
    destruct (bytes_eqb v value) eqn:Heq.
    + apply bytes_eqb_eq in Heq. split; [left; exact Heq|]. split; [exact Hnd|].
      intros w. split.
      * intros Hw. split; [right; exact Hw|]. intros ->. apply Hv. rewrite Heq. exact Hw.
      * intros [[Hw|Hw] Hne]; [congruence|exact Hw].
    + apply bytes_eqb_neq in Heq. specialize (IH Hnd).
      destruct (Hashset.chain_unlink next value) as [next'|].
      * destruct IH as (Hin & Hnd' & Hiff).
        split; [right; exact Hin|]. split.
        { apply NoDup_cons; [|exact Hnd']. intros H. apply Hiff in H. apply Hv, H. }
        intros w. cbn [In]. rewrite Hiff. split.
        { intros [Hw|[Hw Hne]]; [split; [left; exact Hw|congruence]|].
          split; [right; exact Hw|exact Hne]. }
        intros [[Hw|Hw] Hne]; [left; exact Hw|right; split; assumption].
      * intros [H|H]; [contradiction|apply IH, H].
Qed.

Lemma hash_in_range (value : cstring) (size : Z) :
  0 < size -> exists index, Hashset.hash value size = Some index /\ 0 <= index < size.
Proof.
  intros H. unfold Hashset.hash. destruct (Z.eqb_spec size 0); [lia|].
  eexists. split; [reflexivity|]. apply Z.mod_pos_bound. exact H.
Qed.

Lemma well_formed_chain (set : Hashset.HASHSET) (value : cstring) :
  Hashset.well_formed set ->
  exists (index : Z) (chain : list cstring),
    Hashset.hash value (Hashset.size set) = Some index
    /\ load (Hashset.table set) index = Some chain
    /\ NoDup chain
    /\ Hashset.hashset_contains set value = Some (Hashset.chain_contains chain value).
Proof.
  intros (Hs & Hl & Hnd & Hh).
  destruct (hash_in_range value (Hashset.size set) Hs) as (index & Hi & Hr).
  destruct (load_in_range (Hashset.table set) index ltac:(lia)) as (chain & Hc).
  exists index, chain. split; [exact Hi|]. split; [exact Hc|]. split.
  - exact (load_Forall _ _ _ _ Hnd Hc).
  - unfold Hashset.hashset_contains, Hashset.hashset_containsAtIndex.
    rewrite Hi, Hc. reflexivity.
Qed.

Lemma In_firstn {A : Type} (n : nat) (l : list A) (x : A) :
  In x (firstn n l) -> In x l.
Proof.
  intros H. rewrite <- (firstn_skipn n l). apply in_or_app. left. exact H.
Qed.

Lemma In_skipn {A : Type} (n : nat) (l : list A) (x : A) :
  In x (skipn n l) -> In x l.
Proof.
  intros H. rewrite <- (firstn_skipn n l). apply in_or_app. right. exact H.
Qed.

Lemma store_Forall {A : Type} (P : A -> Prop) (l l' : list A) (i : Z) (v : A) :
  Forall P l -> P v -> store l i v = Some l' -> Forall P l'.
Proof.
  intros Hl Hv Hs. apply store_inv in Hs. destruct Hs as [_ ->].
  rewrite Forall_forall in *. intros x Hx. apply in_app_or in Hx.
  destruct Hx as [Hx|[<-|Hx]].
  - apply Hl. exact (In_firstn _ _ _ Hx).
  - exact Hv.
  - apply Hl. exact (In_skipn _ _ _ Hx).
Qed.

(** What a chain replaced by [chain'] does to the set. *)
Lemma well_formed_store (set : Hashset.HASHSET) (index : Z)
    (chain chain' : list cstring) (tbl : list (list cstring)) :
  Hashset.well_formed set ->
  load (Hashset.table set) index = Some chain ->
  store (Hashset.table set) index chain' = Some tbl ->
  NoDup chain' ->
  (forall v, In v chain' -> Hashset.hash v (Hashset.size set) = Some index) ->
  Hashset.well_formed (Hashset.mkHASHSET (Hashset.size set) tbl)
  /\ forall w,
       Hashset.hashset_contains (Hashset.mkHASHSET (Hashset.size set) tbl) w
       = if match Hashset.hash w (Hashset.size set) with
            | Some j => j =? index
            | None => false
            end
         then Some (Hashset.chain_contains chain' w)
         else Hashset.hashset_contains set w.
Proof.
  intros (Hs & Hl & Hnd & Hh) Hc Hst Hnd' Hh'. split.
  - split; [exact Hs|]. cbn [Hashset.size Hashset.table]. split.
    { rewrite (store_len _ _ _ _ Hst). exact Hl. }
    split; [exact (store_Forall _ _ _ _ _ Hnd Hnd' Hst)|].
    intros j c v Hj Hv. destruct (Z.eq_dec index j) as [<-|Hne].
    + rewrite (load_store_same _ _ _ _ Hst) in Hj. injection Hj as <-.
      apply Hh', Hv.
    + rewrite (load_store_other _ _ _ _ _ Hst Hne) in Hj. exact (Hh j c v Hj Hv).
  - intros w. unfold Hashset.hashset_contains, Hashset.hashset_containsAtIndex.
    cbn [Hashset.size Hashset.table].
    destruct (hash_in_range w (Hashset.size set) Hs) as (j & Hj & Hr). rewrite Hj.
    destruct (Z.eqb_spec j index) as [->|Hne].
    + rewrite (load_store_same _ _ _ _ Hst). reflexivity.
    + rewrite (load_store_other _ _ _ _ _ Hst (not_eq_sym Hne)). reflexivity.
Qed.

Lemma hashset_add_spec (set : Hashset.HASHSET) (value : cstring) :
  Hashset.well_formed set ->
  exists (r : Z) (set' : Hashset.HASHSET),
    Hashset.hashset_add set value = Some (r, set')
    /\ Hashset.well_formed set'
    /\ Hashset.size set' = Hashset.size set
    /\ Hashset.hashset_contains set value = Some (r =? 0)
    /\ forall w,
         Hashset.hashset_contains set' w
         = if bytes_eqb value w then Some true else Hashset.hashset_contains set w.
Proof.
  intros Hwf.
  destruct (well_formed_chain set value Hwf) as (index & chain & Hi & Hc & Hnd & Hm).
  unfold Hashset.hashset_add, Hashset.hashset_containsAtIndex. rewrite Hi, Hc.
  cbv beta iota.
  destruct (Hashset.chain_contains chain value) eqn:Hin.
  - exists 0, set. split; [reflexivity|]. split; [exact Hwf|]. split; [reflexivity|].
    split; [exact Hm|]. intros w. destruct (bytes_eqb value w) eqn:Heq; [|reflexivity].
    apply bytes_eqb_eq in Heq. subst w. exact Hm.
  - destruct (update_spec _ _ (fun chain => value :: chain) _ Hc) as (tbl & Hu & Hst).
    rewrite Hu. exists 1, (Hashset.mkHASHSET (Hashset.size set) tbl).
    split; [reflexivity|].
    apply chain_contains_not_In in Hin.
    destruct (well_formed_store set index chain (value :: chain) tbl Hwf Hc Hst)
      as [Hwf' Hframe].
    { apply NoDup_cons; assumption. }
    { intros v [<-|Hv]; [exact Hi|]. destruct Hwf as (_ & _ & _ & Hh).
      exact (Hh index chain v Hc Hv). }
    split; [exact Hwf'|]. split; [reflexivity|]. split; [exact Hm|].
    intros w. rewrite Hframe. cbn [Hashset.chain_contains].
    destruct (bytes_eqb value w) eqn:Heq.
    + apply bytes_eqb_eq in Heq. subst w. rewrite Hi, Z.eqb_refl. reflexivity.
    + destruct (Hashset.hash w (Hashset.size set)) as [j|] eqn:Hj; [|reflexivity].
      destruct (Z.eqb_spec j index) as [->|Hne]; [|reflexivity].
      unfold Hashset.hashset_contains, Hashset.hashset_containsAtIndex.
      rewrite Hj, Hc. reflexivity.
Qed.

Lemma hashset_del_spec (set : Hashset.HASHSET) (value : cstring) :
  Hashset.well_formed set ->
  exists (r : Z) (set' : Hashset.HASHSET),
    Hashset.hashset_del set value = Some (r, set')
    /\ Hashset.well_formed set'
    /\ Hashset.size set' = Hashset.size set
    /\ Hashset.hashset_contains set value = Some (r =? 1)
    /\ forall w,
         Hashset.hashset_contains set' w
         = if bytes_eqb value w then Some false else Hashset.hashset_contains set w.
Proof.
  intros Hwf.
  destruct (well_formed_chain set value Hwf) as (index & chain & Hi & Hc & Hnd & Hm).
  unfold Hashset.hashset_del. rewrite Hi, Hc. cbv beta iota.
  pose proof (chain_unlink_spec chain value Hnd) as Hu.
  destruct (Hashset.chain_unlink chain value) as [chain'|].
  - destruct Hu as (Hin & Hnd' & Hiff).
    destruct (load_store_exists _ _ _ chain' Hc) as (tbl & Hst). rewrite Hst.
    exists 1, (Hashset.mkHASHSET (Hashset.size set) tbl). split; [reflexivity|].
    destruct (well_formed_store set index chain chain' tbl Hwf Hc Hst Hnd')
      as [Hwf' Hframe].
    { intros v Hv. apply Hiff in Hv. destruct Hwf as (_ & _ & _ & Hh).
      exact (Hh index chain v Hc (proj1 Hv)). }
    split; [exact Hwf'|]. split; [reflexivity|]. split.
    { rewrite Hm. f_equal. apply chain_contains_In. exact Hin. }
    intros w. rewrite Hframe.
    destruct (bytes_eqb value w) eqn:Heq.
    + apply bytes_eqb_eq in Heq. subst w. rewrite Hi, Z.eqb_refl. f_equal.
      apply chain_contains_not_In. intros H. apply Hiff in H. apply (proj2 H).
      reflexivity.
    + apply bytes_eqb_neq in Heq.
      destruct (Hashset.hash w (Hashset.size set)) as [j|] eqn:Hj; [|reflexivity].
      destruct (Z.eqb_spec j index) as [->|Hne]; [|reflexivity].
      unfold Hashset.hashset_contains, Hashset.hashset_containsAtIndex.
      rewrite Hj, Hc. f_equal.
      destruct (Hashset.chain_contains chain w) eqn:Hw.
      * apply chain_contains_In. apply Hiff. split; [apply chain_contains_In, Hw|].
        intros ->. apply Heq. reflexivity.
      * apply chain_contains_not_In. intros H. apply Hiff in H.
        apply chain_contains_not_In in Hw. apply Hw, H.
  - exists 0, set. split; [reflexivity|]. split; [exact Hwf|]. split; [reflexivity|].
    split.
    { rewrite Hm. f_equal. apply chain_contains_not_In. exact Hu. }
    intros w. destruct (bytes_eqb value w) eqn:Heq; [|reflexivity].
    apply bytes_eqb_eq in Heq. subst w. rewrite Hm. f_equal.
    apply chain_contains_not_In. exact Hu.
Qed.

Lemma hashset_init_well_formed (n : Z) :
  0 < n -> Hashset.well_formed (Hashset.hashset_init n).
Proof.
  intros H. unfold Hashset.well_formed, Hashset.hashset_init.
  cbn [Hashset.size Hashset.table]. split; [exact H|]. split.
  { unfold len. rewrite repeat_length. lia. }
  split.
  { apply Forall_forall. intros c Hc. apply repeat_spec in Hc. subst c. constructor. }
  intros index chain v Hl Hv. unfold load in Hl.
  destruct (index <? 0); [discriminate|]. apply nth_error_In in Hl.
  apply repeat_spec in Hl. subst chain. contradiction.
Qed.

Lemma hashset_init_contains (n : Z) (value : cstring) :
  0 < n -> Hashset.hashset_contains (Hashset.hashset_init n) value = Some false.
Proof.
  intros H.
  destruct (well_formed_chain _ value (hashset_init_well_formed n H))
    as (index & chain & Hi & Hc & _ & Hm).
  rewrite Hm. unfold load in Hc. cbn [Hashset.table Hashset.hashset_init] in Hc.
  destruct (index <? 0); [discriminate|]. apply nth_error_In in Hc.
  apply repeat_spec in Hc. subst chain. reflexivity.
Qed.

Lemma set_contains_In (set : HASHSET) (value : cstring) :
  hashset_contains set value = true <-> In value set.
Proof.
  induction set as [|v rest IH]; cbn [hashset_contains In].
  - split; [discriminate|contradiction].
  - rewrite orb_true_iff, IH, bytes_eqb_eq. reflexivity.
Qed.

Lemma set_add_contains (set : HASHSET) (value w : cstring) :
  hashset_contains (hashset_add set value) w
  = bytes_eqb value w || hashset_contains set w.
Proof.
  unfold hashset_add. destruct (hashset_contains set value) eqn:Hin; [|reflexivity].
  destruct (bytes_eqb value w) eqn:Heq; [|reflexivity].
  apply bytes_eqb_eq in Heq. subst w. exact Hin.
Qed.

Lemma set_add_NoDup (set : HASHSET) (value : cstring) :
  NoDup set -> NoDup (hashset_add set value).
Proof.
  intros H. unfold hashset_add. destruct (hashset_contains set value) eqn:Hin.
  - exact H.
  - apply NoDup_cons; [|exact H]. intros Hv. apply set_contains_In in Hv. congruence.
Qed.

Lemma set_del_In (set : HASHSET) (value w : cstring) :
  NoDup set -> (In w (hashset_del set value) <-> In w set /\ w <> value).
Proof.
  induction set as [|v rest IH]; intros Hnd; cbn [hashset_del In].
  - split; [contradiction|intros [[] _]].
  - apply NoDup_cons_iff in Hnd. destruct Hnd as [Hv Hnd].
    destruct (bytes_eqb v value) eqn:Heq.
    + apply bytes_eqb_eq in Heq. split.
      * intros Hw. split; [right; exact Hw|]. intros ->. apply Hv. rewrite Heq. exact Hw.
      * intros [[Hw|Hw] Hne]; [congruence|exact Hw].
    + apply bytes_eqb_neq in Heq. cbn [In]. rewrite (IH Hnd). split.
      * intros [Hw|[Hw Hne]]; [split; [left; exact Hw|congruence]|].
        split; [right; exact Hw|exact Hne].
      * intros [[Hw|Hw] Hne]; [left; exact Hw|right; split; assumption].
Qed.

Lemma set_del_NoDup (set : HASHSET) (value : cstring) :
  NoDup set -> NoDup (hashset_del set value).
Proof.
  induction set as [|v rest IH]; intros Hnd; cbn [hashset_del]; [constructor|].
  apply NoDup_cons_iff in Hnd. destruct Hnd as [Hv Hnd].
  destruct (bytes_eqb v value); [exact Hnd|].
  apply NoDup_cons; [|exact (IH Hnd)]. intros H. apply (set_del_In _ _ _ Hnd) in H.
  apply Hv, H.
Qed.

Lemma set_del_contains (set : HASHSET) (value w : cstring) :
  NoDup set ->
  hashset_contains (hashset_del set value) w
  = negb (bytes_eqb value w) && hashset_contains set w.
Proof.
  intros Hnd. destruct (hashset_contains (hashset_del set value) w) eqn:Hd.
  - apply set_contains_In, (set_del_In _ _ _ Hnd) in Hd. destruct Hd as [Hw Hne].
    apply set_contains_In in Hw. rewrite Hw.
    assert (H : bytes_eqb value w = false) by (apply bytes_eqb_neq; congruence).
    rewrite H. reflexivity.
  - destruct (bytes_eqb value w) eqn:Heq; [reflexivity|]. cbn [negb andb].
    destruct (hashset_contains set w) eqn:Hw; [|reflexivity].
    apply bytes_eqb_neq in Heq.
    assert (H : In w (hashset_del set value)).
    { apply (set_del_In _ _ _ Hnd). split; [apply set_contains_In, Hw|congruence]. }
    apply set_contains_In in H. congruence.
Qed.

(** The table and the set of strings answer alike, whatever the calls. *)
Lemma calls_agree (l : list Hashset.CALL) :
  forall (set : Hashset.HASHSET) (s : HASHSET),
    Hashset.well_formed set -> NoDup s ->
    (forall v, Hashset.hashset_contains set v = Some (hashset_contains s v)) ->
    exists set' : Hashset.HASHSET,
      Hashset.calls l set = Some set'
      /\ Hashset.well_formed set'
      /\ Hashset.size set' = Hashset.size set
      /\ forall v,
           Hashset.hashset_contains set' v
           = Some (last_added l v (hashset_contains s v))
           /\ hashset_contains (set_calls l s) v
              = last_added l v (hashset_contains s v).
Proof.
  induction l as [|[value|value] rest IH]; intros set s Hwf Hnd Hag;
    cbn [Hashset.calls set_calls last_added].
  - exists set. split; [reflexivity|]. split; [exact Hwf|]. split; [reflexivity|].
    intros v. split; [apply Hag|reflexivity].
  - destruct (hashset_add_spec set value Hwf) as (r & set1 & Ha & Hwf1 & Hs1 & _ & Hf).
    rewrite Ha. cbn [snd].
    destruct (IH set1 (hashset_add s value) Hwf1 (set_add_NoDup s value Hnd))
      as (set' & Hc & Hwf' & Hs' & Hv).
    { intros v. rewrite Hf, set_add_contains, Hag.
      destruct (bytes_eqb value v); reflexivity. }
    exists set'. split; [exact Hc|]. split; [exact Hwf'|].
    split; [rewrite Hs', Hs1; reflexivity|].
    intros v. rewrite <- set_add_contains. apply Hv.
  - destruct (hashset_del_spec set value Hwf) as (r & set1 & Ha & Hwf1 & Hs1 & _ & Hf).
    rewrite Ha. cbn [snd].
    destruct (IH set1 (hashset_del s value) Hwf1 (set_del_NoDup s value Hnd))
      as (set' & Hc & Hwf' & Hs' & Hv).
    { intros v. rewrite Hf, (set_del_contains _ _ _ Hnd), Hag.
      destruct (bytes_eqb value v); reflexivity. }
    exists set'. split; [exact Hc|]. split; [exact Hwf'|].
    split; [rewrite Hs', Hs1; reflexivity|].
    intros v. rewrite <- (set_del_contains _ _ _ Hnd). apply Hv.
Qed.

(** X1: [hashset_add] on a well-formed table succeeds and keeps it
    well-formed; afterwards [hashset_contains] finds the value, every
    other value is found exactly when it was found before, and the return
    code is 1 exactly when the value was not yet in the set. *)
Theorem hashset_add_then_contains (set : Hashset.HASHSET) (value : cstring) :
  Hashset.well_formed set ->
  exists (r : Z) (set' : Hashset.HASHSET),
    Hashset.hashset_add set value = Some (r, set')
    /\ Hashset.well_formed set'
    /\ Hashset.hashset_contains set' value = Some true
    /\ (forall w, w <> value ->
                  Hashset.hashset_contains set' w = Hashset.hashset_contains set w)
    /\ (r = 1 \/ r = 0)
    /\ (r = 1 <-> Hashset.hashset_contains set value = Some false).
Proof.
  intros Hwf.
  destruct (hashset_add_spec set value Hwf) as (r & set' & Ha & Hwf' & _ & Hr & Hf).
  exists r, set'. split; [exact Ha|]. split; [exact Hwf'|]. split.
  { rewrite Hf, bytes_eqb_refl. reflexivity. }
  split.
  { intros w Hw. rewrite Hf.
    assert (H : bytes_eqb value w = false) by (apply bytes_eqb_neq; congruence).
    rewrite H. reflexivity. }
  unfold Hashset.hashset_add in Ha.
  destruct (Hashset.hash value (Hashset.size set)) as [index|]; [|discriminate].
  destruct (Hashset.hashset_containsAtIndex set value index) as [[|]|];
    [| |discriminate].
  - injection Ha as <- <-. split; [right; reflexivity|]. rewrite Hr.
    split; [discriminate|]. cbn. discriminate.
  - destruct (update (Hashset.table set) index (fun chain => value :: chain));
      [|discriminate].
    injection Ha as <- <-. split; [left; reflexivity|]. rewrite Hr.
    split; reflexivity.
Qed.

Lemma hashset_add_then_contains_witness :
  exists (r : Z) (set' : Hashset.HASHSET),
    Hashset.hashset_add (Hashset.hashset_init 7) [97; 98] = Some (r, set')
    /\ Hashset.well_formed set'
    /\ Hashset.hashset_contains set' [97; 98] = Some true
    /\ (forall w, w <> [97; 98] ->
                  Hashset.hashset_contains set' w
                  = Hashset.hashset_contains (Hashset.hashset_init 7) w)
    /\ (r = 1 \/ r = 0)
    /\ (r = 1 <-> Hashset.hashset_contains (Hashset.hashset_init 7) [97; 98]
                  = Some false).
Proof.
  apply (hashset_add_then_contains (Hashset.hashset_init 7) [97; 98]).
  apply hashset_init_well_formed. lia.
Defined.

(** X2: [hashset_del] on a well-formed table succeeds and keeps it
    well-formed; afterwards [hashset_contains] no longer finds the value,
    every other value is found exactly when it was found before, and the
    return code is 1 exactly when the value was in the set. *)
Theorem hashset_del_then_absent (set : Hashset.HASHSET) (value : cstring) :
  Hashset.well_formed set ->
  exists (r : Z) (set' : Hashset.HASHSET),
    Hashset.hashset_del set value = Some (r, set')
    /\ Hashset.well_formed set'
    /\ Hashset.hashset_contains set' value = Some false
    /\ (forall w, w <> value ->
                  Hashset.hashset_contains set' w = Hashset.hashset_contains set w)
    /\ (r = 1 \/ r = 0)
    /\ (r = 1 <-> Hashset.hashset_contains set value = Some true).
Proof.
  intros Hwf.
  destruct (hashset_del_spec set value Hwf) as (r & set' & Ha & Hwf' & _ & Hr & Hf).
  exists r, set'. split; [exact Ha|]. split; [exact Hwf'|]. split.
  { rewrite Hf, bytes_eqb_refl. reflexivity. }
  split.
  { intros w Hw. rewrite Hf.
    assert (H : bytes_eqb value w = false) by (apply bytes_eqb_neq; congruence).
    rewrite H. reflexivity. }
  unfold Hashset.hashset_del in Ha.
  destruct (Hashset.hash value (Hashset.size set)) as [index|]; [|discriminate].
  destruct (load (Hashset.table set) index) as [current|]; [|discriminate].
  destruct (Hashset.chain_unlink current value) as [chain|].
  - destruct (store (Hashset.table set) index chain); [|discriminate].
    injection Ha as <- <-. split; [left; reflexivity|]. rewrite Hr.
    split; reflexivity.
  - injection Ha as <- <-. split; [right; reflexivity|]. rewrite Hr.
    split; [discriminate|]. cbn. discriminate.
Qed.

Lemma hashset_del_then_absent_witness :
  exists (r : Z) (set' : Hashset.HASHSET),
    Hashset.hashset_del (Hashset.hashset_init 7) [97; 98] = Some (r, set')
    /\ Hashset.well_formed set'
    /\ Hashset.hashset_contains set' [97; 98] = Some false
    /\ (forall w, w <> [97; 98] ->
                  Hashset.hashset_contains set' w
                  = Hashset.hashset_contains (Hashset.hashset_init 7) w)
    /\ (r = 1 \/ r = 0)
    /\ (r = 1 <-> Hashset.hashset_contains (Hashset.hashset_init 7) [97; 98]
                  = Some true).
Proof.
  apply (hashset_del_then_absent (Hashset.hashset_init 7) [97; 98]).
  apply hashset_init_well_formed. lia.
Defined.

(** X3: from [hashset_init(n)], [n > 0], every run of [hashset_add] and
    [hashset_del] calls succeeds, and [hashset_contains] then answers 1
    exactly for the values whose last call was an add; the set of strings
    that stands for the table in [decompress_files] answers the same. *)
Theorem hashset_membership_after_calls (n : Z) (l : list Hashset.CALL) :
  0 < n ->
  exists set : Hashset.HASHSET,
    Hashset.calls l (Hashset.hashset_init n) = Some set
    /\ Hashset.well_formed set
    /\ forall value,
         Hashset.hashset_contains set value = Some (last_added l value false)
         /\ hashset_contains (set_calls l []) value = last_added l value false.
Proof.
  intros Hn.
  destruct (calls_agree l (Hashset.hashset_init n) [] (hashset_init_well_formed n Hn))
    as (set & Hc & Hwf & _ & Hv).
  { constructor. }
  { intros v. rewrite (hashset_init_contains n v Hn). reflexivity. }
  exists set. split; [exact Hc|]. split; [exact Hwf|]. exact Hv.
Qed.

Lemma hashset_membership_after_calls_witness :
  exists set : Hashset.HASHSET,
    Hashset.calls [Hashset.Add [97]; Hashset.Add [98]; Hashset.Del [97]]
                  (Hashset.hashset_init 65536) = Some set
    /\ Hashset.well_formed set
    /\ forall value,
         Hashset.hashset_contains set value
         = Some (last_added [Hashset.Add [97]; Hashset.Add [98]; Hashset.Del [97]]
                            value false)
         /\ hashset_contains
              (set_calls [Hashset.Add [97]; Hashset.Add [98]; Hashset.Del [97]] [])
              value
            = last_added [Hashset.Add [97]; Hashset.Add [98]; Hashset.Del [97]]
                         value false.
Proof.
  apply (hashset_membership_after_calls 65536). lia.
Defined.

(** ** Path clean-up (file_utils.c) *)

Lemma nth_cut (p : cstring) (i j : nat) :
  (i + 2 <= length p)%nat ->
  nth j (firstn i p ++ skipn (i + 2) p) 0
  = if (j <? i)%nat then nth j p 0 else nth (j + 2) p 0.
Proof.
  intros H. destruct (Nat.ltb_spec j i) as [Hlt|Hge].
  - rewrite app_nth1 by (rewrite length_firstn; lia).
    rewrite nth_firstn. destruct (Nat.ltb_spec j i); [reflexivity|lia].
  - rewrite app_nth2 by (rewrite length_firstn; lia).
    rewrite length_firstn, nth_skipn. f_equal. lia.
Qed.

Lemma length_cut (p : cstring) (i : nat) :
  (i + 2 <= length p)%nat ->
  length (firstn i p ++ skipn (i + 2) p) = (length p - 2)%nat.
Proof.
  intros H. rewrite length_app, length_firstn, length_skipn. lia.
Qed.

(** The test of the loop is [dot_dir_at]. *)
Lemma dot_dir_test (path : cstring) (n : nat) :
  (nth (Z.to_nat (Z.of_nat n)) path 0 =? 46)
  && (nth (Z.to_nat (Z.of_nat n + 1)) path 0 =? 47)
  && ((Z.of_nat n =? 0)
      || ((Z.of_nat n >? 0) && (nth (Z.to_nat (Z.of_nat n - 1)) path 0 =? 47)))
  = true
  <-> dot_dir_at path n.
Proof.
  unfold dot_dir_at. rewrite Nat2Z.id.
  replace (Z.to_nat (Z.of_nat n + 1)) with (S n) by lia.
  replace (Z.to_nat (Z.of_nat n - 1)) with (n - 1)%nat by lia.
  rewrite !andb_true_iff, orb_true_iff, andb_true_iff, !Z.eqb_eq.
  split.
  - intros [[H1 H2] [H3|[_ H3]]]; (split; [exact H1|split; [exact H2|]]).
    + left. lia.
    + right. exact H3.
  - intros (H1 & H2 & [H3|H3]); (split; [split; assumption|]).
    + left. lia.
    + destruct n as [|n]; [left; reflexivity|right].
      split; [apply Z.gtb_lt; lia|exact H3].
Qed.

Lemma rm_dot_dir_loop_spec (fuel : nat) :
  forall (path : cstring) (n : nat),
    (length path - n <= fuel)%nat ->
    (forall j, (j < n)%nat -> (S j < length path)%nat -> ~ dot_dir_at path j) ->
    exists r : cstring,
      rm_dot_dir_loop fuel path (Z.of_nat n) = Some r
      /\ (forall j, (S j < length r)%nat -> ~ dot_dir_at r j)
      /\ (length r <= length path)%nat
      /\ ((forall j, (S j < length path)%nat -> ~ dot_dir_at path j) -> r = path).
Proof.
  induction fuel as [|fuel IH]; intros path n Hfuel Hinv.
  - cbn [rm_dot_dir_loop].
    destruct (Z.ltb_spec (Z.of_nat n) (len path - 1)) as [Hlt|Hge];
      [unfold len in Hlt; lia|].
    exists path. split; [reflexivity|]. split.
    { intros j Hj. apply Hinv; [unfold len in Hge; lia|exact Hj]. }
    split; [lia|reflexivity].
  - cbn [rm_dot_dir_loop].
    destruct (Z.ltb_spec (Z.of_nat n) (len path - 1)) as [Hlt|Hge].
    + unfold len in Hlt.
      match goal with |- context [if ?c then _ else _] => destruct c eqn:Htest end.
      * apply dot_dir_test in Htest.
        replace (Z.of_nat n - 1 + 1) with (Z.of_nat n) by lia.
        rewrite Nat2Z.id. replace (Z.to_nat (Z.of_nat n + 2)) with (n + 2)%nat by lia.
        destruct (IH (firstn n path ++ skipn (n + 2) path) n) as (r & Hr & Hc & Hl & Hid).
        { rewrite length_cut by lia. lia. }
        { intros j Hj Hlen [H1 [H2 H3]].
          rewrite length_cut in Hlen by lia.
          rewrite nth_cut in H1 by lia. rewrite nth_cut in H2 by lia.
          destruct (Nat.ltb_spec j n) as [_|]; [|lia].
          destruct (Nat.ltb_spec (S j) n) as [Hs|Hs].
          - apply (Hinv j Hj ltac:(lia)). split; [exact H1|]. split; [exact H2|].
            destruct H3 as [H3|H3]; [left; exact H3|right].
            rewrite nth_cut in H3 by lia.
            destruct (Nat.ltb_spec (j - 1) n); [exact H3|lia].
          - assert (Hjn : n = S j) by lia.
            destruct Htest as (_ & _ & [Hn|Hn]); [lia|].
            rewrite Hjn in Hn. cbn [Nat.sub] in Hn. rewrite Nat.sub_0_r in Hn.
            rewrite H1 in Hn. discriminate. }
        exists r. split; [exact Hr|]. split; [exact Hc|]. split.
        { rewrite length_cut in Hl by lia. lia. }
        intros Hclean. exfalso. apply (Hclean n); [lia|exact Htest].
      * replace (Z.of_nat n + 1) with (Z.of_nat (S n)) by lia.
        destruct (IH path (S n)) as (r & Hr & Hc & Hl & Hid).
        { lia. }
        { intros j Hj Hlen Hd. destruct (Nat.eq_dec j n) as [->|Hne].
          - apply dot_dir_test in Hd. congruence.
          - apply (Hinv j ltac:(lia) Hlen Hd). }
        exists r. split; [exact Hr|]. split; [exact Hc|]. split; [exact Hl|exact Hid].
    + exists path. split; [reflexivity|]. split.
      { intros j Hj. apply Hinv; [unfold len in Hge; lia|exact Hj]. }
      split; [lia|reflexivity].
Qed.

(** X4: [rm_dot_dir_from_path] ends, leaves no component [./] (a dot
    then a slash, at the start or after a slash) in the path, never
    makes it longer, and returns a path that has none as it is. *)
Theorem rm_dot_dir_from_path_clean (path : cstring) :
  exists r : cstring,
    rm_dot_dir_from_path path = Some r
    /\ (forall i, (S i < length r)%nat -> ~ dot_dir_at r i)
    /\ (length r <= length path)%nat
    /\ ((forall i, (S i < length path)%nat -> ~ dot_dir_at path i) -> r = path).
Proof.
  unfold rm_dot_dir_from_path.
  destruct (Z.geb_spec (len path) 2) as [Hge|Hlt].
  - apply (rm_dot_dir_loop_spec (length path) path 0); [lia|].
    intros j Hj. lia.
  - exists path. split; [reflexivity|]. split.
    { intros i Hi. unfold len in Hlt. lia. }
    split; [lia|reflexivity].
Qed.

(** ** The 24 and 40 bit fields of inettypes.c *)

Ltac field_bits :=
  apply Z.bits_inj'; intros n Hn;
  repeat rewrite ?Z.lor_spec, ?Z.land_spec, ?Z.shiftl_spec, ?testbit_255,
    ?Z.testbit_ones_nonneg by lia;
  bool_cases; try lia;
  cbn [andb orb];
  rewrite ?andb_true_r, ?andb_false_r, ?orb_false_r, ?orb_false_l;
  rewrite ?Z.shiftr_spec by lia;
  try (f_equal; lia).

(** X5: decoding what [hton24] or [hton40] stored gives the value back
    cut to 24 or 40 bits: the fields keep exactly the low bits. *)
Theorem ntoh_hton_truncates (value : Z) :
  ntoh24 (hton24 value) = value mod 2 ^ 24
  /\ ntoh40 (hton40 value) = value mod 2 ^ 40.
Proof.
  split.
  - rewrite <- Z.land_ones by lia. unfold ntoh24, hton24. cbn [nth]. field_bits.
  - rewrite <- Z.land_ones by lia. unfold ntoh40, hton40. cbn [nth]. field_bits.
Qed.

Ltac byte_bit a :=
  repeat match goal with
         | |- context [Z.testbit a ?i] =>
           first [ rewrite (Z.testbit_neg_r a i) by lia
                 | rewrite (testbit_above a 8 i) by lia ]
         end.

Ltac field_byte :=
  apply Z.bits_inj'; intros n Hn;
  rewrite Z.land_spec, testbit_255, Z.shiftr_spec by lia;
  repeat rewrite ?Z.lor_spec, ?Z.shiftl_spec by lia;
  bool_cases; try lia; cbn [andb orb];
  rewrite ?andb_true_r, ?andb_false_r.

Lemma hton24_ntoh24 (a b c : Z) :
  is_byte a -> is_byte b -> is_byte c ->
  hton24 (ntoh24 [a; b; c]) = [a; b; c].
Proof.
  unfold is_byte. intros Ha Hb Hc. unfold hton24, ntoh24. cbn [nth].
  repeat f_equal.
  - field_byte.
    + byte_bit b. byte_bit c. rewrite !orb_false_r. f_equal. lia.
    + byte_bit a. reflexivity.
  - field_byte.
    + byte_bit a. byte_bit c. rewrite orb_false_r. cbn [orb]. f_equal. lia.
    + byte_bit b. reflexivity.
  - rewrite <- (Z.shiftr_0_r (Z.lor _ _)). field_byte.
    + byte_bit a. byte_bit b. cbn [orb]. f_equal. lia.
    + byte_bit c. reflexivity.
Qed.

Ltac field_bytes a b c d e :=
  field_byte;
  byte_bit a; byte_bit b; byte_bit c; byte_bit d; byte_bit e;
  rewrite ?orb_false_r, ?orb_false_l; cbn [orb];
  try reflexivity; f_equal; lia.

Lemma hton40_ntoh40 (a b c d e : Z) :
  is_byte a -> is_byte b -> is_byte c -> is_byte d -> is_byte e ->
  hton40 (ntoh40 [a; b; c; d; e]) = [a; b; c; d; e].
Proof.
  unfold is_byte. intros Ha Hb Hc Hd He. unfold hton40, ntoh40. cbn [nth].
  repeat f_equal.
  - field_bytes a b c d e.
  - field_bytes a b c d e.
  - field_bytes a b c d e.
  - field_bytes a b c d e.
  - rewrite <- (Z.shiftr_0_r (Z.lor _ _)). field_bytes a b c d e.
Qed.

(** X6: a field of three or five bytes decoded by [ntoh24] or [ntoh40]
    and stored again by [hton24] or [hton40] is the same bytes. *)
Theorem hton_ntoh_same_bytes (ptr : bytes) :
  Forall is_byte ptr ->
  (length ptr = 3%nat -> hton24 (ntoh24 ptr) = ptr)
  /\ (length ptr = 5%nat -> hton40 (ntoh40 ptr) = ptr).
Proof.
  intros H. split; intros Hl.
  - destruct ptr as [|a [|b [|c [|]]]]; try discriminate.
    apply Forall_cons_iff in H. destruct H as [Ha H].
    apply Forall_cons_iff in H. destruct H as [Hb H].
    apply Forall_cons_iff in H. destruct H as [Hc _].
    apply hton24_ntoh24; assumption.
  - destruct ptr as [|a [|b [|c [|d [|e [|]]]]]]; try discriminate.
    apply Forall_cons_iff in H. destruct H as [Ha H].
    apply Forall_cons_iff in H. destruct H as [Hb H].
    apply Forall_cons_iff in H. destruct H as [Hc H].
    apply Forall_cons_iff in H. destruct H as [Hd H].
    apply Forall_cons_iff in H. destruct H as [He _].
    apply hton40_ntoh40; assumption.
Qed.

Lemma hton_ntoh_same_bytes_witness :
  (length [1; 2; 3; 254; 255] = 3%nat ->
   hton24 (ntoh24 [1; 2; 3; 254; 255]) = [1; 2; 3; 254; 255])
  /\ (length [1; 2; 3; 254; 255] = 5%nat ->
      hton40 (ntoh40 [1; 2; 3; 254; 255]) = [1; 2; 3; 254; 255]).
Proof.
  apply (hton_ntoh_same_bytes [1; 2; 3; 254; 255]).
  repeat constructor; unfold is_byte; lia.
Defined.

(** ** Lower case (common.c) *)

Lemma lcase_no_upper (s : cstring) : Forall (fun c => ~ 65 <= c <= 90) (lcase s).
Proof.
  induction s as [|c t IH]; cbn [lcase]; constructor; [|exact IH].
  destruct (Z.leb_spec 65 c), (Z.leb_spec c 90); cbn [andb]; lia.
Qed.

Lemma lcase_fixed (s : cstring) :
  Forall (fun c => ~ 65 <= c <= 90) s -> lcase s = s.
Proof.
  intros H. induction H as [|c t Hc Ht IH]; cbn [lcase]; [reflexivity|].
  rewrite IH. destruct (Z.leb_spec 65 c), (Z.leb_spec c 90); cbn [andb];
    try reflexivity. lia.
Qed.

Lemma lcase_lcase (s : cstring) : lcase (lcase s) = lcase s.
Proof. apply lcase_fixed, lcase_no_upper. Qed.

(** X7: [lcase] keeps the length, leaves no byte in 'A'..'Z', changes
    nothing in a string that has none, and is therefore idempotent; a
    byte it changes is the letter 32 places up. *)
Theorem lcase_lower (s : cstring) :
  length (lcase s) = length s
  /\ Forall (fun c => ~ 65 <= c <= 90) (lcase s)
  /\ (Forall (fun c => ~ 65 <= c <= 90) s -> lcase s = s)
  /\ lcase (lcase s) = lcase s
  /\ forall i, nth i (lcase s) 0 = nth i s 0
               \/ (65 <= nth i s 0 <= 90 /\ nth i (lcase s) 0 = nth i s 0 + 32).
Proof.
  split; [|split; [apply lcase_no_upper|split; [apply lcase_fixed|split;
                                                  [apply lcase_lcase|]]]].
  - induction s as [|c t IH]; cbn [lcase length]; [reflexivity|]. rewrite IH.
    reflexivity.
  - induction s as [|c t IH]; intros i; cbn [lcase].
    + left. reflexivity.
    + destruct i as [|i]; cbn [nth]; [|apply IH].
      destruct (Z.leb_spec 65 c), (Z.leb_spec c 90); cbn [andb];
        try (left; reflexivity).
      right. split; [lia|reflexivity].
Qed.

(** ** The manifest (pak.c) *)

(** X8: the first loop of [create_archive] reserves for the manifest
    exactly the characters that the second loop appends, so the
    [strcat] calls stay inside [filenames]. *)
Theorem manifest_fills_its_buffer (cfg : CONFIG) (ai : ARCHIVEINFO)
    (paths : list cstring) :
  filenames_length cfg ai paths = len (build_filenames cfg ai paths)
  /\ len (build_filenames cfg ai paths)
     = sum (map (fun p => len (manifest_name cfg ai p)) paths)
       + Z.max 0 (len paths - 1).
Proof.
  split; [apply filenames_length_eq|].
  induction paths as [|p rest IH]; [reflexivity|].
  cbn [build_filenames map sum]. rewrite !len_app, IH.
  destruct rest as [|q rest].
  - cbn [map sum]. unfold len. cbn [length]. lia.
  - rewrite (len_cons 10 []), !len_cons. change (len (@nil Z)) with 0.
    pose proof (len_nonneg rest). lia.
Qed.

Lemma skip_slashes_head (s : cstring) : hd 0 (skip_slashes s) <> 47.
Proof.
  induction s as [|c t IH]; cbn [skip_slashes hd]; [lia|].
  destruct (Z.eq_dec c 47) as [->|Hc]; [exact IH|].
  assert (H : skip_slashes (c :: t) = c :: t).
  { cbn [skip_slashes].
    destruct c as [|p|p]; try reflexivity.
    do 6 (destruct p as [p|p|]; try reflexivity). contradiction Hc. reflexivity. }
  cbn [skip_slashes] in H |- *. rewrite H. exact Hc.
Qed.

Lemma skip_slashes_no_slash (s : cstring) : ~ In 47 s -> skip_slashes s = s.
Proof.
  destruct s as [|c t]; intros H; [reflexivity|].
  assert (Hc : c <> 47) by (intros ->; apply H; left; reflexivity).
  cbn [skip_slashes].
  destruct c as [|p|p]; try reflexivity.
  do 6 (destruct p as [p|p|]; try reflexivity). contradiction Hc. reflexivity.
Qed.

(** X9: the name stored in the manifest. With absolute paths it begins
    with a slash, without them it does not; with trimmed paths it holds
    no slash after its first character. *)
Theorem manifest_name_shape (cfg : CONFIG) (ai : ARCHIVEINFO) (path : cstring) :
  (abspath ai = true -> hd 0 (manifest_name cfg ai path) = 47)
  /\ (abspath ai = false -> hd 0 (manifest_name cfg ai path) <> 47)
  /\ (trim_path_flag cfg = true -> ~ In 47 (tl (manifest_name cfg ai path))).
Proof.
  unfold manifest_name. cbv zeta.
  set (fname := if trim_path_flag cfg
                then match strrchr 47 path with
                     | Some px => px
                     | None => path
                     end
                else path).
  split; [|split].
  - intros ->. destruct (Z.eqb_spec (hd 0 fname) 47) as [H|H]; [exact H|reflexivity].
  - intros ->. apply skip_slashes_head.
  - subst fname. intros ->. destruct (strrchr 47 path) as [px|] eqn:Hp.
    + destruct (strrchr_some 47 path px Hp) as (t & -> & Hnot).
      cbn [hd]. rewrite Z.eqb_refl.
      destruct (abspath ai); [exact Hnot|].
      cbn [skip_slashes]. rewrite (skip_slashes_no_slash t Hnot).
      intros H. apply Hnot. destruct t; [contradiction|right; exact H].
    + apply strrchr_none in Hp.
      destruct (abspath ai).
      * destruct (hd 0 path =? 47); [|exact Hp].
        intros H. apply Hp. destruct path; [contradiction|right; exact H].
      * rewrite (skip_slashes_no_slash path Hp).
        intros H. apply Hp. destruct path; [contradiction|right; exact H].
Qed.

(** X10: the names come back from the manifest. When no stored name is
    empty or holds a newline or a NUL, the [strtok] loop of
    [read_filenames], run on the manifest followed by its NUL, returns
    the stored names in order. *)
Theorem manifest_names_come_back (cfg : CONFIG) (ai : ARCHIVEINFO)
    (paths : list cstring) (rest : bytes) :
  Forall (fun p => manifest_name cfg ai p <> []
                   /\ ~ In 10 (manifest_name cfg ai p)
                   /\ ~ In 0 (manifest_name cfg ai p)) paths ->
  strtok (c_str (build_filenames cfg ai paths ++ 0 :: rest)) 10
  = map (manifest_name cfg ai) paths.
Proof.
  intros H. rewrite c_str_app.
  - apply strtok_manifest. eapply Forall_impl; [|exact H].
    cbv beta. intros p (H1 & H2 & _). split; assumption.
  - apply manifest_no_nul. eapply Forall_impl; [|exact H].
    cbv beta. intros p (_ & _ & H3). exact H3.
Qed.

Lemma manifest_names_come_back_witness :
  strtok (c_str (build_filenames config0 archiveinfo0
                   [[47; 97; 47; 98]; [99]; [100; 47; 101]] ++ 0 :: [1; 2]))
         10
  = map (manifest_name config0 archiveinfo0)
        [[47; 97; 47; 98]; [99]; [100; 47; 101]].
Proof.
  apply (manifest_names_come_back config0 archiveinfo0
           [[47; 97; 47; 98]; [99]; [100; 47; 101]] [1; 2]).
  repeat constructor; cbn; try discriminate; intros H; repeat destruct H as [H|H];
    try discriminate H; exact H.
Defined.

(** ** The index written and read (pak.c, unpak.c) *)

Lemma write_header_over {E : External} (ai : ARCHIVEINFO) (f : FILE) :
  write_header ai f = mkFILE (header_bytes ai ++ skipn 32 (f_data f)) 32.
Proof.
  unfold write_header, fseek, fwrite. cbn [f_data f_pos].
  pose proof (length_header_bytes ai) as Hl.
  destruct (header_bytes ai) as [|b hb] eqn:Eh; [discriminate Hl|].
  cbn [Z.to_nat firstn Nat.sub repeat app Nat.add]. rewrite Hl.
  unfold len. rewrite Hl. reflexivity.
Qed.

(** X11: the header read back. Whatever the output file held,
    [read_header] after [write_header] succeeds and finds version 1.4
    (whatever [_ArchiveInfo.version] was), the codec LZMA or zlib, and
    the table length, the number of entries, the block size and the
    flags as they were, each being a 32-bit value. *)
Theorem read_header_of_write_header {E : External} (ai0 ai : ARCHIVEINFO)
    (f : FILE) :
  0 <= toc_length ai < 2 ^ 32 ->
  0 <= toc_entries ai < 2 ^ 32 ->
  0 <= block_size ai < 2 ^ 32 ->
  0 <= archive_flags ai < 2 ^ 32 ->
  read_header ai0 (write_header ai f)
  = (0,
     mkARCHIVEINFO 1 4
       (if compression_type ai =? PSARC_LZMA then PSARC_LZMA else PSARC_ZLIB)
       (toc_length ai) (toc_entries ai) (block_size ai) (archive_flags ai),
     mkFILE (header_bytes ai ++ skipn 32 (f_data f)) 32).
Proof.
  intros Ht Hn Hb Hf. rewrite write_header_over.
  change (read_header ai0 (mkFILE (header_bytes ai ++ skipn 32 (f_data f)) 32))
    with (read_header ai0 (fopen_rb (header_bytes ai ++ skipn 32 (f_data f)))).
  rewrite read_header_long.
  - rewrite firstn_app, length_header_bytes, Nat.sub_diag, firstn_O, app_nil_r.
    rewrite <- (length_header_bytes ai), firstn_all.
    assert (H0 : sub (header_bytes ai) 4 2 = [0; 1]) by
      (unfold header_bytes; destruct (compression_type ai =? PSARC_LZMA); reflexivity).
    assert (H00 : sub (header_bytes ai) 6 2 = [0; 4]) by
      (unfold header_bytes; destruct (compression_type ai =? PSARC_LZMA); reflexivity).
    assert (H1 : sub (header_bytes ai) 12 4 = htonl (toc_length ai))
      by (unfold header_bytes; destruct (compression_type ai =? PSARC_LZMA); reflexivity).
    assert (H2 : sub (header_bytes ai) 20 4 = htonl (toc_entries ai))
      by (unfold header_bytes; destruct (compression_type ai =? PSARC_LZMA); reflexivity).
    assert (H3 : sub (header_bytes ai) 24 4 = htonl (block_size ai))
      by (unfold header_bytes; destruct (compression_type ai =? PSARC_LZMA); reflexivity).
    assert (H4 : sub (header_bytes ai) 28 4 = htonl (archive_flags ai))
      by (unfold header_bytes; destruct (compression_type ai =? PSARC_LZMA); reflexivity).
    rewrite H0, H00, H1, H2, H3, H4, !ntohl_htonl by assumption.
    rewrite header_bytes_tag.
    destruct (compression_type ai =? PSARC_LZMA); reflexivity.
  - rewrite len_app. unfold len at 1. rewrite length_header_bytes.
    pose proof (len_nonneg (skipn 32 (f_data f))). lia.
Qed.


Lemma read_header_of_write_header_witness :
  read_header archiveinfo0 (write_header (set_toc ai_lzma 3 152) fopen_wb)
  = (0, mkARCHIVEINFO 1 4 PSARC_LZMA 152 3 65536 0,
     mkFILE (header_bytes (set_toc ai_lzma 3 152) ++ skipn 32 (f_data fopen_wb)) 32).
Proof.
  apply (read_header_of_write_header (E := model_external) archiveinfo0
           (set_toc ai_lzma 3 152) fopen_wb); cbn; lia.
Defined.

Lemma Some_inj {A : Type} (a b : A) : Some a = Some b -> a = b.
Proof. intros H. injection H as H. exact H. Qed.

(** X12: a record of the table of contents read back. [toc_fileinfo]
    applied to the 30 bytes that [write_toc_table] stores for an entry
    finds the digest (zeros for the manifest, the MD5 of the path
    otherwise), the block index and the size as they were, and as
    offset the offset of the entry in the payload plus [toc_length];
    name, block count and compressed size are not stored. *)
Theorem toc_fileinfo_of_toc_bytes {E : External} (ai : ARCHIVEINFO) (i : Z)
    (fi : FILEINFO) (toc : bytes) :
  toc_bytes ai i fi = Some toc ->
  (i <> 0 -> forall name, filename fi = Some name -> length (md5 name) = 16%nat) ->
  0 <= block_index fi < 2 ^ 32 ->
  0 <= uncompressed_size fi < 2 ^ 40 ->
  0 <= offset fi + toc_length ai < 2 ^ 40 ->
  length toc = 30%nat
  /\ toc_fileinfo toc
     = mkFILEINFO (if i =? 0 then repeat 0 16%nat
                   else match filename fi with
                        | Some name => md5 name
                        | None => []
                        end)
                  None (offset fi + toc_length ai) (block_index fi) 0 0
                  (uncompressed_size fi).
Proof.
  intros Ht Hd Hb Hu Ho. unfold toc_bytes in Ht.
  assert (Hdg : exists dg, length dg = 16%nat
                           /\ dg = (if i =? 0 then repeat 0 16%nat
                                    else match filename fi with
                                         | Some name => md5 name
                                         | None => []
                                         end)
                           /\ toc = dg ++ htonl (block_index fi)
                                       ++ hton40 (uncompressed_size fi)
                                       ++ hton40 (u64 (offset fi + toc_length ai))).
  { destruct (Z.eqb_spec i 0) as [Hi|Hi].
    - apply Some_inj in Ht. rewrite <- Ht. eexists.
      split; [|split; reflexivity]. apply repeat_length.
    - destruct (filename fi) as [name|]; [|discriminate Ht].
      apply Some_inj in Ht. rewrite <- Ht. eexists.
      split; [|split; reflexivity]. apply (Hd Hi). reflexivity. }
  destruct Hdg as (dg & Hl & Hdg & ->). split.
  - rewrite !length_app, Hl. reflexivity.
  - rewrite toc_fileinfo_fields by exact Hl.
    rewrite ntohl_htonl by exact Hb. rewrite !ntoh40_hton40.
    + rewrite u64_small by lia. rewrite Hdg. reflexivity.
    + exact Hu.
    + rewrite u64_small by lia. exact Ho.
Qed.


Lemma toc_fileinfo_of_toc_bytes_witness :
  length (model_md5 [97] ++ htonl 2 ++ hton40 70000 ++ hton40 (u64 (500 + 152)))
  = 30%nat
  /\ toc_fileinfo (model_md5 [97] ++ htonl 2 ++ hton40 70000
                     ++ hton40 (u64 (500 + 152)))
     = mkFILEINFO
         (if 1 =? 0 then repeat 0 16%nat
          else match filename (mkFILEINFO [] (Some [97]) 500 2 2 300 70000) with
               | Some name => md5 (External := model_external) name
               | None => []
               end)
         None
         (offset (mkFILEINFO [] (Some [97]) 500 2 2 300 70000)
          + toc_length (set_toc ai_lzma 3 152))
         (block_index (mkFILEINFO [] (Some [97]) 500 2 2 300 70000)) 0 0
         (uncompressed_size (mkFILEINFO [] (Some [97]) 500 2 2 300 70000)).
Proof.
  apply (toc_fileinfo_of_toc_bytes (E := model_external) (set_toc ai_lzma 3 152) 1
           (mkFILEINFO [] (Some [97]) 500 2 2 300 70000)).
  - reflexivity.
  - intros _ name H. injection H as <-. reflexivity.
  - cbn. lia.
  - cbn. lia.
  - cbn. lia.
Defined.

(** The largest block length that an item of [w] bytes brings back: the
    three-byte item keeps 20 bits. *)
Lemma item_value_of_item (w v : Z) :
  2 <= w <= 4 ->
  0 <= v < (if w =? 2 then 2 ^ 16 else if w =? 3 then 2 ^ 20 else 2 ^ 32) ->
  item_value w (blocktable_item w v) = v.
Proof.
  intros Hw Hv. unfold item_value, blocktable_item.
  destruct (Z.eqb_spec w 1); [lia|].
  destruct (Z.eqb_spec w 2).
  - change 0xffff with (Z.ones 16). rewrite Z.land_ones by lia.
    rewrite Z.mod_small by lia. apply ntohs_htons. lia.
  - destruct (Z.eqb_spec w 3).
    + change 0x0fffff with (Z.ones 20). rewrite Z.land_ones by lia.
      rewrite Z.mod_small by lia. apply ntoh24_hton24. lia.
    + destruct (Z.eqb_spec w 4); [|lia]. apply ntohl_htonl. lia.
Qed.

Lemma blocktable_item_len (w v : Z) :
  2 <= w <= 4 -> len (blocktable_item w v) = w.
Proof.
  intros Hw. unfold blocktable_item.
  destruct (Z.eqb_spec w 1); [lia|].
  destruct (Z.eqb_spec w 2); [subst w; reflexivity|].
  destruct (Z.eqb_spec w 3); [subst w; reflexivity|].
  destruct (Z.eqb_spec w 4); [subst w; reflexivity|lia].
Qed.

(** X13: the block table read back. [write_blocktable] fills the place
    reserved for the table, and [read_blocktable], started there on an
    archive whose header counts these items, returns the table as it
    was, provided every item is below 2^16, 2^20 or 2^32 for items of
    two, three or four bytes. *)
Theorem read_blocktable_of_write_blocktable (mem0 : UNINIT) (ai : ARCHIVEINFO)
    (table : list Z) (pre mid post : bytes) :
  256 < block_size ai < 2 ^ 32 ->
  0 <= toc_entries ai ->
  toc_length ai
  = sizeof_PSARCHEADER + toc_entries ai * sizeof_PSARCTOC
    + len table * get_blocktable_item_size ai ->
  toc_length ai < 2 ^ 64 ->
  len mid = len table * get_blocktable_item_size ai ->
  Forall (fun v => 0 <= v < (if get_blocktable_item_size ai =? 2 then 2 ^ 16
                             else if get_blocktable_item_size ai =? 3 then 2 ^ 20
                             else 2 ^ 32)) table ->
  exists f : FILE,
    write_blocktable ai (mkFILE (pre ++ mid ++ post) (len pre)) table (len table)
    = Some f
    /\ f_pos f = len pre + len mid
    /\ read_blocktable mem0 ai (fseek f (len pre)) = (Some table, f).
Proof.
  intros Hb Hn Ht Ht64 Hm Hv.
  set (w := get_blocktable_item_size ai) in *.
  assert (Hw : 2 <= w <= 4).
  { destruct (item_size_cases ai ltac:(lia)) as [[H1 H2]|[[H1 H2]|[[H1 H2]|[H1 H2]]]];
      subst w; lia. }
  set (items := map (blocktable_item w) table).
  assert (Hitems : Forall (fun r => len r = w) items).
  { subst items. apply Forall_forall. intros r Hr. apply in_map_iff in Hr.
    destruct Hr as (v & <- & _). apply blocktable_item_len. exact Hw. }
  assert (Hlen : len (concat items) = w * len table).
  { rewrite (len_concat_uniform w items Hitems). subst items. rewrite len_map.
    reflexivity. }
  assert (Hne : Forall (fun b : bytes => b <> []) items).
  { eapply Forall_impl; [|exact Hitems]. cbv beta. intros r Hr ->.
    change (len (@nil Z)) with 0 in Hr. lia. }
  rewrite write_blocktable_spec by reflexivity. fold w. fold items.
  rewrite (fwrite_all_inside items pre mid post (len pre) eq_refl).
  - eexists. split; [reflexivity|]. cbn [f_pos]. split; [lia|].
    unfold read_blocktable, fseek. cbn [f_data f_pos]. fold w.
    rewrite Ht.
    replace (sizeof_PSARCHEADER + toc_entries ai * sizeof_PSARCTOC + len table * w
             - (sizeof_PSARCHEADER + toc_entries ai * sizeof_PSARCTOC))
      with (len table * w) by lia.
    pose proof (len_nonneg table) as Hlt.
    assert (Hsmall : 0 <= len table * w < 2 ^ 64).
    { unfold sizeof_PSARCHEADER, sizeof_PSARCTOC in *. nia. }
    rewrite u64_small by exact Hsmall. rewrite Z.div_mul by lia.
    assert (Hskip : skipn (Z.to_nat (len pre)) (pre ++ concat items ++ post)
                    = concat items ++ post).
    { rewrite to_nat_len, skipn_app, Nat.sub_diag, skipn_all. reflexivity. }
    rewrite Hskip.
    destruct (Z.gtb_spec (len table * w) (len (concat items ++ post))) as [Hgt|_].
    { rewrite len_app, Hlen in Hgt. pose proof (len_nonneg post). lia. }
    rewrite to_nat_len.
    replace (length table) with (length items)
      by (subst items; apply length_map).
    rewrite (read_blocktable_loop_spec w (pre ++ concat items ++ post) items Hw Hitems
               (len pre) (junk_u32 mem0) post (len_nonneg pre) Hskip).
    f_equal.
    + f_equal. subst items. rewrite map_map.
      rewrite <- (map_id table) at 2. apply map_ext_in. intros v Hin.
      apply item_value_of_item; [exact Hw|].
      rewrite Forall_forall in Hv. exact (Hv v Hin).
    + f_equal. subst items. rewrite len_map, Hlen. lia.
  - unfold len in Hlen, Hm. apply Nat2Z.inj. lia.
  - exact Hne.
Qed.

Lemma read_blocktable_of_write_blocktable_witness :
  exists f : FILE,
    write_blocktable (mkARCHIVEINFO 1 4 PSARC_ZLIB 98 2 1024 0)
      (mkFILE ([1; 2] ++ [0; 0; 0; 0; 0; 0] ++ [9]) (len [1; 2]))
      [5; 0; 1000] (len [5; 0; 1000])
    = Some f
    /\ f_pos f = len [1; 2] + len [0; 0; 0; 0; 0; 0]
    /\ read_blocktable memory0 (mkARCHIVEINFO 1 4 PSARC_ZLIB 98 2 1024 0)
         (fseek f (len [1; 2]))
       = (Some [5; 0; 1000], f).
Proof.
  apply (read_blocktable_of_write_blocktable memory0
           (mkARCHIVEINFO 1 4 PSARC_ZLIB 98 2 1024 0) [5; 0; 1000]
           [1; 2] [0; 0; 0; 0; 0; 0] [9]).
  - cbn. lia.
  - cbn. lia.
  - reflexivity.
  - cbn. lia.
  - reflexivity.
  - repeat constructor; cbn; lia.
Defined.

(** ** What [create_archive] refuses and what it writes (pak.c) *)

Lemma total_blocks_empty (ai : ARCHIVEINFO) (files : list (cstring * bytes)) :
  1 <= block_size ai ->
  Forall (fun p => snd p = []) files ->
  total_blocks ai (map snd files) = 0
  /\ sum (map len (map snd files)) = 0.
Proof.
  intros Hb H. induction H as [|[name content] rest Hp _ IH]; [split; reflexivity|].
  cbn [snd] in Hp. rewrite Hp. cbn [map snd]. rewrite total_blocks_cons. cbn [sum].
  change (len (@nil Z)) with 0. rewrite blocks_of_0 by exact Hb.
  destruct IH as [-> ->]. split; reflexivity.
Qed.

(** X14: an archive of empty files is refused. When every input file is
    empty (or there is none) the block count of the files is zero and
    [create_archive] returns 1 ("no files to add") before it opens the
    output file. *)
Theorem create_archive_nothing_to_add {E : External} (cfg : CONFIG)
    (mem0 : UNINIT) (ai : ARCHIVEINFO) (output_exists : bool)
    (files : list (cstring * bytes)) :
  overwrite_flag cfg = true \/ output_exists = false ->
  1 <= block_size ai < 2 ^ 32 ->
  len files + 1 < 2 ^ 32 ->
  Forall (fun p => snd p = []) files ->
  create_archive cfg mem0 ai output_exists files
  = Some (1, set_toc ai (len files) (toc_length ai), None).
Proof.
  intros Hout Hb Hn Hempty. unfold create_archive.
  assert (Ho : negb (overwrite_flag cfg) && output_exists = false).
  { destruct Hout as [-> | ->]; [reflexivity|apply andb_false_r]. }
  rewrite Ho. destruct (Z.eqb_spec (block_size ai) 0) as [H0|_]; [lia|].
  pose proof (len_nonneg files) as Hn0.
  cbv zeta. cbn [toc_entries set_toc block_size].
  rewrite (u32_small (len files)) by lia.
  rewrite (u32_small (len files + 1)) by lia.
  replace (Z.to_nat (len files + 1)) with (S (length files)) by (unfold len; lia).
  cbn [repeat]. rewrite update_head. cbv beta iota.
  rewrite repeat_map_const.
  destruct (total_blocks_empty ai files ltac:(lia) Hempty) as [Hblocks Hsizes].
  match goal with
  | |- context [get_blocktable_size ?a files 1 (?x :: ?m) 0] =>
    change (get_blocktable_size a files 1 (x :: m) 0)
      with (get_blocktable_size a files 1 ([x] ++ m) 0);
    rewrite (get_blocktable_size_spec a (junk_fileinfo mem0) files Hb [x] 1 0
               eq_refl ltac:(lia))
  end.
  - change (total_blocks (set_toc ai (len files) (toc_length ai)) (map snd files))
      with (total_blocks ai (map snd files)).
    rewrite Hblocks. reflexivity.
  - change (total_blocks (set_toc ai (len files) (toc_length ai)) (map snd files))
      with (total_blocks ai (map snd files)).
    rewrite Hblocks. lia.
  - rewrite Hsizes. lia.
Qed.

Lemma create_archive_nothing_to_add_witness :
  create_archive (E := model_external) config0 memory0 archiveinfo0 false
    [empty_e; ([102], [])]
  = Some (1, set_toc archiveinfo0 (len [empty_e; ([102], [])])
               (toc_length archiveinfo0), None).
Proof.
  apply (create_archive_nothing_to_add (E := model_external) config0 memory0
           archiveinfo0 false [empty_e; ([102], [])]).
  - right. reflexivity.
  - cbn. lia.
  - cbn. lia.
  - repeat constructor.
Defined.




(** ** Archives cut short (unpak.c) *)

Lemma bits_bound (x k : Z) :
  0 <= k -> 0 <= x -> (forall n, k <= n -> Z.testbit x n = false) -> x < 2 ^ k.
Proof.
  intros Hk Hx Hbits. destruct (Z.lt_ge_cases x (2 ^ k)) as [H|H]; [exact H|].
  exfalso. assert (Hpos : 0 < x) by (pose proof (Z.pow_pos_nonneg 2 k); lia).
  pose proof (proj1 (Z.log2_le_pow2 x k Hpos) H) as Hlog.
  pose proof (Z.bit_log2 x Hpos) as Hbit.
  rewrite (Hbits _ Hlog) in Hbit. discriminate.
Qed.

Lemma nth_is_byte (l : bytes) (i : nat) : Forall is_byte l -> is_byte (nth i l 0).
Proof.
  intros H. destruct (Nat.lt_ge_cases i (length l)) as [Hi|Hi].
  - rewrite Forall_forall in H. apply H. apply nth_In. exact Hi.
  - rewrite nth_overflow by exact Hi. unfold is_byte. lia.
Qed.

Lemma sub_is_byte (l : bytes) (off n : nat) :
  Forall is_byte l -> Forall is_byte (sub l off n).
Proof.
  intros H. unfold sub. rewrite Forall_forall in *. intros x Hx.
  apply H. exact (In_skipn _ _ _ (In_firstn _ _ _ Hx)).
Qed.

Lemma ntohl_range (ptr : bytes) : Forall is_byte ptr -> 0 <= ntohl ptr < 2 ^ 32.
Proof.
  intros H. unfold ntohl.
  pose proof (nth_is_byte ptr 0 H) as H0. pose proof (nth_is_byte ptr 1 H) as H1.
  pose proof (nth_is_byte ptr 2 H) as H2. pose proof (nth_is_byte ptr 3 H) as H3.
  unfold is_byte in *.
  set (a := nth 0 ptr 0) in *. set (b := nth 1 ptr 0) in *.
  set (c := nth 2 ptr 0) in *. set (d := nth 3 ptr 0) in *.
  assert (Hnn : 0 <= Z.lor (Z.lor (Z.lor (Z.shiftl a 24) (Z.shiftl b 16))
                                  (Z.shiftl c 8)) d).
  { repeat (apply Z.lor_nonneg; split); try (apply Z.shiftl_nonneg); lia. }
  split; [exact Hnn|]. apply bits_bound; [lia|exact Hnn|].
  intros n Hn. rewrite !Z.lor_spec, !Z.shiftl_spec by lia.
  rewrite (testbit_above a 8 (n - 24)), (testbit_above b 8 (n - 16)),
    (testbit_above c 8 (n - 8)), (testbit_above d 8 n) by lia.
  reflexivity.
Qed.

(** Where [read_toc_table] leaves the file: after the records, or at the
    end of a file that holds fewer. *)
Lemma read_toc_loop_file (n : nat) :
  forall (prev D : bytes) (p : Z),
    0 <= p <= len D ->
    snd (read_toc_loop n prev (mkFILE D p))
    = mkFILE D (Z.min (p + 30 * Z.of_nat n) (len D)).
Proof.
  induction n as [|n IH]; intros prev D p Hp.
  - cbn [read_toc_loop snd]. f_equal. lia.
  - cbn [read_toc_loop]. unfold fread. cbn [f_data f_pos].
    rewrite len_skipn by exact Hp.
    destruct (Z.leb_spec sizeof_PSARCTOC 0) as [H0|_];
      [unfold sizeof_PSARCTOC in H0; lia|].
    unfold sizeof_PSARCTOC.
    destruct (Z.leb_spec 30 (len D - p)) as [Hfit|Hshort].
    + specialize (IH (firstn (Z.to_nat 30) (skipn (Z.to_nat p) D)
                        ++ skipn (length (firstn (Z.to_nat 30) (skipn (Z.to_nat p) D)))
                                 prev) D (p + 30) ltac:(lia)).
      destruct (read_toc_loop n _ (mkFILE D (p + 30))) as [rest f''].
      cbn [snd] in *. rewrite IH. f_equal. lia.
    + specialize (IH (skipn (Z.to_nat p) D
                        ++ skipn (length (skipn (Z.to_nat p) D)) prev)
                     D (p + (len D - p)) ltac:(lia)).
      destruct (read_toc_loop n _ (mkFILE D (p + (len D - p)))) as [rest f''].
      cbn [snd] in *. rewrite IH. f_equal. lia.
Qed.

(** X16: an archive cut short is rejected. When the header announces
    its entries followed by at least one block-table item, and the file
    ends before the end of that index, [process_archive] returns 1,
    whatever the mode, and creates and reports nothing. *)
Theorem process_archive_rejects_cut_index {E : External} (cfg : CONFIG)
    (mem0 : UNINIT) (ai0 : ARCHIVEINFO) (content : bytes) (mode : Z)
    (files : list cstring) (fs : FS) (k : Z) :
  Forall is_byte content ->
  32 <= len content ->
  1 <= k ->
  toc_length (snd (fst (read_header ai0 (fopen_rb content))))
  = 32 + 30 * toc_entries (snd (fst (read_header ai0 (fopen_rb content))))
    + k * get_blocktable_item_size (snd (fst (read_header ai0 (fopen_rb content)))) ->
  len content < toc_length (snd (fst (read_header ai0 (fopen_rb content)))) ->
  exists (tbl : list FILEINFO) (x : EXTRACTION),
    process_archive cfg mem0 ai0 (Some content) mode files fs
    = Some (1, snd (fst (read_header ai0 (fopen_rb content))), tbl, x)
    /\ x_fs x = fs /\ x_report x = [].
Proof.
  intros Hbytes Hlong Hk.
  - rewrite (read_header_long ai0 content Hlong).
    cbn [fst snd toc_length toc_entries].
    set (air := mkARCHIVEINFO _ _ _ _ _ _ _).
    intros Ht Hcut. unfold process_archive.
    rewrite (read_header_long ai0 content Hlong). fold air.
    cbn [Z.eqb negb].
    assert (Hh : Forall is_byte (firstn 32 content)).
    { rewrite Forall_forall in *. intros x Hx. apply Hbytes.
      exact (In_firstn _ _ _ Hx). }
    pose proof (ntohl_range _ (sub_is_byte _ 20 4 Hh)) as Hn.
    pose proof (ntohl_range _ (sub_is_byte _ 24 4 Hh)) as Hb.
    pose proof (ntohl_range _ (sub_is_byte _ 12 4 Hh)) as Hl.
    change (ntohl (sub (firstn 32 content) 20 4)) with (toc_entries air) in Hn.
    change (ntohl (sub (firstn 32 content) 24 4)) with (block_size air) in Hb.
    change (ntohl (sub (firstn 32 content) 12 4)) with (toc_length air) in Hl.
    change (ntohl (sub (firstn 32 content) 20 4)) with (toc_entries air) in Ht.
    change (ntohl (sub (firstn 32 content) 12 4)) with (toc_length air) in Ht, Hcut.
    assert (Hw : 1 <= get_blocktable_item_size air).
    { unfold get_blocktable_item_size.
      destruct (Z.leb_spec (block_size air) 0x100); [lia|].
      destruct (Z.leb_spec (block_size air) 0x10000); [lia|].
      destruct (Z.leb_spec (block_size air) 0x1000000); [lia|].
      destruct (Z.leb_spec (block_size air) 0x100000000); lia. }
    set (w := get_blocktable_item_size air) in *.
    unfold read_toc_table.
    pose proof (read_toc_loop_file (Z.to_nat (toc_entries air))
                  (repeat (junk_u8 mem0) (Z.to_nat sizeof_PSARCTOC)) content 32
                  ltac:(lia)) as Hfile.
    change (fseek (mkFILE content 32) sizeof_PSARCHEADER) with (mkFILE content 32).
    destruct (read_toc_loop (Z.to_nat (toc_entries air))
                (repeat (junk_u8 mem0) (Z.to_nat sizeof_PSARCTOC))
                (mkFILE content 32)) as [tbl f'].
    cbn [snd] in Hfile. subst f'. rewrite Z2Nat.id in * by lia.
    unfold read_blocktable. fold w. cbn [f_data f_pos].
    rewrite Ht. unfold sizeof_PSARCHEADER, sizeof_PSARCTOC.
    replace (32 + 30 * toc_entries air + k * w - (32 + toc_entries air * 30))
      with (k * w) by lia.
    rewrite u64_small by nia. rewrite Z.div_mul by lia.
    rewrite len_skipn by lia.
    destruct (Z.gtb_spec (k * w)
                (len content - Z.min (32 + 30 * toc_entries air) (len content)))
      as [_|Hle]; [|nia].
    do 2 eexists. split; [reflexivity|]. split; reflexivity.
Qed.

Lemma process_archive_rejects_cut_index_witness :
  exists (tbl : list FILEINFO) (x : EXTRACTION),
    process_archive (E := model_external) config0 memory0 archiveinfo0
      (Some (firstn 40 hello_archive)) 2 [] []
    = Some (1,
            snd (fst (read_header archiveinfo0 (fopen_rb (firstn 40 hello_archive)))),
            tbl, x)
    /\ x_fs x = [] /\ x_report x = [].
Proof.
  apply (process_archive_rejects_cut_index (E := model_external) config0 memory0
           archiveinfo0 (firstn 40 hello_archive) 2 [] [] 2).
  - vm_compute. repeat constructor; discriminate.
  - vm_compute. discriminate.
  - lia.
  - vm_compute. reflexivity.
  - vm_compute. reflexivity.
Defined.

(** ** Extraction by name (unpak.c) *)

Lemma pattern_key_idem (ai : ARCHIVEINFO) (s : cstring) :
  pattern_key ai (pattern_key ai s) = pattern_key ai s.
Proof.
  unfold pattern_key. destruct (icase ai); [apply lcase_lcase|reflexivity].
Qed.

Lemma hashset_of_patterns_spec (ai : ARCHIVEINFO) (files : list cstring) :
  forall set : HASHSET,
    NoDup set ->
    NoDup (hashset_of_patterns ai files set)
    /\ forall v,
         hashset_contains (hashset_of_patterns ai files set) v
         = hashset_contains set v
           || hashset_contains (map (pattern_key ai) files) v.
Proof.
  induction files as [|f rest IH]; intros set Hnd; cbn [hashset_of_patterns map].
  - split; [exact Hnd|]. intros v. cbn [hashset_contains]. rewrite orb_false_r.
    reflexivity.
  - destruct (IH (hashset_add set (if icase ai then lcase f else f))
                 (set_add_NoDup _ _ Hnd)) as [Hnd' Hc].
    split; [exact Hnd'|]. intros v. rewrite Hc, set_add_contains.
    cbn [hashset_contains]. fold (pattern_key ai f).
    destruct (bytes_eqb (pattern_key ai f) v), (hashset_contains set v);
      reflexivity.
Qed.

Lemma entry_selected_key (ai : ARCHIVEINFO) (set : HASHSET) (name : cstring) :
  entry_selected ai (Some set) name = hashset_contains set (pattern_key ai name).
Proof.
  unfold entry_selected, pattern_key. destruct (icase ai); reflexivity.
Qed.

Section Selection.
Context {E : External}.
Variable cfg : CONFIG.
Variable ai : ARCHIVEINFO.
Variable buffer_size : Z.
Variable blocktable : list Z.

Lemma extract_entry_not_selected (fi : FILEINFO) (name : cstring) (x : EXTRACTION) :
  filename fi = Some name ->
  entry_selected ai (x_hset x) name = false ->
  extract_entry cfg ai buffer_size blocktable fi x = Some x.
Proof.
  intros Hn Hs. unfold extract_entry. rewrite Hn, Hs. reflexivity.
Qed.

(** A selected entry is reported once, whatever becomes of it, and its
    name leaves the pattern set. *)
Lemma extract_entry_selected (fi : FILEINFO) (name : cstring) (set : HASHSET)
    (x x' : EXTRACTION) :
  filename fi = Some name ->
  x_hset x = Some set ->
  entry_selected ai (x_hset x) name = true ->
  extract_entry cfg ai buffer_size blocktable fi x = Some x' ->
  x_hset x' = Some (hashset_del set name)
  /\ exists msg, x_report x' = x_report x ++ [(name, msg)].
Proof.
  intros Hn Hset Hs. unfold extract_entry. rewrite Hn, Hs, Hset.
  cbn [negb]. unfold report_item.
  destruct (access (x_fs x) (extract_path cfg name) && negb (overwrite_flag cfg)).
  - destruct (skip_existing_files_flag cfg); intros H; apply Some_inj in H;
      subst x'; cbn [x_hset x_report]; (split; [reflexivity|eexists; reflexivity]).
  - destruct (can_open (x_fs x) (extract_path cfg name)).
    + destruct (decompress_entry ai buffer_size fi blocktable _) as [[ret st]|];
        [|discriminate].
      destruct (u_sink st) as [output_file|]; [|discriminate].
      destruct (negb (ret =? 0)); intros H; apply Some_inj in H;
        subst x'; cbn [x_hset x_report]; (split; [reflexivity|eexists; reflexivity]).
    + intros H; apply Some_inj in H.
      subst x'; cbn [x_hset x_report]. split; [reflexivity|eexists; reflexivity].
Qed.

Lemma extract_entries_not_selected (entries : list FILEINFO) (set : HASHSET)
    (x : EXTRACTION) :
  x_hset x = Some set ->
  Forall (fun fi => exists name,
              filename fi = Some name
              /\ hashset_contains set (pattern_key ai name) = false) entries ->
  extract_entries cfg ai buffer_size blocktable entries x = Some x.
Proof.
  intros Hset H. induction H as [|fi rest (name & Hn & Hc) _ IH];
    cbn [extract_entries]; [reflexivity|].
  rewrite (extract_entry_not_selected fi name x Hn).
  - exact IH.
  - rewrite Hset, entry_selected_key. exact Hc.
Qed.

Lemma extract_entries_selected (entries : list FILEINFO) :
  forall (names : list cstring) (set : HASHSET) (x x' : EXTRACTION),
    map filename entries = map Some names ->
    x_hset x = Some set ->
    NoDup set ->
    (forall v, hashset_contains set v = true -> pattern_key ai v = v) ->
    NoDup (map (pattern_key ai) names) ->
    extract_entries cfg ai buffer_size blocktable entries x = Some x' ->
    map fst (x_report x')
    = map fst (x_report x)
        ++ filter (fun name => hashset_contains set (pattern_key ai name)) names.
Proof.
  induction entries as [|fi rest IH]; intros names set x x' Hnames Hset Hnd Hkey Hdist Hx.
  - destruct names; [|discriminate Hnames]. cbn [extract_entries] in Hx.
    apply Some_inj in Hx. subst x'. cbn [filter]. rewrite app_nil_r. reflexivity.
  - destruct names as [|n names]; [discriminate Hnames|].
    cbn [map] in Hnames, Hdist. injection Hnames as Hn Hnames.
    apply NoDup_cons_iff in Hdist. destruct Hdist as [Hfresh Hdist].
    cbn [extract_entries] in Hx.
    destruct (extract_entry cfg ai buffer_size blocktable fi x) as [x1|] eqn:H1;
      [|discriminate Hx].
    cbn [filter].
    destruct (hashset_contains set (pattern_key ai n)) eqn:Hsel.
    + destruct (extract_entry_selected fi n set x x1 Hn Hset) as (Hset1 & msg & Hrep).
      { rewrite Hset, entry_selected_key. exact Hsel. }
      { exact H1. }
      rewrite (IH names (hashset_del set n) x1 x' Hnames Hset1
                 (set_del_NoDup set n Hnd)).
      * rewrite Hrep, map_app. cbn [map fst]. rewrite <- app_assoc. cbn [app].
        do 2 f_equal. apply filter_ext_in. intros m Hm.
        rewrite (set_del_contains set n (pattern_key ai m) Hnd).
        destruct (bytes_eqb n (pattern_key ai m)) eqn:Heq; [|reflexivity].
        cbn [negb andb].
        destruct (hashset_contains set (pattern_key ai m)) eqn:Hcm; [|reflexivity].
        exfalso. apply bytes_eqb_eq in Heq. apply Hfresh.
        assert (Hk : pattern_key ai n = n) by (apply Hkey; rewrite Heq; exact Hcm).
        rewrite Hk, Heq. apply in_map. exact Hm.
      * intros v Hv. rewrite (set_del_contains set n v Hnd) in Hv.
        apply andb_true_iff in Hv. apply Hkey, Hv.
      * exact Hdist.
      * exact Hx.
    + rewrite (extract_entry_not_selected fi n x Hn) in H1
        by (rewrite Hset, entry_selected_key; exact Hsel).
      apply Some_inj in H1. subst x1.
      exact (IH names set x x' Hnames Hset Hnd Hkey Hdist Hx).
Qed.

(** X17: patterns that name no entry. When [decompress_files] is given
    patterns and no entry of the archive has one of them as its name
    (both in lower case when the archive ignores case), it extracts and
    reports nothing, counts no error, and its result is 0 unless errors
    were counted before: a pattern that is not found is not an error. *)
Theorem decompress_files_without_match (tbl : list FILEINFO)
    (files : list cstring) (x : EXTRACTION) :
  files <> [] ->
  Forall (fun fi => exists name,
              filename fi = Some name
              /\ hashset_contains (map (pattern_key ai) files) (pattern_key ai name)
                 = false)
         (firstn (Z.to_nat (toc_entries ai) - 1) (tl tbl)) ->
  exists x' : EXTRACTION,
    decompress_files cfg ai buffer_size tbl blocktable files x
    = Some (if x_errors x >? 0 then 2 else 0, x')
    /\ x_fs x' = x_fs x /\ x_report x' = x_report x
    /\ x_successful x' = x_successful x /\ x_errors x' = x_errors x.
Proof.
  intros Hne Hall. unfold decompress_files.
  destruct files as [|f files]; [contradiction Hne; reflexivity|].
  set (pats := f :: files) in *.
  destruct (hashset_of_patterns_spec ai pats [] (NoDup_nil _)) as [_ Hc].
  match goal with
  | |- context [extract_entries _ _ _ _ ?es ?x0] =>
    rewrite (extract_entries_not_selected es (hashset_of_patterns ai pats []) x0
               eq_refl)
  end.
  - eexists. split; [reflexivity|]. repeat split.
  - eapply Forall_impl; [|exact Hall]. cbv beta. intros fi (name & Hn & Hm).
    exists name. split; [exact Hn|]. rewrite Hc. cbn [hashset_contains orb].
    exact Hm.
Qed.

(** X18: extraction by name selects the named entries. When the names
    of the entries are distinct (in lower case when the archive ignores
    case) and the extraction is defined, [decompress_files] given
    patterns reports, in the order of the archive, exactly the entries
    whose name is one of the patterns, whatever becomes of each. *)
Theorem decompress_files_selects_named (tbl : list FILEINFO)
    (files names : list cstring) (x x' : EXTRACTION) (ret : Z) :
  files <> [] ->
  map filename (firstn (Z.to_nat (toc_entries ai) - 1) (tl tbl)) = map Some names ->
  NoDup (map (pattern_key ai) names) ->
  decompress_files cfg ai buffer_size tbl blocktable files x = Some (ret, x') ->
  map fst (x_report x')
  = map fst (x_report x)
      ++ filter (fun name => hashset_contains (map (pattern_key ai) files)
                                              (pattern_key ai name)) names.
Proof.
  intros Hne Hnames Hdist. unfold decompress_files.
  destruct files as [|f files]; [contradiction Hne; reflexivity|].
  set (pats := f :: files) in *.
  destruct (hashset_of_patterns_spec ai pats [] (NoDup_nil _)) as [Hnd Hc].
  match goal with
  | |- context [extract_entries _ _ _ _ ?es ?x0] =>
    destruct (extract_entries cfg ai buffer_size blocktable es x0) as [x1|] eqn:Hx;
      [|discriminate]
  end.
  intros H. apply Some_inj in H. injection H as _ <-.
  match type of Hx with
  | extract_entries _ _ _ _ ?es ?x0 = _ =>
    rewrite (extract_entries_selected es names (hashset_of_patterns ai pats []) x0 x1
               Hnames eq_refl Hnd)
  end.
  - cbn [x_report]. f_equal. apply filter_ext. intros n. rewrite Hc.
    reflexivity.
  - intros v Hv. rewrite Hc in Hv. cbn [hashset_contains orb] in Hv.
    apply set_contains_In, in_map_iff in Hv. destruct Hv as (p & <- & _).
    apply pattern_key_idem.
  - exact Hdist.
  - exact Hx.
Qed.

End Selection.

Lemma decompress_files_without_match_witness :
  exists x' : EXTRACTION,
    decompress_files (E := model_external) config0 ai_hello 64 tbl_hello [9; 6]
      [[120]] (x_hello [])
    = Some (if x_errors (x_hello []) >? 0 then 2 else 0, x')
    /\ x_fs x' = x_fs (x_hello []) /\ x_report x' = x_report (x_hello [])
    /\ x_successful x' = x_successful (x_hello [])
    /\ x_errors x' = x_errors (x_hello []).
Proof.
  apply (decompress_files_without_match (E := model_external) config0 ai_hello 64
           [9; 6] tbl_hello [[120]] (x_hello [])).
  - discriminate.
  - vm_compute. constructor; [|constructor].
    eexists. split; reflexivity.
Defined.

Lemma decompress_files_selects_named_witness :
  map fst (x_report (x_hello_named [fst hello_txt; [120]]))
  = map fst (x_report (x_hello []))
      ++ filter (fun name =>
                   hashset_contains
                     (map (pattern_key ai_hello) [fst hello_txt; [120]])
                     (pattern_key ai_hello name))
                [fst hello_txt].
Proof.
  apply (decompress_files_selects_named (E := model_external) config0 ai_hello 64
           [9; 6] tbl_hello [fst hello_txt; [120]] [fst hello_txt] (x_hello [])
           (x_hello_named [fst hello_txt; [120]]) 0).
  - discriminate.
  - vm_compute. reflexivity.
  - vm_compute. repeat constructor. intros [].
  - vm_compute. reflexivity.
Defined.

(** ** The list of input files (file_utils.c) *)

Lemma rm_dot_dir_from_path_total (path : cstring) :
  exists r, rm_dot_dir_from_path path = Some r.
Proof.
  unfold rm_dot_dir_from_path. destruct (len path >=? 2); [|eexists; reflexivity].
  destruct (rm_dot_dir_loop_spec (length path) path 0) as (r & Hr & _).
  - lia.
  - intros j Hj. lia.
  - exists r. exact Hr.
Qed.

Section FilelistAdd.
Variable realpath : cstring -> option cstring.
Variable cap : Z.
Variable names : list cstring.
Hypothesis cap_range : 1 <= cap < 2 ^ 64.

Lemma filelist_add_step (seen : list cstring) (flist : Filelist.FILELIST)
    (name : cstring) :
  In name names ->
  Filelist.filelist_ok realpath cap names seen flist ->
  len (Filelist.files flist) < 2 ^ 63 ->
  match realpath name with
  | None => Filelist.filelist_add realpath flist name = Some (0, flist)
  | Some c =>
    if hashset_contains seen c
    then exists flist',
        Filelist.filelist_add realpath flist name = Some (0, flist')
        /\ Filelist.filelist_ok realpath cap names seen flist'
    else exists flist',
        Filelist.filelist_add realpath flist name = Some (1, flist')
        /\ Filelist.filelist_ok realpath cap names (c :: seen) flist'
  end.
Proof.
  intros Hin (Hwf & Hnd & Hc & Hf & Hc1 & Hlen & Hcap) Hsmall.
  unfold Filelist.filelist_add.
  destruct (realpath name) as [c|] eqn:Hreal; [|reflexivity].
  destruct (hashset_add_spec (Filelist.set flist) c Hwf)
    as (r & set1 & Ha & Hwf1 & _ & Hr & Hframe).
  rewrite Ha. cbn [fst snd]. rewrite Hc in Hr. apply Some_inj in Hr.
  destruct (hashset_contains seen c) eqn:Hseen.
  - rewrite <- Hr. eexists. split; [reflexivity|].
    unfold Filelist.filelist_ok. cbn [Filelist.set Filelist.files Filelist.capacity].
    split; [exact Hwf1|]. split; [exact Hnd|]. split.
    { intros v. rewrite Hframe. destruct (bytes_eqb c v) eqn:Heq; [|apply Hc].
      apply bytes_eqb_eq in Heq. subst v. rewrite Hseen. reflexivity. }
    split; [exact Hf|]. split; [exact Hc1|]. split; [exact Hlen|exact Hcap].
  - rewrite <- Hr.
    pose proof (len_nonneg (Filelist.files flist)) as Hl0.
    set (capacity' := if len (Filelist.files flist) >=? Filelist.capacity flist
                      then u64 (Filelist.capacity flist * 2)
                      else Filelist.capacity flist).
    assert (Hcap' : len (Filelist.files flist) < capacity'
                    /\ 1 <= capacity'
                    /\ capacity' <= Z.max cap (2 * (len (Filelist.files flist) + 1))).
    { subst capacity'.
      destruct (Z.geb_spec (len (Filelist.files flist)) (Filelist.capacity flist)).
      - rewrite u64_small by lia. lia.
      - lia. }
    destruct (Z.geb_spec (len (Filelist.files flist)) capacity') as [Hge|_]; [lia|].
    destruct (rm_dot_dir_from_path_total name) as (cleaned & Hclean).
    rewrite Hclean. eexists. split; [reflexivity|].
    unfold Filelist.filelist_ok. cbn [Filelist.set Filelist.files Filelist.capacity].
    split; [exact Hwf1|]. split.
    { apply NoDup_cons; [|exact Hnd]. intros Hin'. apply set_contains_In in Hin'.
      congruence. }
    split.
    { intros v. rewrite Hframe, Hc. cbn [hashset_contains].
      destruct (bytes_eqb c v); reflexivity. }
    split.
    { cbn [rev]. apply Forall2_app; [exact Hf|]. constructor; [|constructor].
      unfold Filelist.stands_for.
      destruct (Filelist.strstr cleaned [46; 46; 47]) as [i|].
      - destruct ((i =? 0)%nat || (nth (i - 1) cleaned 0 =? 47));
          [left; reflexivity|right; exists name; repeat split; assumption].
      - right. exists name. repeat split; assumption. }
    rewrite len_app. change (len [_]) with 1. lia.
Qed.

Lemma filelist_ok_length (seen : list cstring) (flist : Filelist.FILELIST) :
  Filelist.filelist_ok realpath cap names seen flist ->
  len (Filelist.files flist) = len seen.
Proof.
  intros (_ & _ & _ & Hf & _). apply Forall2_length in Hf. unfold len.
  rewrite Hf, length_rev. reflexivity.
Qed.

(** The calls for the names [given], a part of [names]: the canonical
    paths met for the first time are put in front of [seen], the last
    one first. *)
Lemma filelist_add_all_spec (given : list cstring) :
  forall (seen : list cstring) (flist : Filelist.FILELIST),
    incl given names ->
    Filelist.filelist_ok realpath cap names seen flist ->
    len seen + len given < 2 ^ 63 ->
    exists flist' : Filelist.FILELIST,
      Filelist.filelist_add_all realpath flist given = Some flist'
      /\ Filelist.filelist_ok realpath cap names
           (rev (Filelist.distinct seen (Filelist.canonical realpath given)) ++ seen)
           flist'.
Proof.
  induction given as [|name rest IH]; intros seen flist Hincl Hok Hsmall.
  - exists flist. split; [reflexivity|exact Hok].
  - cbn [Filelist.filelist_add_all Filelist.canonical].
    rewrite len_cons in Hsmall. pose proof (len_nonneg rest) as Hr0.
    pose proof (len_nonneg seen) as Hs0.
    assert (Hin : In name names) by (apply Hincl; left; reflexivity).
    assert (Hincl' : incl rest names)
      by (intros v Hv; apply Hincl; right; exact Hv).
    pose proof (filelist_add_step seen flist name Hin Hok) as Hstep.
    rewrite (filelist_ok_length seen flist Hok) in Hstep.
    specialize (Hstep ltac:(lia)).
    destruct (realpath name) as [c|].
    + cbn [Filelist.distinct]. destruct (hashset_contains seen c) eqn:Hseen.
      * destruct Hstep as (flist1 & Ha & Hok1). rewrite Ha. cbn [snd].
        apply IH; [exact Hincl'|exact Hok1|lia].
      * destruct Hstep as (flist1 & Ha & Hok1). rewrite Ha. cbn [snd].
        destruct (IH (c :: seen) flist1 Hincl' Hok1 ltac:(rewrite len_cons; lia))
          as (flist' & Hall & Hok').
        exists flist'. split; [exact Hall|].
        cbn [rev]. rewrite <- app_assoc. exact Hok'.
    + rewrite Hstep. cbn [snd]. apply IH; [exact Hincl'|exact Hok|lia].
Qed.

End FilelistAdd.

Lemma distinct_spec (paths : list cstring) :
  forall seen : list cstring,
    NoDup (Filelist.distinct seen paths)
    /\ forall c, In c (Filelist.distinct seen paths) <-> In c paths /\ ~ In c seen.
Proof.
  induction paths as [|p rest IH]; intros seen; cbn [Filelist.distinct].
  - split; [constructor|]. intros c. cbn [In]. tauto.
  - destruct (hashset_contains seen p) eqn:Hs.
    + destruct (IH seen) as [Hnd Hin]. split; [exact Hnd|].
      intros c. rewrite Hin. cbn [In]. apply set_contains_In in Hs.
      split; [tauto|]. intros [[<-|H] Hn]; [contradiction|tauto].
    + destruct (IH (p :: seen)) as [Hnd Hin].
      assert (Hp : ~ In p seen).
      { intros H. apply set_contains_In in H. congruence. }
      split.
      * apply NoDup_cons; [|exact Hnd]. rewrite Hin. cbn [In]. tauto.
      * intros c. cbn [In]. rewrite Hin. cbn [In].
        destruct (list_eq_dec Z.eq_dec p c) as [<-|Hne]; tauto.
Qed.

(** X19: each input file is listed once, in the order of arrival.
    Starting from [filelist_init], with room for one entry at least and a
    table of one chain at least, every run of [filelist_add] calls
    succeeds. The list then has one entry for each distinct canonical path
    ([realpath]) of the names, in the order in which these paths were
    first met ([distinct]: the canonical paths of the names in their
    order, each kept where it comes first), and none for a name that has
    no canonical path. The entry of a path is the path itself or one of
    the given names that resolves to it, cleaned of its "./". *)
Theorem filelist_lists_each_file_once (realpath : cstring -> option cstring)
    (cap n : Z) (names : list cstring) :
  1 <= cap < 2 ^ 64 -> 0 < n -> len names < 2 ^ 63 ->
  exists flist : Filelist.FILELIST,
    Filelist.filelist_add_all realpath (Filelist.filelist_init cap n) names
    = Some flist
    /\ Forall2 (Filelist.stands_for realpath names) (Filelist.files flist)
               (Filelist.distinct [] (Filelist.canonical realpath names))
    /\ NoDup (Filelist.distinct [] (Filelist.canonical realpath names))
    /\ (forall c, In c (Filelist.distinct [] (Filelist.canonical realpath names))
                  <-> In c (Filelist.canonical realpath names)).
Proof.
  intros Hcap Hn Hsmall.
  destruct (filelist_add_all_spec realpath cap names Hcap names []
              (Filelist.filelist_init cap n))
    as (flist & Hall & (_ & _ & _ & Hf & _)).
  - apply incl_refl.
  - unfold Filelist.filelist_ok, Filelist.filelist_init.
    cbn [Filelist.set Filelist.files Filelist.capacity].
    split; [apply hashset_init_well_formed; exact Hn|]. split; [constructor|].
    split; [intros v; apply hashset_init_contains; exact Hn|].
    split; [constructor|]. change (len (@nil cstring)) with 0. lia.
  - change (len (@nil cstring)) with 0. lia.
  - exists flist. split; [exact Hall|].
    rewrite app_nil_r, rev_involutive in Hf. split; [exact Hf|].
    destruct (distinct_spec (Filelist.canonical realpath names) []) as [Hnd Hin].
    split; [exact Hnd|]. intros c. rewrite Hin. cbn [In]. tauto.
Qed.

(** Three spellings of two files, [realpath] folding the case: "a",
    "./b" and "A" leave the entries "a" and "b", in this order. *)
Lemma filelist_lists_each_file_once_witness :
  exists flist : Filelist.FILELIST,
    Filelist.filelist_add_all (fun name => Some (lcase name))
      (Filelist.filelist_init 1 65536) [[97]; [46; 47; 98]; [65]]
    = Some flist
    /\ Forall2 (Filelist.stands_for (fun name => Some (lcase name))
                  [[97]; [46; 47; 98]; [65]])
               (Filelist.files flist)
               (Filelist.distinct []
                  (Filelist.canonical (fun name => Some (lcase name))
                     [[97]; [46; 47; 98]; [65]]))
    /\ NoDup (Filelist.distinct []
                (Filelist.canonical (fun name => Some (lcase name))
                   [[97]; [46; 47; 98]; [65]]))
    /\ (forall c,
           In c (Filelist.distinct []
                   (Filelist.canonical (fun name => Some (lcase name))
                      [[97]; [46; 47; 98]; [65]]))
           <-> In c (Filelist.canonical (fun name => Some (lcase name))
                       [[97]; [46; 47; 98]; [65]])).
Proof.
  apply (filelist_lists_each_file_once (fun name => Some (lcase name)) 1 65536
           [[97]; [46; 47; 98]; [65]]).
  - lia.
  - lia.
  - cbn. lia.
Defined.

(** ** The worker pool (threads.c) *)

Lemma pool_run_keeps_order {E : External} (cfg : CONFIG) (ai : ARCHIVEINFO)
    (threads_max : Z) (p r : POOL) :
  pool_run cfg ai threads_max p r -> pool_ordered p -> pool_ordered r.
Proof.
  intros Hrun. induction Hrun as [p|p q r Hstep _ IH]; intros Hord; [exact Hord|].
  apply IH. exact (proj1 (pool_step_ordered cfg ai threads_max p q Hstep Hord)).
Qed.

(** X20: the pool commits in submission order. Whatever the number of
    workers and however starts and commits interleave, the workers that
    run hold consecutive tickets from [threads_current] on, only the
    oldest of them can leave [threads_wait_for_orderer_continue], and a
    run that ends with nothing queued and nobody running has written
    exactly what committing the blocks one after the other in the order
    of their submission writes. *)
Theorem pool_writes_in_submission_order {E : External} (cfg : CONFIG)
    (ai : ARCHIVEINFO) (threads_max : Z) (tasks : list PAKDATA) (st : PAK)
    (p : POOL) :
  pool_run cfg ai threads_max (mkPOOL 1 1 tasks [] st) p ->
  pool_ordered p
  /\ (forall q, pool_step cfg ai threads_max p q ->
                threads_current q = threads_current p
                \/ exists w rest, running p = w :: rest /\ running q = rest
                                  /\ tid w = threads_current p)
  /\ (queue p = [] -> running p = [] ->
      commit_tasks cfg ai tasks st = Some (shared p)).
Proof.
  intros Hrun.
  assert (Hord0 : pool_ordered (mkPOOL 1 1 tasks [] st)).
  { unfold pool_ordered. cbn. repeat split; lia. }
  assert (Hord : pool_ordered p)
    by exact (pool_run_keeps_order cfg ai threads_max _ p Hrun Hord0).
  split; [exact Hord|]. split.
  - intros q Hstep. destruct Hord as (_ & Hm & _).
    destruct Hstep as [cur lst pkd q run st0 Hfree
                      |cur lst q run1 run2 w st0 st' Hw Hc];
      cbn [threads_current running] in *.
    + left. reflexivity.
    + right. pose proof (current_ticket_is_first cur run1 run2 w Hm Hw) as ->.
      exists w, run2. repeat split. exact Hw.
  - intros Hq Hr.
    exact (pool_run_ordered cfg ai threads_max (mkPOOL 1 1 tasks [] st) p Hrun
             Hord0 Hq Hr).
Qed.

Lemma pool_writes_in_submission_order_witness :
  pool_ordered (mkPOOL 2 2 [] [] pak_after_abc)
  /\ (forall q,
         pool_step (E := model_external) config0 archiveinfo0 2
           (mkPOOL 2 2 [] [] pak_after_abc) q ->
         threads_current q = threads_current (mkPOOL 2 2 [] [] pak_after_abc)
         \/ exists w rest,
             running (mkPOOL 2 2 [] [] pak_after_abc) = w :: rest
             /\ running q = rest
             /\ tid w = threads_current (mkPOOL 2 2 [] [] pak_after_abc))
  /\ (queue (mkPOOL 2 2 [] [] pak_after_abc) = [] ->
      running (mkPOOL 2 2 [] [] pak_after_abc) = [] ->
      commit_tasks (E := model_external) config0 archiveinfo0 [task_abc]
        pak_before_abc
      = Some (shared (mkPOOL 2 2 [] [] pak_after_abc))).
Proof.
  apply (pool_writes_in_submission_order (E := model_external) config0
           archiveinfo0 2 [task_abc] pak_before_abc
           (mkPOOL 2 2 [] [] pak_after_abc)).
  eapply pool_run_step.
  - apply pool_start. cbn. lia.
  - eapply pool_run_step; [|apply pool_run_refl].
    apply (pool_commit (E := model_external) config0 archiveinfo0 2 1 2 [] [] []
             (mkWORKER 1 task_abc) pak_before_abc pak_after_abc);
      reflexivity.
Defined.

(** ** More of the reader (unpak.c) *)

(** X21: with the trim-path option every entry is extracted into the
    current directory: the path that [decompress_files] opens holds no
    slash, whatever [dirname] and [basename] return. *)
Theorem extract_path_trimmed {E : External} (cfg : CONFIG) (name : cstring) :
  trim_path_flag cfg = true -> ~ In 47 (extract_path cfg name).
Proof.
  intros Ht. unfold extract_path. cbv zeta. rewrite Ht.
  match goal with
  | |- context [strrchr 47 ?fp] => destruct (strrchr 47 fp) as [px|] eqn:Hp
  end.
  - destruct (strrchr_some 47 _ px Hp) as (t & -> & Hnot). exact Hnot.
  - exact (strrchr_none 47 _ Hp).
Qed.

Lemma extract_path_trimmed_witness :
  ~ In 47 (extract_path (E := model_external) (mkCONFIG 5 false false true false 0)
             [97; 47; 98; 47; 99]).
Proof.
  apply (extract_path_trimmed (E := model_external)
           (mkCONFIG 5 false false true false 0) [97; 47; 98; 47; 99]).
  reflexivity.
Defined.

(** The 32-bit local of [read_blocktable] keeps its three high bytes
    when one byte is read into it. *)
Lemma one_byte_item (b junk : Z) :
  is_byte b -> 0 <= junk < 2 ^ 32 ->
  u32 (le_combine [b] + 2 ^ (8 * 1) * (junk / 2 ^ (8 * 1))) = b + 256 * (junk / 256)
  /\ (b + 256 * (junk / 256)) / 256 = junk / 256
  /\ 0 <= b + 256 * (junk / 256) < 2 ^ 32.
Proof.
  unfold is_byte. intros Hb Hj. cbn [le_combine].
  change (2 ^ (8 * 1)) with 256.
  assert (Hq : 0 <= junk / 256 < 2 ^ 24).
  { split; [apply Z.div_pos; lia|apply Z.div_lt_upper_bound; lia]. }
  assert (Hr : 0 <= b + 256 * (junk / 256) < 2 ^ 32) by lia.
  split; [|split; [|exact Hr]].
  - replace (b + 256 * 0 + 256 * (junk / 256)) with (b + 256 * (junk / 256)) by lia.
    apply u32_small. exact Hr.
  - rewrite Z.add_comm, Z.mul_comm, Z.div_add_l by lia.
    rewrite (Z.div_small b 256) by lia. lia.
Qed.

Lemma read_blocktable_loop_one_byte (bs : list Z) :
  forall (D post : bytes) (p junk : Z),
    Forall is_byte bs -> 0 <= p -> 0 <= junk < 2 ^ 32 ->
    skipn (Z.to_nat p) D = bs ++ post ->
    read_blocktable_loop 1 (length bs) junk (mkFILE D p)
    = (Some (map (fun b => b + 256 * (junk / 256)) bs), mkFILE D (p + len bs)).
Proof.
  induction bs as [|b bs IH]; intros D post p junk Hb Hp Hj Hs.
  - cbn [length read_blocktable_loop map]. change (len (@nil Z)) with 0.
    rewrite Z.add_0_r. reflexivity.
  - cbn [length read_blocktable_loop].
    pose proof (Forall_inv Hb) as Hb0. pose proof (Forall_inv_tail Hb) as Hbs.
    change (b :: bs) with ([b] ++ bs) in Hs. rewrite <- app_assoc in Hs.
    pose proof (fread_exact (mkFILE D p) [b] (bs ++ post) Hs ltac:(discriminate))
      as Hread.
    change (len [b]) with 1 in Hread. rewrite Hread. cbn [f_data f_pos].
    change (1 =? 0) with false. cbv iota.
    destruct (one_byte_item b junk Hb0 Hj) as (Hv & Hq & Hr).
    change (1 =? 1) with true. cbv iota.
    rewrite Hv.
    rewrite (IH D post (p + 1) (b + 256 * (junk / 256)) Hbs ltac:(lia) Hr).
    + rewrite Hq. cbn [map]. f_equal. f_equal. rewrite len_cons. lia.
    + change 1 with (len [b]). apply (skipn_advance D [b] (bs ++ post) p Hp Hs).
Qed.

(** X22: one-byte block-table items are read into an uninitialised
    local. With a block size of at most 256 the items have one byte;
    [read_blocktable] then returns for each item the byte that was
    written plus the three high bytes of its 32-bit local, which nothing
    has set: the table comes back as written only if those bytes happen
    to be zero. *)
Theorem read_blocktable_one_byte_items (mem0 : UNINIT) (ai : ARCHIVEINFO)
    (D post : bytes) (bs : list Z) (p : Z) :
  0 <= block_size ai <= 256 ->
  toc_length ai
  = sizeof_PSARCHEADER + toc_entries ai * sizeof_PSARCTOC + len bs ->
  toc_length ai < 2 ^ 64 ->
  0 <= toc_entries ai ->
  Forall is_byte bs -> 0 <= p -> 0 <= junk_u32 mem0 < 2 ^ 32 ->
  skipn (Z.to_nat p) D = bs ++ post ->
  read_blocktable mem0 ai (mkFILE D p)
  = (Some (map (fun b => b + 256 * (junk_u32 mem0 / 256)) bs),
     mkFILE D (p + len bs))
  /\ (bs <> [] ->
      (map (fun b => b + 256 * (junk_u32 mem0 / 256)) bs = bs
       <-> junk_u32 mem0 < 256)).
Proof.
  intros Hb Ht Ht64 Hn Hbs Hp Hj Hs. split.
  - unfold read_blocktable.
    assert (Hw : get_blocktable_item_size ai = 1).
    { unfold get_blocktable_item_size.
      destruct (Z.leb_spec (block_size ai) 0x100); [reflexivity|lia]. }
    rewrite Hw, Ht. cbn [f_data f_pos].
    replace (sizeof_PSARCHEADER + toc_entries ai * sizeof_PSARCTOC + len bs
             - (sizeof_PSARCHEADER + toc_entries ai * sizeof_PSARCTOC))
      with (len bs) by lia.
    pose proof (len_nonneg bs) as Hl.
    rewrite u64_small by (unfold sizeof_PSARCHEADER, sizeof_PSARCTOC in *; lia).
    rewrite Z.div_1_r, Z.mul_1_r, Hs, len_app.
    pose proof (len_nonneg post) as Hpost.
    destruct (Z.gtb_spec (len bs) (len bs + len post)) as [Hgt|_]; [lia|].
    rewrite to_nat_len.
    apply (read_blocktable_loop_one_byte bs D post p (junk_u32 mem0) Hbs Hp Hj Hs).
  - intros Hne. destruct bs as [|b bs]; [contradiction Hne; reflexivity|].
    assert (Hq : 0 <= junk_u32 mem0 / 256) by (apply Z.div_pos; lia).
    split.
    + intros Heq. apply (f_equal (hd 0)) in Heq. cbn [map hd] in Heq.
      assert (H0 : junk_u32 mem0 / 256 = 0) by lia.
      apply Z.div_small_iff in H0; lia.
    + intros Hsmall. rewrite (Z.div_small (junk_u32 mem0) 256) by lia.
      rewrite <- (map_id (b :: bs)) at 2. apply map_ext. intros a. lia.
Qed.

Lemma read_blocktable_one_byte_items_witness :
  read_blocktable memory0 (mkARCHIVEINFO 1 4 PSARC_ZLIB 95 2 256 0)
    (mkFILE ([1; 2] ++ [5; 0; 200] ++ [9]) 2)
  = (Some (map (fun b => b + 256 * (junk_u32 memory0 / 256)) [5; 0; 200]),
     mkFILE ([1; 2] ++ [5; 0; 200] ++ [9]) (2 + len [5; 0; 200]))
  /\ ([5; 0; 200] <> [] ->
      (map (fun b => b + 256 * (junk_u32 memory0 / 256)) [5; 0; 200] = [5; 0; 200]
       <-> junk_u32 memory0 < 256)).
Proof.
  apply (read_blocktable_one_byte_items memory0
           (mkARCHIVEINFO 1 4 PSARC_ZLIB 95 2 256 0)
           ([1; 2] ++ [5; 0; 200] ++ [9]) [9] [5; 0; 200] 2).
  - cbn. lia.
  - reflexivity.
  - cbn. lia.
  - cbn. lia.
  - repeat constructor; unfold is_byte; lia.
  - lia.
  - cbn. lia.
  - reflexivity.
Defined.

(** X23: an entry whose payload is cut. When the archive ends inside
    the first block of a selected entry that has content, and the output
    file may be written, the entry is counted as an error and reported
    as "fail", and the output file that [fopen] created stays behind,
    empty. *)
Theorem extract_entry_cut_payload {E : External} (cfg : CONFIG)
    (ai : ARCHIVEINFO) (buffer_size : Z) (blocktable : list Z) (fi : FILEINFO)
    (x : EXTRACTION) (name : cstring) (slot : Z) :
  filename fi = Some name ->
  entry_selected ai (x_hset x) name = true ->
  access (x_fs x) (extract_path cfg name) = false \/ overwrite_flag cfg = true ->
  can_open (x_fs x) (extract_path cfg name) = true ->
  0 < uncompressed_size fi ->
  0 <= offset fi ->
  load blocktable (block_index fi) = Some slot ->
  len (skipn (Z.to_nat (offset fi)) (f_data (x_unpak_archive x)))
  < (if slot =? 0 then u32 (block_size ai) else slot) ->
  len (skipn (Z.to_nat (offset fi)) (f_data (x_unpak_archive x))) <= buffer_size ->
  exists x' : EXTRACTION,
    extract_entry cfg ai buffer_size blocktable fi x = Some x'
    /\ x_errors x' = u64 (x_errors x + 1)
    /\ x_successful x' = x_successful x
    /\ x_report x' = x_report x ++ [(name, "fail"%string)]
    /\ fs_lookup (x_fs x') (extract_path cfg name) = Some (RegularFile []).
Proof.
  intros Hn Hsel Hfree Hopen Hsize Hoff Hslot Hcut Hbuf.
  unfold extract_entry. rewrite Hn, Hsel. cbn [negb]. rewrite Hopen.
  assert (Hex : access (x_fs x) (extract_path cfg name) && negb (overwrite_flag cfg)
                = false).
  { destruct Hfree as [-> | ->]; [reflexivity|apply andb_false_r]. }
  rewrite Hex.
  unfold decompress_entry. cbn [decompress_entry_loop u_archive u_sink u_target].
  destruct (Z.leb_spec (uncompressed_size fi) 0) as [H0|_]; [lia|].
  rewrite Hslot.
  set (blk := if slot =? 0 then u32 (block_size ai) else slot) in *.
  pose proof (len_nonneg (skipn (Z.to_nat (offset fi)) (f_data (x_unpak_archive x))))
    as Hav.
  unfold fread, fseek. cbn [f_data f_pos].
  destruct (Z.leb_spec blk 0) as [Hb0|_]; [lia|].
  destruct (Z.leb_spec blk
              (len (skipn (Z.to_nat (offset fi)) (f_data (x_unpak_archive x)))))
    as [Hfit|_]; [lia|].
  destruct (Z.gtb_spec
              (len (skipn (Z.to_nat (offset fi)) (f_data (x_unpak_archive x))))
              buffer_size) as [Hbig|_]; [lia|].
  replace (0 * blk =? blk) with false by (symmetry; apply Z.eqb_neq; lia).
  cbn [negb u_sink u_archive u_target]. change (0 =? 0) with true.
  change (1 =? 0) with false. cbn [negb].
  eexists. split; [reflexivity|].
  cbn [x_errors x_successful x_report x_fs]. unfold report_item.
  repeat split. apply fs_lookup_write.
Qed.

Lemma extract_entry_cut_payload_witness :
  exists x' : EXTRACTION,
    extract_entry (E := model_external) config0 ai_hello 64 [9; 6] fi_hello
      x_hello_cut
    = Some x'
    /\ x_errors x' = u64 (x_errors x_hello_cut + 1)
    /\ x_successful x' = x_successful x_hello_cut
    /\ x_report x' = x_report x_hello_cut ++ [(fst hello_txt, "fail"%string)]
    /\ fs_lookup (x_fs x') (extract_path (E := model_external) config0 (fst hello_txt))
       = Some (RegularFile []).
Proof.
  apply (extract_entry_cut_payload (E := model_external) config0 ai_hello 64 [9; 6]
           fi_hello x_hello_cut (fst hello_txt) 6).
  - reflexivity.
  - reflexivity.
  - left. reflexivity.
  - reflexivity.
  - cbn. lia.
  - cbn. lia.
  - reflexivity.
  - vm_compute. reflexivity.
  - vm_compute. discriminate.
Defined.
